(** * Haberdasher: a shallow embedding of the supervisor and its log pipeline

    The development follows the two source files of the repository:

    - [logging/emit.go]: the default tags and labels read by [init], the
      [Emitter] interface, the [Message] envelope, the [Emitters] registry
      with [Register], and [Emit];
    - [main.go]: [signalHandler] and [main].

    Go strings are modelled as [string] (a sequence of 8-bit characters),
    byte slices as [list byte], machine integers as [Z], maps as [gmap].
    The parts of Go's standard library that decide what the program does are
    modelled in modules of their own, before the program itself:
    [unicode/utf8] ([DecodeRune], [EncodeRune]), [encoding/json] (the
    scanner and the decoder as one recursive-descent parser, the encoder of
    strings, slices, maps and structs), [time] (the RFC 3339 text of a clock
    reading), [bufio] (the lines that a [Scanner] cuts its input into) and
    [syscall] (the processes that [Kill] signals).

    The process is a state machine: the main goroutine moves from one
    statement of [main] to the next, the goroutines that the read loop starts
    and the goroutine of [signalHandler] run when the scheduler picks them,
    and signals arrive from outside.  A schedule is the list of these choices;
    a goroutine started by the read loop runs [Emit] in one step, and
    [signalHandler] runs from the receipt of a signal to [os.Exit] in one
    step.  What the program does to the outside (its log, the calls of the
    emitter, the child it starts, the signals it sends) is recorded as a
    trace of events.

    The proofs follow the definitions: first the library (UTF-8, string
    literals, arrays and objects, the text of an envelope read back), then
    the state machine, then the properties of the program: what the
    specification says of it, and what holds of the supervisor under every
    schedule, of the envelope, of the defaults and of the lines it reads. *)

From Stdlib Require Import ZArith List Strings.String Strings.Ascii Strings.Byte Lia.
From stdpp Require Import gmap strings list fin_maps sorting.

Open Scope Z_scope.

(** * Bytes *)

Definition b2z (b : byte) : Z := Z.of_N (Byte.to_N b).

(** Go's conversion [byte(x)] of an integer: the low eight bits. *)
Definition z2b (z : Z) : byte :=
  match Byte.of_N (Z.to_N (z mod 256)) with
  | Some b => b
  | None => x00
  end.

(** [[]byte(s)] and [string(b)]. *)
Definition bytes_of_string (s : string) : list byte := list_byte_of_string s.
Definition string_of_bytes (b : list byte) : string := string_of_list_byte b.

(** * unicode/utf8 *)

Module utf8.

Definition RuneError : Z := 0xFFFD.
Definition MaxRune : Z := 0x10FFFF.
Definition surrogateMin : Z := 0xD800.
Definition surrogateMax : Z := 0xDFFF.
Definition RuneSelf : Z := 0x80.

Definition maskx : Z := 0x3F.
Definition mask2 : Z := 0x1F.
Definition mask3 : Z := 0x0F.
Definition mask4 : Z := 0x07.

Definition rune1Max : Z := 0x7F.
Definition rune2Max : Z := 0x7FF.
Definition rune3Max : Z := 0xFFFF.

(** The table [first]: for a leading byte, [0xF0] for ASCII, [0xF1] for a
    byte that cannot start a sequence, and otherwise the sequence length in
    the low three bits and the index of the range accepted for the second
    byte in the high four. *)
Definition first (p0 : Z) : Z :=
  if p0 <? 0x80 then 0xF0
  else if p0 <? 0xC2 then 0xF1
  else if p0 <? 0xE0 then 0x02
  else if p0 =? 0xE0 then 0x13
  else if p0 <? 0xED then 0x03
  else if p0 =? 0xED then 0x23
  else if p0 <? 0xF0 then 0x03
  else if p0 =? 0xF0 then 0x34
  else if p0 <? 0xF4 then 0x04
  else if p0 =? 0xF4 then 0x44
  else 0xF1.

Definition acceptRanges (i : Z) : Z * Z :=
  if i =? 0 then (0x80, 0xBF)
  else if i =? 1 then (0xA0, 0xBF)
  else if i =? 2 then (0x80, 0x9F)
  else if i =? 3 then (0x90, 0xBF)
  else (0x80, 0x8F).

Definition out_of (lo hi : Z) (b : byte) : bool :=
  (b2z b <? lo) || (hi <? b2z b).

(** [DecodeRune p]: the first rune of [p] and its width in bytes; every
    failure is [(RuneError, 1)], an empty input is [(RuneError, 0)]. *)
Definition DecodeRune (p : list byte) : Z * nat :=
  match p with
  | [] => (RuneError, 0%nat)
  | p0 :: t =>
    let x := first (b2z p0) in
    if 0xF0 <=? x then
      ((if x =? 0xF0 then b2z p0 else RuneError), 1%nat)
    else
      let sz := Z.land x 7 in
      let '(lo, hi) := acceptRanges (Z.shiftr x 4) in
      match t with
      | [] => (RuneError, 1%nat)
      | b1 :: t1 =>
        if out_of lo hi b1 then (RuneError, 1%nat)
        else if sz <=? 2 then
          (Z.lor (Z.shiftl (Z.land (b2z p0) mask2) 6) (Z.land (b2z b1) maskx), 2%nat)
        else
          match t1 with
          | [] => (RuneError, 1%nat)
          | b2 :: t2 =>
            if out_of 0x80 0xBF b2 then (RuneError, 1%nat)
            else if sz <=? 3 then
              (Z.lor (Z.lor (Z.shiftl (Z.land (b2z p0) mask3) 12)
                            (Z.shiftl (Z.land (b2z b1) maskx) 6))
                     (Z.land (b2z b2) maskx), 3%nat)
            else
              match t2 with
              | [] => (RuneError, 1%nat)
              | b3 :: _ =>
                if out_of 0x80 0xBF b3 then (RuneError, 1%nat)
                else
                  (Z.lor (Z.lor (Z.lor (Z.shiftl (Z.land (b2z p0) mask4) 18)
                                       (Z.shiftl (Z.land (b2z b1) maskx) 12))
                                (Z.shiftl (Z.land (b2z b2) maskx) 6))
                         (Z.land (b2z b3) maskx), 4%nat)
              end
          end
      end
  end.

Definition encode3 (r : Z) : list byte :=
  [ z2b (Z.lor 0xE0 (Z.shiftr r 12));
    z2b (Z.lor 0x80 (Z.land (Z.shiftr r 6) maskx));
    z2b (Z.lor 0x80 (Z.land r maskx)) ].

(** [EncodeRune r]: the UTF-8 encoding of [r]; a rune out of range or a
    surrogate half is written as [RuneError]. *)
Definition EncodeRune (r : Z) : list byte :=
  if (0 <=? r) && (r <=? rune1Max) then [ z2b r ]
  else if (0 <=? r) && (r <=? rune2Max) then
    [ z2b (Z.lor 0xC0 (Z.shiftr r 6)); z2b (Z.lor 0x80 (Z.land r maskx)) ]
  else if (r <? 0) || (MaxRune <? r) || ((surrogateMin <=? r) && (r <=? surrogateMax))
    then encode3 RuneError
  else if r <=? rune3Max then encode3 r
  else
    [ z2b (Z.lor 0xF0 (Z.shiftr r 18));
      z2b (Z.lor 0x80 (Z.land (Z.shiftr r 12) maskx));
      z2b (Z.lor 0x80 (Z.land (Z.shiftr r 6) maskx));
      z2b (Z.lor 0x80 (Z.land r maskx)) ].

(** A decoding failure, as the callers test it:
    [c == utf8.RuneError && size == 1]. *)
Definition is_error (d : Z * nat) : bool :=
  (fst d =? RuneError) && Nat.eqb (snd d) 1.

(** [utf8.Valid]: no position decodes to a failure.  [skip] counts the
    bytes of the current rune still to step over. *)
Fixpoint valid_from (skip : nat) (p : list byte) : bool :=
  match p with
  | [] => true
  | _ :: t =>
    match skip with
    | S k => valid_from k t
    | O =>
      let d := DecodeRune p in
      negb (is_error d) && valid_from (pred (snd d)) t
    end
  end.

Definition Valid (p : list byte) : bool := valid_from 0 p.
Definition ValidString (s : string) : bool := Valid (bytes_of_string s).

(** A text coerced to valid UTF-8: every byte at which decoding fails is
    replaced by the encoding of [RuneError], the rest is kept. *)
Fixpoint coerce_from (skip : nat) (p : list byte) : list byte :=
  match p with
  | [] => []
  | _ :: t =>
    match skip with
    | S k => coerce_from k t
    | O =>
      let d := DecodeRune p in
      if is_error d then EncodeRune RuneError ++ coerce_from 0 t
      else firstn (snd d) p ++ coerce_from (pred (snd d)) t
    end
  end.

Definition coerce (s : string) : string :=
  string_of_bytes (coerce_from 0 (bytes_of_string s)).

(** The runes that [DecodeRune] assembles from two, three and four bytes. *)
Definition rune2 (p0 b1 : byte) : Z :=
  Z.lor (Z.shiftl (Z.land (b2z p0) mask2) 6) (Z.land (b2z b1) maskx).

Definition rune3 (p0 b1 b2 : byte) : Z :=
  Z.lor (Z.lor (Z.shiftl (Z.land (b2z p0) mask3) 12) (Z.shiftl (Z.land (b2z b1) maskx) 6))
        (Z.land (b2z b2) maskx).

Definition rune4 (p0 b1 b2 b3 : byte) : Z :=
  Z.lor (Z.lor (Z.lor (Z.shiftl (Z.land (b2z p0) mask4) 18)
                      (Z.shiftl (Z.land (b2z b1) maskx) 12))
               (Z.shiftl (Z.land (b2z b2) maskx) 6))
        (Z.land (b2z b3) maskx).

(** The leading byte of a sequence of three or four bytes, with the range
    [acceptRanges] gives its second byte. *)
Definition lead3 (p0 b1 : Z) : Prop :=
  (p0 = 0xE0 ∧ 0xA0 ≤ b1 ≤ 0xBF) ∨ (0xE1 ≤ p0 ≤ 0xEC ∧ 0x80 ≤ b1 ≤ 0xBF)
  ∨ (p0 = 0xED ∧ 0x80 ≤ b1 ≤ 0x9F) ∨ (0xEE ≤ p0 ≤ 0xEF ∧ 0x80 ≤ b1 ≤ 0xBF).

Definition lead4 (p0 b1 : Z) : Prop :=
  (p0 = 0xF0 ∧ 0x90 ≤ b1 ≤ 0xBF) ∨ (0xF1 ≤ p0 ≤ 0xF3 ∧ 0x80 ≤ b1 ≤ 0xBF)
  ∨ (p0 = 0xF4 ∧ 0x80 ≤ b1 ≤ 0x8F).

(** The outcomes of [DecodeRune] on a text that is not empty. *)
Inductive decode_view : list byte → Z * nat → Prop :=
| dv_ascii p0 t : b2z p0 < 0x80 → decode_view (p0 :: t) (b2z p0, 1%nat)
| dv_error p0 t : 0x80 ≤ b2z p0 → decode_view (p0 :: t) (RuneError, 1%nat)
| dv_two p0 b1 t :
    0xC2 ≤ b2z p0 < 0xE0 → 0x80 ≤ b2z b1 ≤ 0xBF →
    decode_view (p0 :: b1 :: t) (rune2 p0 b1, 2%nat)
| dv_three p0 b1 b2 t :
    lead3 (b2z p0) (b2z b1) → 0x80 ≤ b2z b2 ≤ 0xBF →
    decode_view (p0 :: b1 :: b2 :: t) (rune3 p0 b1 b2, 3%nat)
| dv_four p0 b1 b2 b3 t :
    lead4 (b2z p0) (b2z b1) → 0x80 ≤ b2z b2 ≤ 0xBF → 0x80 ≤ b2z b3 ≤ 0xBF →
    decode_view (p0 :: b1 :: b2 :: b3 :: t) (rune4 p0 b1 b2 b3, 4%nat).

End utf8.

(** * encoding/json *)

Module json.

(** Character codes the scanner tests for. *)
Abbreviation c_quote := 0x22 (only parsing).
Abbreviation c_bslash := 0x5C (only parsing).
Abbreviation c_slash := 0x2F (only parsing).
Abbreviation c_lbrace := 0x7B (only parsing).
Abbreviation c_rbrace := 0x7D (only parsing).
Abbreviation c_lbrack := 0x5B (only parsing).
Abbreviation c_rbrack := 0x5D (only parsing).
Abbreviation c_comma := 0x2C (only parsing).
Abbreviation c_colon := 0x3A (only parsing).
Abbreviation c_minus := 0x2D (only parsing).
Abbreviation c_plus := 0x2B (only parsing).
Abbreviation c_dot := 0x2E (only parsing).

Definition quote : byte := x22.
Definition bslash : byte := x5c.

(** A number literal, kept as the scanner read it (sign, integer digits,
    fraction digits, exponent sign and digits). *)
Record numlit := {
  neg : bool;
  ipart : list byte;
  fpart : list byte;
  eneg : bool;
  epart : list byte
}.

(** A decoded JSON text.  An object keeps its members in document order,
    duplicates included. *)
#[local] Unset Elimination Schemes.
Inductive t :=
| Null
| Bool (b : bool)
| Number (n : numlit)
| String (s : string)
| Array (xs : list t)
| Object (kvs : list (string * t)).
#[local] Set Elimination Schemes.

(** ** Strings: the encoder *)

(** [htmlSafeSet]: the ASCII characters written without an escape when
    [escapeHTML] is set, as it is for [json.Marshal]. *)
Definition htmlSafe (c : Z) : bool :=
  (0x20 <=? c) && (c <? 0x80) &&
  negb ((c =? c_quote) || (c =? 0x26) || (c =? 0x3C) || (c =? 0x3E) || (c =? c_bslash)).

Definition hex (n : Z) : byte :=
  nth (Z.to_nat n) (bytes_of_string "0123456789abcdef") x00.

Definition escape (b : byte) : list byte :=
  let c := b2z b in
  if (c =? c_bslash) || (c =? c_quote) then [bslash; b]
  else if c =? 0x08 then [bslash; "b"%byte]
  else if c =? 0x0C then [bslash; "f"%byte]
  else if c =? 0x0A then [bslash; "n"%byte]
  else if c =? 0x0D then [bslash; "r"%byte]
  else if c =? 0x09 then [bslash; "t"%byte]
  else [bslash; "u"%byte; "0"%byte; "0"%byte; hex (Z.shiftr c 4); hex (Z.land c 0xF)].

(** The loop of [appendString] over the bytes of the source.  [skip] counts
    the bytes of the rune just written that the index still steps over
    ([i += size]). *)
Fixpoint quote_from (skip : nat) (p : list byte) : list byte :=
  match p with
  | [] => []
  | b :: rest =>
    match skip with
    | S k => quote_from k rest
    | O =>
      if b2z b <? utf8.RuneSelf then
        (if htmlSafe (b2z b) then [b] else escape b) ++ quote_from 0 rest
      else
        let d := utf8.DecodeRune p in
        if utf8.is_error d then
          bslash :: bytes_of_string "ufffd" ++ quote_from 0 rest
        else if (fst d =? 0x2028) || (fst d =? 0x2029) then
          bslash :: bytes_of_string "u202" ++ hex (Z.land (fst d) 0xF)
                 :: quote_from (pred (snd d)) rest
        else
          firstn (snd d) p ++ quote_from (pred (snd d)) rest
    end
  end.

Definition appendString (s : string) : list byte :=
  quote :: quote_from 0 (bytes_of_string s) ++ [quote].

(** ** Strings: the decoder *)

Definition hexval (b : byte) : option Z :=
  let c := b2z b in
  if (0x30 <=? c) && (c <=? 0x39) then Some (c - 0x30)
  else if (0x61 <=? c) && (c <=? 0x66) then Some (c - 0x61 + 10)
  else if (0x41 <=? c) && (c <=? 0x46) then Some (c - 0x41 + 10)
  else None.

(** [getu4 s]: the code unit of an escape [\uXXXX] at the head of [s]. *)
Definition getu4 (s : list byte) : option Z :=
  match s with
  | b0 :: b1 :: h0 :: h1 :: h2 :: h3 :: _ =>
    if (b2z b0 =? c_bslash) && (b2z b1 =? 0x75) then
      match hexval h0, hexval h1, hexval h2, hexval h3 with
      | Some a, Some b, Some c, Some d => Some (((a * 16 + b) * 16 + c) * 16 + d)
      | _, _, _, _ => None
      end
    else None
  | _ => None
  end.

(** [unicode/utf16]. *)
Definition IsSurrogate (r : Z) : bool := (0xD800 <=? r) && (r <? 0xE000).

Definition utf16_DecodeRune (r1 r2 : Z) : Z :=
  if (0xD800 <=? r1) && (r1 <? 0xDC00) && (0xDC00 <=? r2) && (r2 <? 0xE000)
  then Z.lor (Z.shiftl (r1 - 0xD800) 10) (r2 - 0xDC00) + 0x10000
  else utf8.RuneError.

Definition simple_escape (c : Z) : option byte :=
  if (c =? c_quote) then Some quote
  else if (c =? c_bslash) then Some bslash
  else if (c =? c_slash) then Some "/"%byte
  else if c =? 0x62 then Some x08
  else if c =? 0x66 then Some x0c
  else if c =? 0x6E then Some x0a
  else if c =? 0x72 then Some x0d
  else if c =? 0x74 then Some x09
  else None.

Definition prepend (out : list byte) (r : option (list byte * list byte))
  : option (list byte * list byte) :=
  match r with
  | Some (s, rest) => Some (out ++ s, rest)
  | None => None
  end.

(** The body of a string literal, after its opening quote: the scanner's
    check (no control character, only the escapes of the grammar) and
    [unquote] in one pass.  The result is the decoded text and the input
    after the closing quote.  [skip] counts bytes of the current escape or
    rune still to step over. *)
Fixpoint string_body (skip : nat) (p : list byte) : option (list byte * list byte) :=
  match p with
  | [] => None
  | b :: rest =>
    match skip with
    | S k => string_body k rest
    | O =>
      let c := b2z b in
      if c =? c_quote then Some ([], rest)
      else if c =? c_bslash then
        match rest with
        | [] => None
        | e :: _ =>
          match simple_escape (b2z e) with
          | Some o => prepend [o] (string_body 1 rest)
          | None =>
            if b2z e =? 0x75 then
              match getu4 p with
              | None => None
              | Some rr =>
                if IsSurrogate rr then
                  let dec :=
                    match getu4 (skipn 6 p) with
                    | Some rr1 => utf16_DecodeRune rr rr1
                    | None => utf8.RuneError
                    end in
                  if dec =? utf8.RuneError
                  then prepend (utf8.EncodeRune utf8.RuneError) (string_body 5 rest)
                  else prepend (utf8.EncodeRune dec) (string_body 11 rest)
                else prepend (utf8.EncodeRune rr) (string_body 5 rest)
              end
            else None
          end
        end
      else if c <? 0x20 then None
      else if c <? utf8.RuneSelf then prepend [b] (string_body 0 rest)
      else
        let d := utf8.DecodeRune p in
        prepend (utf8.EncodeRune (fst d)) (string_body (pred (snd d)) rest)
    end
  end.


(** ** The scanner and the decoder *)

Definition isSpace (c : Z) : bool :=
  (c =? 0x20) || (c =? 0x09) || (c =? 0x0D) || (c =? 0x0A).

Fixpoint skip_ws (s : list byte) : list byte :=
  match s with
  | b :: rest => if isSpace (b2z b) then skip_ws rest else s
  | [] => []
  end.

Definition isDigit (c : Z) : bool := (0x30 <=? c) && (c <=? 0x39).

(** The longest prefix of digits, and what follows it. *)
Fixpoint span_digits (s : list byte) : list byte * list byte :=
  match s with
  | b :: rest =>
    if isDigit (b2z b) then
      let '(ds, r) := span_digits rest in (b :: ds, r)
    else ([], s)
  | [] => ([], [])
  end.

(** The exponent of a number: [e] or [E], an optional sign, one digit at
    least. *)
Definition exponent (s : list byte) : option (bool * list byte * list byte) :=
  match s with
  | b :: rest =>
    if (b2z b =? 0x65) || (b2z b =? 0x45) then
      let '(sg, r1) :=
        match rest with
        | g :: r =>
          if b2z g =? c_minus then (true, r)
          else if b2z g =? c_plus then (false, r)
          else (false, rest)
        | [] => (false, rest)
        end in
      match span_digits r1 with
      | ([], _) => None
      | (ds, r2) => Some (sg, ds, r2)
      end
    else Some (false, [], s)
  | [] => Some (false, [], s)
  end.

Definition fraction (s : list byte) : option (list byte * list byte) :=
  match s with
  | b :: rest =>
    if b2z b =? c_dot then
      match span_digits rest with
      | ([], _) => None
      | (ds, r) => Some (ds, r)
      end
    else Some ([], s)
  | [] => Some ([], s)
  end.

(** A number: an optional minus sign; a zero, or a digit from 1 to 9 and
    more digits; an optional fraction; an optional exponent. *)
Definition number (s : list byte) : option (numlit * list byte) :=
  let '(sg, s1) :=
    match s with
    | b :: rest => if b2z b =? c_minus then (true, rest) else (false, s)
    | [] => (false, s)
    end in
  match s1 with
  | d :: rest =>
    if isDigit (b2z d) then
      let '(ds, r1) := if b2z d =? 0x30 then ([], rest) else span_digits rest in
      match fraction r1 with
      | None => None
      | Some (fs, r2) =>
        match exponent r2 with
        | None => None
        | Some (esg, es, r3) =>
          Some ({| neg := sg; ipart := d :: ds; fpart := fs; eneg := esg; epart := es |}, r3)
        end
      end
    else None
  | [] => None
  end.

(** The literals [true], [false] and [null]. *)
Fixpoint strip_prefix (n s : list byte) : option (list byte) :=
  match n with
  | [] => Some s
  | a :: n' =>
    match s with
    | b :: s' => if b2z a =? b2z b then strip_prefix n' s' else None
    | [] => None
    end
  end.

Definition literal (name : string) (v : t) (s : list byte) : option (t * list byte) :=
  option_map (λ r, (v, r)) (strip_prefix (bytes_of_string name) s).

(** The scanner refuses a text nested deeper than this. *)
Definition maxNestingDepth : N := 10000.

(** One JSON value at the head of [s], leading white space skipped, and the
    input after it.  [depth] is the number of arrays and objects open
    around the value.  [fuel] bounds the recursion; a value of [n] bytes
    needs no more than [n + 1] (see [parse]). *)
Fixpoint value (fuel : nat) (depth : N) (s : list byte) {struct fuel}
  : option (t * list byte) :=
  match fuel with
  | O => None
  | S f =>
    match skip_ws s with
    | [] => None
    | b :: rest =>
      let c := b2z b in
      if c =? c_lbrace then
        if (maxNestingDepth <? depth + 1)%N then None
        else
          match skip_ws rest with
          | e :: rest' =>
            if b2z e =? c_rbrace then Some (Object [], rest')
            else option_map (λ r, (Object (fst r), snd r)) (members f (depth + 1)%N rest)
          | [] => None
          end
      else if c =? c_lbrack then
        if (maxNestingDepth <? depth + 1)%N then None
        else
          match skip_ws rest with
          | e :: rest' =>
            if b2z e =? c_rbrack then Some (Array [], rest')
            else option_map (λ r, (Array (fst r), snd r)) (elements f (depth + 1)%N rest)
          | [] => None
          end
      else if c =? c_quote then
        option_map (λ r, (String (string_of_bytes (fst r)), snd r)) (string_body 0 rest)
      else if c =? 0x74 then literal "true" (Bool true) (b :: rest)
      else if c =? 0x66 then literal "false" (Bool false) (b :: rest)
      else if c =? 0x6E then literal "null" Null (b :: rest)
      else option_map (λ r, (Number (fst r), snd r)) (number (b :: rest))
    end
  end

(** The values of an array after its opening bracket, up to and with the
    closing one. *)
with elements (fuel : nat) (depth : N) (s : list byte) {struct fuel}
  : option (list t * list byte) :=
  match fuel with
  | O => None
  | S f =>
    match value f depth s with
    | None => None
    | Some (v, r) =>
      match skip_ws r with
      | e :: r' =>
        if b2z e =? c_comma then
          option_map (λ x, (v :: fst x, snd x)) (elements f depth r')
        else if b2z e =? c_rbrack then Some ([v], r')
        else None
      | [] => None
      end
    end
  end

(** The members of an object after its opening brace, up to and with the
    closing one. *)
with members (fuel : nat) (depth : N) (s : list byte) {struct fuel}
  : option (list (string * t) * list byte) :=
  match fuel with
  | O => None
  | S f =>
    match skip_ws s with
    | q :: r0 =>
      if b2z q =? c_quote then
        match string_body 0 r0 with
        | None => None
        | Some (k, r1) =>
          match skip_ws r1 with
          | c :: r2 =>
            if b2z c =? c_colon then
              match value f depth r2 with
              | None => None
              | Some (v, r3) =>
                match skip_ws r3 with
                | e :: r4 =>
                  if b2z e =? c_comma then
                    option_map (λ x, ((string_of_bytes k, v) :: fst x, snd x))
                               (members f depth r4)
                  else if b2z e =? c_rbrace then Some ([(string_of_bytes k, v)], r4)
                  else None
                | [] => None
                end
              end
            else None
          | [] => None
          end
        end
      else None
    | [] => None
    end
  end.

(** [checkValid] and the decoding of the whole text: one value, white
    space around it, nothing else. *)
Definition parse (data : list byte) : option t :=
  match value (S (length data)) 0 data with
  | Some (v, r) => match skip_ws r with [] => Some v | _ :: _ => None end
  | None => None
  end.

(** ** Unmarshal *)

Inductive error :=
| SyntaxError
| UnmarshalTypeError (value : string).

Fixpoint digits_val (acc : Z) (ds : list byte) : Z :=
  match ds with
  | [] => acc
  | d :: rest => digits_val (acc * 10 + (b2z d - 0x30)) rest
  end.

(** [strconv.ParseFloat(s, 64)] reports a range error when the number
    rounds to an infinity: when its magnitude reaches the midpoint between
    the largest finite float64, [2^1024 - 2^971], and [2^1024]. *)
Definition float64_overflows (n : numlit) : bool :=
  let m := digits_val 0 (ipart n ++ fpart n) in
  let e := (if eneg n then - digits_val 0 (epart n) else digits_val 0 (epart n))
           - Z.of_nat (length (fpart n)) in
  let limit := 2 ^ 1024 - 2 ^ 970 in
  if m =? 0 then false
  else if 0 <=? e then limit <=? m * 10 ^ e
  else limit * 10 ^ (- e) <=? m.

(** Storing a value into an [interface{}]: every value fits, but for a
    number out of the range of float64. *)
Fixpoint interface_ok (v : t) : bool :=
  match v with
  | Number n => negb (float64_overflows n)
  | Array xs => forallb interface_ok xs
  | Object kvs => forallb (λ kv, interface_ok (snd kv)) kvs
  | _ => true
  end.

Definition kind_name (v : t) : string :=
  match v with
  | Null => "null"
  | Bool _ => "bool"
  | Number _ => "number"
  | String _ => "string"
  | Array _ => "array"
  | Object _ => "object"
  end.

(** [json.Unmarshal(data, &m)] for [m] of type [map[string]interface{}]:
    the error it returns, [None] for [nil].  The literal [null] leaves the
    map as it is and is no error. *)
Definition Unmarshal_object (data : list byte) : option error :=
  match parse data with
  | None => Some SyntaxError
  | Some Null => None
  | Some (Object kvs) =>
    if forallb (λ kv, interface_ok (snd kv)) kvs then None
    else Some (UnmarshalTypeError "number")
  | Some v => Some (UnmarshalTypeError (kind_name v))
  end.

(** Storing a value into a Go [string]: a string is stored, [null] leaves
    the zero value, anything else is a type error. *)
Definition string_elem (v : t) : error + string :=
  match v with
  | String s => inr s
  | Null => inr EmptyString
  | _ => inl (UnmarshalTypeError (kind_name v))
  end.

Fixpoint string_elems (xs : list t) : error + list string :=
  match xs with
  | [] => inr []
  | v :: rest =>
    match string_elem v, string_elems rest with
    | inr s, inr ss => inr (s :: ss)
    | inl e, _ => inl e
    | _, inl e => inl e
    end
  end.

(** Storing a value into a nil [[]string]: the error, or the slice
    ([None] is the nil slice, which [null] leaves). *)
Definition decode_strings (v : t) : error + option (list string) :=
  match v with
  | Null => inr None
  | Array xs =>
    match string_elems xs with
    | inr ss => inr (Some ss)
    | inl e => inl e
    end
  | _ => inl (UnmarshalTypeError (kind_name v))
  end.

(** [json.Unmarshal(data, &x)] for a nil [x] of type [[]string]. *)
Definition Unmarshal_strings (data : list byte) : error + option (list string) :=
  match parse data with
  | None => inl SyntaxError
  | Some v => decode_strings v
  end.

Fixpoint string_members (kvs : list (string * t)) (m : gmap string string)
  : error + gmap string string :=
  match kvs with
  | [] => inr m
  | (k, v) :: rest =>
    match string_elem v with
    | inr s => string_members rest (<[k := s]> m)
    | inl e => inl e
    end
  end.

(** Storing a value into a nil [map[string]string]; a key written twice
    keeps its last value. *)
Definition decode_string_map (v : t) : error + option (gmap string string) :=
  match v with
  | Null => inr None
  | Object kvs =>
    match string_members kvs ∅ with
    | inr m => inr (Some m)
    | inl e => inl e
    end
  | _ => inl (UnmarshalTypeError (kind_name v))
  end.

(** [json.Unmarshal(data, &x)] for a nil [x] of type [map[string]string]. *)
Definition Unmarshal_string_map (data : list byte) : error + option (gmap string string) :=
  match parse data with
  | None => inl SyntaxError
  | Some v => decode_string_map v
  end.

(** ** Marshal *)

Fixpoint join (sep : list byte) (parts : list (list byte)) : list byte :=
  match parts with
  | [] => []
  | [x] => x
  | x :: rest => x ++ sep ++ join sep rest
  end.

(** A [[]string]: [null] for the nil slice. *)
Definition marshal_strings (xs : option (list string)) : list byte :=
  match xs with
  | None => bytes_of_string "null"
  | Some l => "["%byte :: join [","%byte] (map appendString l) ++ ["]"%byte]
  end.

Definition key_le (a b : string * string) : Prop := String.leb (fst a) (fst b) = true.

#[global] Instance key_le_dec a b : Decision (key_le a b).
Proof. unfold key_le. apply _. Defined.

Definition member (kv : string * string) : list byte :=
  appendString (fst kv) ++ ":"%byte :: appendString (snd kv).

(** A [map[string]string]: [null] for the nil map, and the members sorted
    by key otherwise. *)
Definition marshal_string_map (m : option (gmap string string)) : list byte :=
  match m with
  | None => bytes_of_string "null"
  | Some m =>
    "{"%byte :: join [","%byte] (map member (merge_sort key_le (map_to_list m)))
             ++ ["}"%byte]
  end.

(** A struct: the fields in the order of their declaration, each under the
    name of its tag. *)
Definition marshal_struct (fields : list (string * list byte)) : list byte :=
  "{"%byte :: join [","%byte] (map (λ f, appendString (fst f) ++ ":"%byte :: snd f) fields)
           ++ ["}"%byte].

(** ** What a text reads back as *)

(** A byte that a string literal holds as it is. *)
Definition plain (b : byte) : Prop :=
  0x20 ≤ b2z b < 0x80 ∧ b2z b ≠ c_quote ∧ b2z b ≠ c_bslash.

(** The text [bs] at the head of any input reads as the value [v], with
    fuel [n] or more. *)
Definition reads (n : nat) (d : N) (bs : list byte) (v : t) : Prop :=
  ∀ f rest, (n ≤ f)%nat → value f d (bs ++ rest) = Some (v, rest).

(** The trees of a [[]string] and of a [map[string]string] as [Marshal]
    writes them. *)
Definition json_of_strings (xs : option (list string)) : t :=
  match xs with
  | None => Null
  | Some l => Array (map (λ s, String (utf8.coerce s)) l)
  end.

Definition json_of_string_map (m : option (gmap string string)) : t :=
  match m with
  | None => Null
  | Some m =>
    Object (map (λ kv, (utf8.coerce (fst kv), String (utf8.coerce (snd kv))))
                (merge_sort key_le (map_to_list m)))
  end.

Definition map_size (m : option (gmap string string)) : nat :=
  match m with
  | Some m => length (map_to_list m)
  | None => 0
  end.

Definition valid_pair (kv : string * string) : Prop :=
  utf8.ValidString (fst kv) = true ∧ utf8.ValidString (snd kv) = true.

(** Every string of a tree is valid UTF-8. *)
Fixpoint valid_tree (v : t) : bool :=
  match v with
  | String s => utf8.ValidString s
  | Array xs => forallb valid_tree xs
  | Object kvs => forallb (λ kv, utf8.ValidString (fst kv) && valid_tree (snd kv)) kvs
  | _ => true
  end.

End json.

(** * time *)

Module time.

(** A clock reading, as [Time.Date], [Time.Clock], [Time.Nanosecond] and
    [Time.Zone] present it; [offset] is in seconds east of UTC. *)
Record Time := {
  year : Z;
  month : Z;
  day : Z;
  hour : Z;
  minute : Z;
  second : Z;
  nanosecond : Z;
  offset : Z
}.

Definition digit (d : Z) : byte := z2b (0x30 + d).

(** The decimal digits of a natural number, most significant first. *)
Fixpoint decimal (fuel : nat) (u : Z) : list byte :=
  match fuel with
  | O => [digit (u mod 10)]
  | S f => if u <? 10 then [digit (u mod 10)] else decimal f (u / 10) ++ [digit (u mod 10)]
  end.

(** [appendInt]: a sign for a negative number, then the digits padded with
    zeros to [width]. *)
Definition appendInt (x : Z) (width : nat) : list byte :=
  let u := Z.abs x in
  let ds := decimal (Z.to_nat (Z.log2 u)) u in
  (if x <? 0 then ["-"%byte] else [])
    ++ repeat "0"%byte (width - length ds) ++ ds.

Fixpoint drop_zeros (rev_ds : list byte) : list byte :=
  match rev_ds with
  | d :: rest => if b2z d =? 0x30 then drop_zeros rest else rev_ds
  | [] => []
  end.

(** The fraction [.999999999] of the layout: nothing for a whole second,
    else the nanoseconds on nine digits without the zeros at the end. *)
Definition appendNano (ns : Z) : list byte :=
  if ns =? 0 then []
  else "."%byte :: rev (drop_zeros (rev (appendInt ns 9))).

(** The zone [Z07:00] of the layout. *)
Definition appendZone (off : Z) : list byte :=
  if off =? 0 then ["Z"%byte]
  else
    let zone := Z.quot off 60 in
    (if zone <? 0 then ["-"%byte] else ["+"%byte])
      ++ appendInt (Z.quot (Z.abs zone) 60) 2 ++ ":"%byte
      :: appendInt (Z.rem (Z.abs zone) 60) 2.

(** [t.AppendFormat(b, time.RFC3339Nano)]. *)
Definition format_RFC3339Nano (t : Time) : list byte :=
  appendInt (year t) 4 ++ "-"%byte :: appendInt (month t) 2 ++ "-"%byte
    :: appendInt (day t) 2 ++ "T"%byte :: appendInt (hour t) 2 ++ ":"%byte
    :: appendInt (minute t) 2 ++ ":"%byte :: appendInt (second t) 2
    ++ appendNano (nanosecond t) ++ appendZone (offset t).

(** A time that RFC 3339 can write: a year of four digits and a zone less
    than a day away from UTC. *)
Definition writable (t : Time) : bool :=
  negb ((year t <? 0) || (10000 <=? year t))
  && ((offset t =? 0) || (Z.quot (Z.abs (Z.quot (offset t) 60)) 60 <? 24)).

(** [Time.MarshalJSON]: the quoted RFC 3339 text, or an error. *)
Definition MarshalJSON (t : Time) : option (list byte) :=
  if writable t then Some (json.quote :: format_RFC3339Nano t ++ [json.quote])
  else None.

End time.

(** * bufio *)

Module bufio.

(** The largest buffer of a [Scanner]: [64 * 1024] bytes. *)
Definition MaxScanTokenSize : nat := Z.to_nat (64 * 1024).

(** [bytes.IndexByte]: the index of the first [c] in [data]. *)
Fixpoint IndexByte (data : list byte) (c : Z) : option nat :=
  match data with
  | [] => None
  | b :: rest => if b2z b =? c then Some 0%nat else S <$> IndexByte rest c
  end.

(** [dropCR]: the data without a carriage return at its end. *)
Definition dropCR (data : list byte) : list byte :=
  match last data with
  | Some b => if b2z b =? 0x0D then take (length data - 1) data else data
  | None => data
  end.

(** [ScanLines], the split function of a new [Scanner]: how far to
    advance, and the token, if there is one in [data]. *)
Definition ScanLines (data : list byte) (atEOF : bool) : nat * option (list byte) :=
  if atEOF && (length data =? 0)%nat then (0%nat, None)
  else
    match IndexByte data 0x0A with
    | Some i => ((i + 1)%nat, Some (dropCR (take i data)))
    | None => if atEOF then (length data, Some (dropCR data)) else (0%nat, None)
    end.

(** One call of [Scan], on a scanner whose reader has [rest] still to
    give, what is in the buffer included: the token and what is left, or
    [None] when [Scan] returns false.  The split function sees what the
    buffer can hold of [rest], and it is told of the end of the input when
    the reader has given everything and the buffer is not full; a buffer
    of [maxTokenSize] bytes that is full without a token is the error
    [ErrTooLong]. *)
Definition Scan (maxTokenSize : nat) (rest : list byte)
  : option (list byte * list byte) :=
  let atEOF := (length rest <? maxTokenSize)%nat in
  match ScanLines (take maxTokenSize rest) atEOF with
  | (advance, Some token) => Some (token, drop advance rest)
  | (_, None) => None
  end.

(** [for scanner.Scan() { ... scanner.Text() ... }]: the texts of the
    tokens, until [Scan] returns false. *)
Fixpoint tokens (maxTokenSize fuel : nat) (rest : list byte) : list string :=
  match fuel with
  | O => []
  | S f =>
    match Scan maxTokenSize rest with
    | Some (token, rest') => string_of_bytes token :: tokens maxTokenSize f rest'
    | None => []
    end
  end.

(** The lines that the read loop of [main] takes, with the scanner that
    [NewScanner] makes, from what the child writes to its standard
    error. *)
Definition lines (stream : list byte) : list string :=
  tokens MaxScanTokenSize (length stream) stream.

(** A line as it is written: its bytes, then a line feed. *)
Definition newline : byte := x0a.

Definition written (ls : list (list byte)) : list byte :=
  flat_map (λ l, l ++ [newline]) ls.

End bufio.

(** * syscall *)

Module syscall.

Definition SIGHUP : Z := 1.
Definition SIGINT : Z := 2.
Definition SIGKILL : Z := 9.
Definition SIGTERM : Z := 15.

(** A process the caller may signal: its identifier and its group. *)
Record proc := { p_pid : Z; p_pgid : Z }.

(** kill(2): the processes that [Kill(pid, sig)] signals when [self] calls
    it.  A positive [pid] names one process, zero the caller's group, [-1]
    every process but process 1 and the caller, and any other negative
    number the group of that number. *)
Definition Kill_targets (self : proc) (procs : list proc) (pid : Z) : list Z :=
  let hit (p : proc) : bool :=
    if 0 <? pid then p_pid p =? pid
    else if pid =? 0 then p_pgid p =? p_pgid self
    else if pid =? -1 then negb (p_pid p =? 1) && negb (p_pid p =? p_pid self)
    else p_pgid p =? - pid in
  map p_pid (filter (λ p, hit p = true) procs).

End syscall.

(** * What the supervisor does to the outside *)

(** Go's [error]: its message. *)
Definition error : Type := string.

(** The lines the supervisor writes to its own log. *)
Inductive log_line :=
| LogInitializing
| LogConfiguredEmitter (name : string)
| LogSignalReceived (sig : Z)
| LogSendingSignal (pid : Z)
| LogTriggeringShutdown
| LogCleanupError (err : error)
| LogEmitError (record : list byte) (err : error)
| LogFatal (msg : string).

Inductive event :=
| EvLog (l : log_line)
| EvReap
| EvSetup
| EvStart (bin : string) (args : list string)
| EvHandleLogMessage (record : list byte)
| EvKill (pid sig : Z)
| EvCleanup.

(** The records handed to [HandleLogMessage], in the order of the events. *)
Definition records (evs : list event) : list (list byte) :=
  omap (λ e, match e with EvHandleLogMessage r => Some r | _ => None end) evs.

(** * logging/emit.go *)

Module logging.

Definition defaultEcsVersion : string := "1.5.0".

(** The package variables [defaultTags] and [defaultLabels]; [None] is the
    nil slice and the nil map. *)
Record defaults := {
  defaultTags : option (list string);
  defaultLabels : option (gmap string string)
}.

Inductive init_result :=
| Loaded (d : defaults)
| Fatal (msg : string).

(** [init]: [environ] is the environment of the process, as
    [os.LookupEnv] reads it. *)
Definition init (environ : gmap string string) : init_result :=
  let tagsFromEnv :=
    match environ !! "HABERDASHER_TAGS"%string with
    | Some v => v
    | None => "[]"%string
    end in
  let labelsFromEnv :=
    match environ !! "HABERDASHER_LABELS"%string with
    | Some v => v
    | None => "{}"%string
    end in
  match json.Unmarshal_strings (bytes_of_string tagsFromEnv) with
  | inl _ => Fatal "HABERDASHER_TAGS must be a JSON array of strings"
  | inr tags =>
    match json.Unmarshal_string_map (bytes_of_string labelsFromEnv) with
    | inl _ => Fatal "HABERDASHER_LABELS must be a JSON object of strings"
    | inr labels => Loaded {| defaultTags := tags; defaultLabels := labels |}
    end
  end.

(** The interface [Emitter], over the state [St] of the sinks. *)
Record Emitter (St : Type) := {
  Setup : St → St;
  HandleLogMessage : list byte → St → St * option error;
  Cleanup : St → St * option error
}.
Arguments Setup {St} _ _.
Arguments HandleLogMessage {St} _ _ _.
Arguments Cleanup {St} _ _.

Record Message := {
  ECSVersion : string;
  Timestamp : time.Time;
  Labels : option (gmap string string);
  Tags : option (list string);
  Message_ : string
}.

(** [json.Marshal(m)] for a [Message]; [None] is an error. *)
Definition Marshal (m : Message) : option (list byte) :=
  match time.MarshalJSON (Timestamp m) with
  | None => None
  | Some ts =>
    Some (json.marshal_struct
            [ ("ecs.version"%string, json.appendString (ECSVersion m));
              ("@timestamp"%string, ts);
              ("labels"%string, json.marshal_string_map (Labels m));
              ("tags"%string, json.marshal_strings (Tags m));
              ("message"%string, json.appendString (Message_ m)) ])
  end.

(** The tree that the JSON text of an envelope reads back as. *)
Definition envelope_tree (m : Message) : json.t :=
  json.Object
    [ ("ecs.version"%string, json.String (utf8.coerce (ECSVersion m)));
      ("@timestamp"%string,
       json.String (string_of_bytes (time.format_RFC3339Nano (Timestamp m))));
      ("labels"%string, json.json_of_string_map (Labels m));
      ("tags"%string, json.json_of_strings (Tags m));
      ("message"%string, json.String (utf8.coerce (Message_ m))) ].

(** [Register], on the registry [Emitters]. *)
Definition Register {St} (emitterType : string) (emitter : Emitter St)
           (Emitters : gmap string (Emitter St)) : gmap string (Emitter St) :=
  <[emitterType := emitter]> Emitters.

(** Lines 71 and 72 of [Emit]: the envelope around a line, and its JSON
    text; [now] is what [time.Now()] returns.  The error of [json.Marshal]
    is dropped and leaves the nil slice. *)
Definition envelope (d : defaults) (now : time.Time) (logMessage : string) : Message :=
  {| ECSVersion := defaultEcsVersion; Timestamp := now;
     Labels := defaultLabels d; Tags := defaultTags d;
     Message_ := logMessage |}.

Definition wrap (d : defaults) (now : time.Time) (logMessage : string) : list byte :=
  match Marshal (envelope d now logMessage) with
  | Some b => b
  | None => []
  end.

(** The value of [messageToEmit] when [Emit] hands it to the emitter. *)
Definition messageToEmit (d : defaults) (now : time.Time) (logMessage : string)
  : list byte :=
  let raw := bytes_of_string logMessage in
  match json.Unmarshal_object raw with
  | Some _ => wrap d now logMessage
  | None => raw
  end.

Definition Emit {St} (d : defaults) (emitter : Emitter St) (now : time.Time)
           (logMessage : string) (sink : St) : St * list event :=
  let record := messageToEmit d now logMessage in
  match HandleLogMessage emitter record sink with
  | (sink', Some err) =>
    (sink', [EvHandleLogMessage record; EvLog (LogEmitError record err)])
  | (sink', None) => (sink', [EvHandleLogMessage record])
  end.

End logging.

(** * main.go *)

Module main.
Import logging.

Inductive status :=
| Running
| Exited (code : Z)
| Panicked
| Killed (sig : Z).

(** The switch of [signalHandler]; [signalToSendChild] is [SIGHUP] when no
    case matches. *)
Definition signalToSendChild (signalReceived : Z) : Z :=
  if signalReceived =? syscall.SIGHUP then syscall.SIGHUP
  else if signalReceived =? syscall.SIGINT then syscall.SIGINT
  else if signalReceived =? syscall.SIGTERM then syscall.SIGTERM
  else if signalReceived =? syscall.SIGKILL then syscall.SIGKILL
  else syscall.SIGHUP.

(** [signalHandler], from the signal it receives on [signalChan] to
    [os.Exit(0)]: the state of the sink, what it did, and how the process
    ends.  [pid] is the value of [*pid] when it is read; a nil [emitter]
    panics at [emitter.Cleanup()]. *)
Definition signalHandler {St} (pid : Z) (emitter : option (Emitter St))
           (signalReceived : Z) (sink : St) : St * list event * status :=
  let relay :=
    [ EvLog (LogSignalReceived signalReceived);
      EvLog (LogSendingSignal pid);
      EvKill pid (signalToSendChild signalReceived);
      EvLog LogTriggeringShutdown ] in
  match emitter with
  | None => (sink, relay, Panicked)
  | Some e =>
    match Cleanup e sink with
    | (sink', Some err) =>
      (sink', relay ++ [EvCleanup; EvLog (LogCleanupError err)], Exited 0)
    | (sink', None) => (sink', relay ++ [EvCleanup], Exited 0)
    end
  end.

(** How [subcmd.StderrPipe()] and [subcmd.Start()] turn out, and for a
    child that starts, its process and the lines the scanner will read from
    its standard error. *)
Inductive spawn_result :=
| PipeFailed (err : error)
| StartFailed (err : error)
| Started (child : syscall.proc) (lines : list string).

(** What a run of the supervisor is given. *)
Record config (St : Type) := {
  environ : gmap string string;
  Args : list string;
  Emitters : gmap string (Emitter St);
  self : syscall.proc;
  others : list syscall.proc;
  spawn : spawn_result
}.
Arguments environ {St} _.
Arguments Args {St} _.
Arguments Emitters {St} _.
Arguments self {St} _.
Arguments others {St} _.
Arguments spawn {St} _.

(** Where the main goroutine stands. *)
Inductive main_pc :=
| AtBegin            (* line 44 *)
| AtSetup            (* line 65 *)
| AtSpawn            (* line 67 *)
| AtRecordPid (child : syscall.proc) (* line 81 *)
| AtScan             (* line 83 *)
| AtReturn.          (* line 88 *)

(** The state of the process and of what it acts on. *)
Record world (St : Type) := {
  state : status;
  pc : main_pc;
  subcmdPid : Z;
  notified : bool;              (* signal.Notify was called *)
  signalChan : option Z;        (* a channel of capacity 1 *)
  emitter : option (Emitter St);
  sink : St;
  input : list string;          (* lines the scanner has still to read *)
  token : string;               (* what scanner.Text() returns *)
  tasks : nat;                  (* goroutines of the read loop yet to run *)
  processes : list syscall.proc;
  signalled : list (Z * Z);     (* process and signal, latest first *)
  trace : list event            (* latest first *)
}.
Arguments state {St} _.
Arguments pc {St} _.
Arguments subcmdPid {St} _.
Arguments notified {St} _.
Arguments signalChan {St} _.
Arguments emitter {St} _.
Arguments sink {St} _.
Arguments input {St} _.
Arguments token {St} _.
Arguments tasks {St} _.
Arguments processes {St} _.
Arguments signalled {St} _.
Arguments trace {St} _.

Section Steps.
Context {St : Type}.
Implicit Types (w : world St) (c : config St).

Definition set_state (st : status) w : world St :=
  {| state := st; pc := pc w; subcmdPid := subcmdPid w; notified := notified w;
     signalChan := signalChan w; emitter := emitter w; sink := sink w;
     input := input w; token := token w; tasks := tasks w;
     processes := processes w; signalled := signalled w; trace := trace w |}.

Definition set_pc (p : main_pc) w : world St :=
  {| state := state w; pc := p; subcmdPid := subcmdPid w; notified := notified w;
     signalChan := signalChan w; emitter := emitter w; sink := sink w;
     input := input w; token := token w; tasks := tasks w;
     processes := processes w; signalled := signalled w; trace := trace w |}.

Definition set_sink (s : St) w : world St :=
  {| state := state w; pc := pc w; subcmdPid := subcmdPid w; notified := notified w;
     signalChan := signalChan w; emitter := emitter w; sink := s;
     input := input w; token := token w; tasks := tasks w;
     processes := processes w; signalled := signalled w; trace := trace w |}.

Definition set_signalChan (ch : option Z) w : world St :=
  {| state := state w; pc := pc w; subcmdPid := subcmdPid w; notified := notified w;
     signalChan := ch; emitter := emitter w; sink := sink w;
     input := input w; token := token w; tasks := tasks w;
     processes := processes w; signalled := signalled w; trace := trace w |}.

Definition set_tasks (n : nat) w : world St :=
  {| state := state w; pc := pc w; subcmdPid := subcmdPid w; notified := notified w;
     signalChan := signalChan w; emitter := emitter w; sink := sink w;
     input := input w; token := token w; tasks := n;
     processes := processes w; signalled := signalled w; trace := trace w |}.

(** Events are recorded latest first. *)
Definition record (evs : list event) w : world St :=
  {| state := state w; pc := pc w; subcmdPid := subcmdPid w; notified := notified w;
     signalChan := signalChan w; emitter := emitter w; sink := sink w;
     input := input w; token := token w; tasks := tasks w;
     processes := processes w; signalled := signalled w;
     trace := rev evs ++ trace w |}.

(** [log.Fatal]: the line, then [os.Exit(1)]. *)
Definition fatal (msg : string) w : world St :=
  set_state (Exited 1) (record [EvLog (LogFatal msg)] w).

(** Lines 44 to 62: the emitter is looked up, the reaper started,
    [subcmdPid] set to [-1], the signals registered and the handler
    started. *)
Definition begin c w : world St :=
  let emitterName :=
    match environ c !! "HABERDASHER_EMITTER"%string with
    | Some v => v
    | None => "stderr"%string
    end in
  {| state := state w; pc := AtSetup; subcmdPid := -1; notified := true;
     signalChan := signalChan w; emitter := Emitters c !! emitterName;
     sink := sink w; input := input w; token := token w; tasks := tasks w;
     processes := processes w; signalled := signalled w;
     trace := EvReap :: EvLog (LogConfiguredEmitter emitterName)
              :: EvLog LogInitializing :: trace w |}.

(** Line 65: [emitter.Setup()]; a nil emitter panics. *)
Definition setup w : world St :=
  match emitter w with
  | None => set_state Panicked w
  | Some e => set_pc AtSpawn (set_sink (Setup e (sink w)) (record [EvSetup] w))
  end.

(** Lines 67 to 80: [os.Args[1]] panics when there is no argument; an
    error of [StderrPipe] or [Start] is fatal. *)
Definition start c w : world St :=
  match Args c with
  | _ :: subcmdBin :: subcmdArgs =>
    match spawn c with
    | PipeFailed err => fatal err w
    | StartFailed err => fatal err w
    | Started child lines =>
      {| state := state w; pc := AtRecordPid child; subcmdPid := subcmdPid w;
         notified := notified w; signalChan := signalChan w;
         emitter := emitter w; sink := sink w; input := lines;
         token := token w; tasks := tasks w;
         processes := child :: processes w; signalled := signalled w;
         trace := EvStart subcmdBin subcmdArgs :: trace w |}
    end
  | _ => set_state Panicked w
  end.

(** Line 81. *)
Definition record_pid (child : syscall.proc) w : world St :=
  {| state := state w; pc := AtScan; subcmdPid := syscall.p_pid child;
     notified := notified w; signalChan := signalChan w; emitter := emitter w;
     sink := sink w; input := input w; token := token w; tasks := tasks w;
     processes := processes w; signalled := signalled w; trace := trace w |}.

(** Lines 83 to 87: [scanner.Scan()] reads the next line into the token
    and the loop body starts one goroutine; at the end of the stream the
    token is empty and the loop ends. *)
Definition scan w : world St :=
  match input w with
  | line :: rest =>
    {| state := state w; pc := AtScan; subcmdPid := subcmdPid w;
       notified := notified w; signalChan := signalChan w; emitter := emitter w;
       sink := sink w; input := rest; token := line; tasks := S (tasks w);
       processes := processes w; signalled := signalled w; trace := trace w |}
  | [] =>
    {| state := state w; pc := AtReturn; subcmdPid := subcmdPid w;
       notified := notified w; signalChan := signalChan w; emitter := emitter w;
       sink := sink w; input := []; token := EmptyString; tasks := tasks w;
       processes := processes w; signalled := signalled w; trace := trace w |}
  end.

(** The next statement of the main goroutine.  When [main] returns the
    process ends with status 0, whatever its goroutines were doing. *)
Definition main_step c w : world St :=
  match pc w with
  | AtBegin => begin c w
  | AtSetup => setup w
  | AtSpawn => start c w
  | AtRecordPid child => record_pid child w
  | AtScan => scan w
  | AtReturn => set_state (Exited 0) w
  end.

(** The goroutine of the read loop: [logging.Emit(emitter, scanner.Text())],
    the text being read when the goroutine runs. *)
Definition task_step (d : defaults) (now : time.Time) w : world St :=
  match tasks w, emitter w with
  | S n, Some e =>
    let '(sink', evs) := Emit d e now (token w) (sink w) in
    set_tasks n (set_sink sink' (record evs w))
  | _, _ => w
  end.

(** The goroutine [signalHandler], when a signal is in the channel. *)
Definition handler_step c w : world St :=
  match signalChan w with
  | Some sig =>
    let '(sink', evs, st) := signalHandler (subcmdPid w) (emitter w) sig (sink w) in
    let hits :=
      map (λ p, (p, signalToSendChild sig))
          (syscall.Kill_targets (self c) (processes w) (subcmdPid w)) in
    {| state := st; pc := pc w; subcmdPid := subcmdPid w; notified := notified w;
       signalChan := None; emitter := emitter w; sink := sink';
       input := input w; token := token w; tasks := tasks w;
       processes := processes w; signalled := rev hits ++ signalled w;
       trace := rev evs ++ trace w |}
  | None => w
  end.

(** A signal reaches the supervisor.  [SIGKILL] cannot be caught; the
    other three end the process until [signal.Notify] has registered
    them, and are put in the channel afterwards, or dropped when it is
    full.  Other signals are not modelled. *)
Definition signal_step (sig : Z) w : world St :=
  if sig =? syscall.SIGKILL then set_state (Killed sig) w
  else if (sig =? syscall.SIGHUP) || (sig =? syscall.SIGINT) || (sig =? syscall.SIGTERM) then
    if notified w then
      match signalChan w with
      | None => set_signalChan (Some sig) w
      | Some _ => w
      end
    else set_state (Killed sig) w
  else w.

(** What happens next: a choice of the scheduler, or of the world
    outside. *)
Inductive action :=
| RunMain
| RunTask (now : time.Time)
| RunHandler
| Signal (sig : Z).

Definition step c (d : defaults) (a : action) w : world St :=
  match state w with
  | Running =>
    match a with
    | RunMain => main_step c w
    | RunTask now => task_step d now w
    | RunHandler => handler_step c w
    | Signal sig => signal_step sig w
    end
  | _ => w
  end.

Definition run c (d : defaults) (sched : list action) w : world St :=
  fold_left (λ w a, step c d a w) sched w.

Definition boot c (s0 : St) : world St :=
  {| state := Running; pc := AtBegin; subcmdPid := 0; notified := false;
     signalChan := None; emitter := None; sink := s0; input := [];
     token := EmptyString; tasks := 0%nat; processes := others c;
     signalled := []; trace := [] |}.

(** The program: the [init] of package [logging], then [main] under the
    schedule [sched]. *)
Definition program c (s0 : St) (sched : list action) : world St :=
  match init (environ c) with
  | Fatal msg => fatal msg (boot c s0)
  | Loaded d => run c d sched (boot c s0)
  end.

(** The records handed to the sink, first to last. *)
Definition delivered w : list (list byte) := records (rev (trace w)).

End Steps.

End main.

(** * The words of the specification *)

Module spec.
Import logging main.

Definition is_string (v : json.t) : bool :=
  match v with
  | json.String _ => true
  | _ => false
  end.

Definition is_string_or_null (v : json.t) : bool :=
  match v with
  | json.String _ | json.Null => true
  | _ => false
  end.

(** "A JSON array of strings" and "a JSON object of string-to-string
    pairs". *)
Definition array_of_strings (data : list byte) : bool :=
  match json.parse data with
  | Some (json.Array xs) => forallb is_string xs
  | _ => false
  end.

Definition object_of_strings (data : list byte) : bool :=
  match json.parse data with
  | Some (json.Object kvs) => forallb (λ kv, is_string (snd kv)) kvs
  | _ => false
  end.

(** What the decoder takes without an error for a [[]string] and for a
    [map[string]string]: [null] as well, and [null] for a string. *)
Definition lenient_array (data : list byte) : bool :=
  match json.parse data with
  | Some json.Null => true
  | Some (json.Array xs) => forallb is_string_or_null xs
  | _ => false
  end.

Definition lenient_object (data : list byte) : bool :=
  match json.parse data with
  | Some json.Null => true
  | Some (json.Object kvs) => forallb (λ kv, is_string_or_null (snd kv)) kvs
  | _ => false
  end.

(** The values of the two variables of the environment, as [init] reads
    them. *)
Definition tags_text (environ : gmap string string) : list byte :=
  bytes_of_string
    match environ !! "HABERDASHER_TAGS"%string with
    | Some v => v
    | None => "[]"%string
    end.

Definition labels_text (environ : gmap string string) : list byte :=
  bytes_of_string
    match environ !! "HABERDASHER_LABELS"%string with
    | Some v => v
    | None => "{}"%string
    end.

(** What a run did besides writing to its log. *)
Fixpoint effects (evs : list event) : list event :=
  match evs with
  | [] => []
  | EvLog _ :: rest => effects rest
  | e :: rest => e :: effects rest
  end.

(** The four signals that [main] registers for. *)
Definition termination_signal (sig : Z) : Prop :=
  sig = syscall.SIGHUP ∨ sig = syscall.SIGINT ∨ sig = syscall.SIGTERM
  ∨ sig = syscall.SIGKILL.

(** "The child is never spawned and nothing is delivered." *)
Definition no_spawn_no_delivery (evs : list event) : Prop :=
  records evs = [] ∧ ∀ bin args, EvStart bin args ∉ evs.

(** A record that is "individually valid": a text the decoder accepts,
    passed through, or the envelope around some text. *)
Definition valid_record (d : defaults) (r : list byte) : Prop :=
  json.Unmarshal_object r = None ∨ ∃ now text, r = wrap d now text.

(** The lines the read loop has taken from the scanner so far. *)
Definition lines_read {St} (c : config St) (w : world St) : nat :=
  match spawn c, pc w with
  | Started _ lines, (AtScan | AtReturn) => length lines - length (input w)
  | _, _ => 0
  end.

(** What holds of every state of the supervisor, whatever the schedule:
    the records handed over are valid, there is one for every goroutine
    of the read loop that has run, and the scanner reads the lines of the
    child. *)
Definition read_loop_inv {St} (c : config St) (d : defaults) (w : world St) : Prop :=
  Forall (valid_record d) (delivered w)
  ∧ (length (delivered w) + tasks w)%nat = lines_read c w
  ∧ match pc w with
    | AtScan | AtReturn =>
      ∃ child lines, spawn c = Started child lines ∧ (length (input w) ≤ length lines)%nat
    | AtRecordPid _ => ∃ child lines, spawn c = Started child lines ∧ input w = lines
    | _ => True
    end.

(** "All N lines each produce one delivered record, each line's own
    content, in any order", once the supervisor has ended. *)
Definition every_line_delivered_once {St} (c : config St) (d : defaults) (s0 : St)
  : Prop :=
  ∀ child lines sched,
    spawn c = Started child lines →
    state (run c d sched (boot c s0)) = Exited 0 →
    ∃ nows, length nows = length lines
            ∧ delivered (run c d sched (boot c s0))
              ≡ₚ zip_with (messageToEmit d) nows lines.

(** "Malformed configuration is fatal before the child is spawned." *)
Definition malformed_is_fatal {St} (c : config St) (s0 : St) : Prop :=
  array_of_strings (tags_text (environ c)) = false
  ∨ object_of_strings (labels_text (environ c)) = false →
  ∀ sched, state (program c s0 sched) = Exited 1
           ∧ no_spawn_no_delivery (trace (program c s0 sched)).

(** "The record, once parsed, has the five keys, and its message is the
    raw line." *)
Definition message_is_the_line (d : defaults) (now : time.Time) (line : string) : Prop :=
  ∃ version timestamp labels tags,
    json.parse (messageToEmit d now line)
    = Some (json.Object
              [ ("ecs.version"%string, version); ("@timestamp"%string, timestamp);
                ("labels"%string, labels); ("tags"%string, tags);
                ("message"%string, json.String line) ]).

End spec.

(** * What a run shows *)

Module observe.
Import logging main.

(** The name under which [main] looks the emitter up. *)
Definition emitterName {St} (c : config St) : string :=
  match environ c !! "HABERDASHER_EMITTER"%string with
  | Some v => v
  | None => "stderr"%string
  end.

(** The calls of [syscall.Kill], process and signal, in the order of the
    events. *)
Definition kills (evs : list event) : list (Z * Z) :=
  omap (λ e, match e with EvKill pid sig => Some (pid, sig) | _ => None end) evs.

(** The calls of [Setup] and [HandleLogMessage] and the start of the
    child. *)
Definition is_milestone (e : event) : bool :=
  match e with
  | EvSetup | EvStart _ _ | EvHandleLogMessage _ => true
  | _ => false
  end.

Definition milestones (evs : list event) : list event :=
  filter (λ e, is_milestone e = true) evs.

(** The events of a run, first to last. *)
Definition history {St} (w : world St) : list event := rev (trace w).

Definition is_signal (a : action) : bool :=
  match a with
  | Signal _ => true
  | _ => false
  end.

(** A schedule in which no signal arrives. *)
Definition quiet (sched : list action) : Prop :=
  Forall (λ a, is_signal a = false) sched.

Definition is_main (a : action) : bool :=
  match a with
  | RunMain => true
  | _ => false
  end.

(** The number of statements of [main] that a schedule runs. *)
Definition main_steps (sched : list action) : nat :=
  length (filter (λ a, is_main a = true) sched).

(** The three signals that reach the channel. *)
Definition caught (sig : Z) : Prop :=
  sig = syscall.SIGHUP ∨ sig = syscall.SIGINT ∨ sig = syscall.SIGTERM.

(** What a Go [string] holds after a JSON value is stored into it. *)
Definition text_of (v : json.t) : string :=
  match v with
  | json.String s => s
  | _ => EmptyString
  end.

(** The schedule in which every goroutine of the read loop runs before
    the next line is read; [nows] are the times the goroutines read. *)
Definition prompt (nows : list time.Time) : list action :=
  [RunMain; RunMain; RunMain; RunMain]
    ++ flat_map (λ now, [RunMain; RunTask now]) nows ++ [RunMain; RunMain].

(** The schedule in which [n] lines are read before any goroutine runs. *)
Definition late (n : nat) (nows : list time.Time) : list action :=
  repeat RunMain (4 + n) ++ map RunTask nows.

(** An ASCII character that is no control character and none of the
    three that [json.Marshal] escapes for HTML. *)
Definition printable (b : byte) : Prop :=
  0x20 ≤ b2z b < 0x80 ∧ b2z b ≠ 0x26 ∧ b2z b ≠ 0x3C ∧ b2z b ≠ 0x3E.

(** The supervisor after [k] statements of [main] and nothing else. *)
Definition alone {St} (c : config St) (d : defaults) (s0 : St) (k : nat) : world St :=
  run c d (repeat RunMain k) (boot c s0).

End observe.

(** * What holds of every state of the supervisor *)

Module invariant.
Import logging main observe.

(** What the place of [main] tells of the rest of the state. *)
Definition control {St} (c : config St) (w : world St) : Prop :=
  (∀ sig, signalChan w = Some sig → caught sig)
  ∧ match pc w with
    | AtBegin =>
      notified w = false ∧ signalChan w = None ∧ processes w = others c
      ∧ tasks w = 0%nat ∧ trace w = []
    | AtSetup =>
      emitter w = Emitters c !! emitterName c
      ∧ subcmdPid w = -1 ∧ processes w = others c ∧ tasks w = 0%nat
    | AtSpawn =>
      emitter w = Emitters c !! emitterName c ∧ is_Some (emitter w)
      ∧ subcmdPid w = -1 ∧ processes w = others c ∧ tasks w = 0%nat
    | AtRecordPid child =>
      emitter w = Emitters c !! emitterName c ∧ is_Some (emitter w)
      ∧ subcmdPid w = -1 ∧ processes w = child :: others c ∧ tasks w = 0%nat
      ∧ ∃ lines, spawn c = Started child lines
    | AtScan | AtReturn =>
      emitter w = Emitters c !! emitterName c ∧ is_Some (emitter w)
      ∧ ∃ child lines, spawn c = Started child lines
          ∧ subcmdPid w = syscall.p_pid child ∧ processes w = child :: others c
    end.

(** The calls of the emitter and the start of the child, in the order in
    which they happen. *)
Definition order {St} (c : config St) (w : world St) : Prop :=
  match pc w with
  | AtBegin | AtSetup => milestones (history w) = []
  | AtSpawn => milestones (history w) = [EvSetup]
  | _ =>
    ∃ name bin args,
      Args c = name :: bin :: args
      ∧ milestones (history w)
        = EvSetup :: EvStart bin args :: map EvHandleLogMessage (delivered w)
  end.

(** The signal handler relays one signal at most, and ends the process. *)
Definition relay {St} (c : config St) (w : world St) : Prop :=
  (kills (history w) = [] ∧ (EvCleanup ∉ trace w) ∧ signalled w = [])
  ∨ ∃ sig,
      caught sig ∧ kills (history w) = [(subcmdPid w, sig)]
      ∧ state w ≠ Running ∧ pc w ≠ AtBegin
      ∧ signalled w
        = rev (map (λ p, (p, sig))
                   (syscall.Kill_targets (self c) (processes w) (subcmdPid w))).

(** Two states in which [main] stands at the same place, with no signal
    waiting. *)
Definition same_place {St} (w1 w2 : world St) : Prop :=
  state w1 = state w2 ∧ pc w1 = pc w2 ∧ input w1 = input w2
  ∧ emitter w1 = emitter w2 ∧ signalChan w1 = None.

(** The process ends with status 1 where [main] calls [log.Fatal]. *)
Definition fatal_last {St} (c : config St) (w : world St) : Prop :=
  state w = Exited 1 →
  ∃ err, (spawn c = PipeFailed err ∨ spawn c = StartFailed err)
         ∧ head (trace w) = Some (EvLog (LogFatal err)).

(** The signal [sig] waits in the channel, or it is the one that was
    relayed. *)
Definition pending {St} (sig : Z) (w : world St) : Prop :=
  (state w = Running ∧ signalChan w = Some sig ∧ kills (history w) = [])
  ∨ (state w ≠ Running ∧ Forall (λ k, snd k = sig) (kills (history w))).

(** How the process has ended, when it has ended by [os.Exit] or by the
    return of [main]. *)
Definition exit_cause {St} (w : world St) : Prop :=
  ∀ code,
    state w = Exited code →
    (code = 0 ∧ (pc w = AtReturn ∨ EvCleanup ∈ trace w))
    ∨ (code = 1 ∧ ∃ msg, head (trace w) = Some (EvLog (LogFatal msg))).

End invariant.

(** * Sample runs *)

Module sample.
Import logging main.

(** An emitter that keeps what it is handed, and one whose calls fail. *)
Definition collector : Emitter (list (list byte)) :=
  {| Setup := λ s, s;
     HandleLogMessage := λ r s, (s ++ [r], None);
     Cleanup := λ s, (s, None) |}.

Definition failing : Emitter (list (list byte)) :=
  {| Setup := λ s, s;
     HandleLogMessage := λ r s, (s, Some "write failed"%string);
     Cleanup := λ s, (s, Some "flush failed"%string) |}.

Definition noon : time.Time :=
  {| time.year := 2020; time.month := 7; time.day := 4; time.hour := 12;
     time.minute := 0; time.second := 0; time.nanosecond := 0; time.offset := 0 |}.

Definition no_defaults : defaults :=
  {| defaultTags := Some []; defaultLabels := Some ∅ |}.

Definition supervisor : syscall.proc := {| syscall.p_pid := 1; syscall.p_pgid := 1 |}.
Definition bystander : syscall.proc := {| syscall.p_pid := 42; syscall.p_pgid := 42 |}.
Definition child : syscall.proc := {| syscall.p_pid := 7; syscall.p_pgid := 1 |}.

(** A text between double quotes. *)
Definition quoted (s : string) : string :=
  String "034"%char (String.append s (String "034"%char EmptyString)).

Definition line_a : string :=
  String.append "{" (String.append (quoted "a") ":1}").

Definition line_b : string :=
  String.append "{" (String.append (quoted "b") ":2}").

(** A supervisor with one other process in sight, whose child writes two
    JSON objects. *)
Definition two_lines (environ : gmap string string) (e : Emitter (list (list byte)))
  : config (list (list byte)) :=
  {| environ := environ;
     Args := ["haberdasher"; "/bin/app"]%string;
     Emitters := {[ "stderr"%string := e ]};
     self := supervisor;
     others := [bystander];
     spawn := Started child [line_a; line_b] |}.

(** The sample supervisor after it has started its child and recorded the
    child's process identifier, with an interrupt waiting in the channel. *)
Definition interrupted : world (list (list byte)) :=
  run (two_lines ∅ collector) no_defaults
      [RunMain; RunMain; RunMain; RunMain; Signal syscall.SIGINT]
      (boot (two_lines ∅ collector) []).

(** The sample supervisor with a sink whose calls fail, after it has read
    the first line of its child, with a hangup waiting in the channel. *)
Definition one_line_read : world (list (list byte)) :=
  run (two_lines ∅ failing) no_defaults
      [RunMain; RunMain; RunMain; RunMain; RunMain; Signal syscall.SIGHUP]
      (boot (two_lines ∅ failing) []).

(** A supervisor started without a command to run. *)
Definition no_command : config (list (list byte)) :=
  {| environ := ∅;
     Args := ["haberdasher"]%string;
     Emitters := {[ "stderr"%string := collector ]};
     self := supervisor;
     others := [bystander];
     spawn := Started child [] |}.

(** A supervisor whose command cannot be started. *)
Definition no_such_file : config (list (list byte)) :=
  {| environ := ∅;
     Args := ["haberdasher"; "/bin/app"]%string;
     Emitters := {[ "stderr"%string := collector ]};
     self := supervisor;
     others := [bystander];
     spawn := StartFailed "exec: no such file"%string |}.

(** A clock reading that RFC 3339 has no text for. *)
Definition year_10000 : time.Time :=
  {| time.year := 10000; time.month := 1; time.day := 1; time.hour := 0;
     time.minute := 0; time.second := 0; time.nanosecond := 0; time.offset := 0 |}.

(** An environment written by [json.Marshal]. *)
Definition tagged : gmap string string :=
  {[ "HABERDASHER_TAGS"%string :=
       string_of_bytes (json.marshal_strings (Some ["web"; "blue"]%string));
     "HABERDASHER_LABELS"%string :=
       string_of_bytes (json.marshal_string_map (Some {[ "app"%string := "shop"%string ]})) ]}.

(** An environment with [null] for a tag and for the value of a label,
    and with a key written twice. *)
Definition with_nulls : gmap string string :=
  {[ "HABERDASHER_TAGS"%string :=
       String.append "[" (String.append (quoted "web") ",null]");
     "HABERDASHER_LABELS"%string :=
       String.append "{"
         (String.append (quoted "app")
            (String.append ":"
               (String.append (quoted "shop")
                  (String.append "," (String.append (quoted "app") ":null}"))))) ]}.

(** An environment in which the tags hold an object and the labels an
    array. *)
Definition swapped : gmap string string :=
  {[ "HABERDASHER_TAGS"%string := "{}"%string;
     "HABERDASHER_LABELS"%string := "[]"%string ]}.

(** A supervisor in whose registry [collector] took the place of
    [failing]. *)
Definition replaced : config (list (list byte)) :=
  {| environ := ∅;
     Args := ["haberdasher"; "/bin/app"]%string;
     Emitters := Register "stderr" collector {[ "stderr"%string := failing ]};
     self := supervisor;
     others := [bystander];
     spawn := Started child [line_a; line_b] |}.

(** A supervisor whose child writes two lines of text, the second with a
    carriage return before its line feed. *)
Definition two_texts : config (list (list byte)) :=
  {| environ := ∅;
     Args := ["haberdasher"; "/bin/app"]%string;
     Emitters := {[ "stderr"%string := collector ]};
     self := supervisor;
     others := [bystander];
     spawn := Started child
                (bufio.lines (bufio.written [[x6f; x6e; x65]; [x74; x77; x6f; x0d]])) |}.

End sample.


(** * Proofs *)

Import utf8 json logging main.


(** ** Bytes and UTF-8 *)

Lemma b2z_range b : 0 ≤ b2z b < 256.
Proof.
  unfold b2z. pose proof (Byte.to_N_bounded b). lia.
Qed.

Lemma z2b_b2z b : z2b (b2z b) = b.
Proof.
  unfold z2b. pose proof (b2z_range b) as H.
  rewrite Z.mod_small by lia. unfold b2z. rewrite N2Z.id, Byte.of_to_N. reflexivity.
Qed.

Lemma b2z_inj a b : b2z a = b2z b → a = b.
Proof. intros H. rewrite <- (z2b_b2z a), <- (z2b_b2z b). by rewrite H. Qed.

(** A bitwise or of two numbers with no bit in common is their sum. *)
Lemma lor_add a b k :
  0 ≤ k → 0 ≤ b < 2 ^ k → a mod 2 ^ k = 0 → Z.lor a b = a + b.
Proof.
  intros Hk Hb Ha. symmetry. apply Z.add_nocarry_lor.
  apply Z.bits_inj'. intros n Hn. rewrite Z.land_spec, Z.bits_0.
  destruct (Z.lt_ge_cases n k) as [Hlt | Hge].
  - rewrite <- (Z.mod_pow2_bits_low a k n) by lia. rewrite Ha, Z.bits_0. reflexivity.
  - rewrite <- (Z.mod_small b (2 ^ k)) by lia.
    rewrite Z.mod_pow2_bits_high by lia. apply andb_false_r.
Qed.

(** Masks and shifts as remainders, products and quotients. *)
Ltac bits_to_arith :=
  unfold utf8.maskx, utf8.mask2, utf8.mask3, utf8.mask4 in *;
  change 0x3F with (Z.ones 6) in *;
  change 0x1F with (Z.ones 5) in *;
  change 0x0F with (Z.ones 4) in *;
  change 0x07 with (Z.ones 3) in *;
  rewrite ?Z.land_ones, ?Z.shiftl_mul_pow2, ?Z.shiftr_div_pow2 in * by lia.

Ltac zarith := first [ lia | Z.div_mod_to_equations; lia ].

(** The arithmetic of the three multi-byte forms: the rune assembled from
    the bytes lies in the range of its form, and the bytes that [EncodeRune]
    computes from it are the bytes it was assembled from. *)
Lemma roundtrip2 p0 b1 :
  0xC2 ≤ p0 < 0xE0 → 0x80 ≤ b1 ≤ 0xBF →
  let r := Z.lor (Z.shiftl (Z.land p0 utf8.mask2) 6) (Z.land b1 utf8.maskx) in
  0x80 ≤ r ≤ 0x7FF ∧
  (Z.lor 0xC0 (Z.shiftr r 6)) mod 256 = p0 ∧ (Z.lor 0x80 (Z.land r utf8.maskx)) mod 256 = b1.
Proof.
  intros H0 H1 r. subst r. bits_to_arith.
  change (2 ^ 6) with 64. change (2 ^ 5) with 32.
  rewrite (lor_add (_ * 64) _ 6) by zarith.
  rewrite (lor_add 0xC0 _ 5) by zarith.
  rewrite (lor_add 0x80 _ 6) by zarith.
  repeat split; zarith.
Qed.

Lemma roundtrip3 p0 b1 b2 :
  (p0 = 0xE0 ∧ 0xA0 ≤ b1 ≤ 0xBF) ∨ (0xE1 ≤ p0 ≤ 0xEC ∧ 0x80 ≤ b1 ≤ 0xBF)
  ∨ (p0 = 0xED ∧ 0x80 ≤ b1 ≤ 0x9F) ∨ (0xEE ≤ p0 ≤ 0xEF ∧ 0x80 ≤ b1 ≤ 0xBF) →
  0x80 ≤ b2 ≤ 0xBF →
  let r := Z.lor (Z.lor (Z.shiftl (Z.land p0 utf8.mask3) 12)
                        (Z.shiftl (Z.land b1 utf8.maskx) 6))
                 (Z.land b2 utf8.maskx) in
  0x800 ≤ r ≤ 0xFFFF ∧ ¬ (0xD800 ≤ r ≤ 0xDFFF) ∧
  (Z.lor 0xE0 (Z.shiftr r 12)) mod 256 = p0 ∧
  (Z.lor 0x80 (Z.land (Z.shiftr r 6) utf8.maskx)) mod 256 = b1 ∧
  (Z.lor 0x80 (Z.land r utf8.maskx)) mod 256 = b2.
Proof.
  intros H0 H2 r. subst r. bits_to_arith.
  change (2 ^ 12) with 4096. change (2 ^ 6) with 64. change (2 ^ 4) with 16.
  rewrite (lor_add (_ * 4096) (_ * 64) 12) by zarith.
  rewrite (lor_add (_ + _) _ 6) by zarith.
  rewrite (lor_add 0xE0 _ 4) by zarith.
  rewrite !(lor_add 0x80 _ 6) by zarith.
  repeat split; zarith.
Qed.

Lemma roundtrip4 p0 b1 b2 b3 :
  (p0 = 0xF0 ∧ 0x90 ≤ b1 ≤ 0xBF) ∨ (0xF1 ≤ p0 ≤ 0xF3 ∧ 0x80 ≤ b1 ≤ 0xBF)
  ∨ (p0 = 0xF4 ∧ 0x80 ≤ b1 ≤ 0x8F) →
  0x80 ≤ b2 ≤ 0xBF → 0x80 ≤ b3 ≤ 0xBF →
  let r := Z.lor (Z.lor (Z.lor (Z.shiftl (Z.land p0 utf8.mask4) 18)
                               (Z.shiftl (Z.land b1 utf8.maskx) 12))
                        (Z.shiftl (Z.land b2 utf8.maskx) 6))
                 (Z.land b3 utf8.maskx) in
  0x10000 ≤ r ≤ 0x10FFFF ∧
  (Z.lor 0xF0 (Z.shiftr r 18)) mod 256 = p0 ∧
  (Z.lor 0x80 (Z.land (Z.shiftr r 12) utf8.maskx)) mod 256 = b1 ∧
  (Z.lor 0x80 (Z.land (Z.shiftr r 6) utf8.maskx)) mod 256 = b2 ∧
  (Z.lor 0x80 (Z.land r utf8.maskx)) mod 256 = b3.
Proof.
  intros H0 H2 H3 r. subst r. bits_to_arith.
  change (2 ^ 18) with 262144. change (2 ^ 12) with 4096. change (2 ^ 6) with 64.
  change (2 ^ 3) with 8.
  rewrite (lor_add (_ * 262144) (_ * 4096) 18) by zarith.
  rewrite (lor_add (_ + _) (_ * 64) 12) by zarith.
  rewrite (lor_add (_ + _) _ 6) by zarith.
  rewrite (lor_add 0xF0 _ 3) by zarith.
  rewrite !(lor_add 0x80 _ 6) by zarith.
  repeat split; zarith.
Qed.

Lemma z2b_mod z b : z mod 256 = b2z b → z2b z = b.
Proof.
  intros H. unfold z2b. rewrite H. unfold b2z. rewrite N2Z.id, Byte.of_to_N. reflexivity.
Qed.

Ltac case_lead p0 :=
  repeat match goal with
  | |- context [Z.ltb (b2z p0) ?b] => destruct (Z.ltb_spec (b2z p0) b); try lia
  | |- context [Z.eqb (b2z p0) ?b] => destruct (Z.eqb_spec (b2z p0) b); try lia
  end.

Ltac case_out :=
  match goal with
  | |- context [out_of ?lo ?hi ?b] =>
    let E := fresh "E" in
    destruct (out_of lo hi b) eqn:E;
    [ | unfold out_of in E; apply orb_false_elim in E; destruct E as [?%Z.ltb_ge ?%Z.ltb_ge] ]
  end.

(** The cases of [DecodeRune] on a text that starts with [p0]: the entry of
    [first] for each range of the leading byte, with the size and the
    accepted range computed from it. *)
Ltac decode_cases p0 :=
  unfold DecodeRune, first;
  case_lead p0; cbv zeta;
  repeat match goal with
  | |- context [0xF0 <=? ?x] =>
    let v := eval vm_compute in (0xF0 <=? x) in progress change (0xF0 <=? x) with v
  | |- context [?x =? 0xF0] =>
    let v := eval vm_compute in (x =? 0xF0) in progress change (x =? 0xF0) with v
  | |- context [Z.land ?x 7 <=? ?k] =>
    let v := eval vm_compute in (Z.land x 7 <=? k) in progress change (Z.land x 7 <=? k) with v
  | |- context [acceptRanges (Z.shiftr ?x 4)] =>
    let v := eval vm_compute in (acceptRanges (Z.shiftr x 4)) in
    progress change (acceptRanges (Z.shiftr x 4)) with v
  end; cbv iota beta.

Lemma DecodeRune_view p0 t : decode_view (p0 :: t) (DecodeRune (p0 :: t)).
Proof.
  pose proof (b2z_range p0) as R0. decode_cases p0.
  all: try (apply dv_ascii; lia).
  all: try (apply dv_error; lia).
  all: destruct t as [|b1 t]; [apply dv_error; lia|].
  all: case_out; [apply dv_error; lia|].
  1: { apply dv_two; lia. }
  all: destruct t as [|b2 t]; [apply dv_error; lia|].
  all: case_out; [apply dv_error; lia|].
  1-4: (apply dv_three; [unfold lead3|]; lia).
  all: destruct t as [|b3 t]; [apply dv_error; lia|].
  all: case_out; [apply dv_error; lia|].
  all: apply dv_four; [unfold lead4| |]; lia.
Qed.

Lemma decode_view_size p d : decode_view p d → (1 ≤ snd d ≤ length p)%nat.
Proof. destruct 1; simpl; lia. Qed.

Lemma is_error_ascii p0 : b2z p0 < 0x80 → is_error (b2z p0, 1%nat) = false.
Proof.
  intros H. unfold is_error, RuneError. simpl.
  destruct (Z.eqb_spec (b2z p0) 65533); [lia | reflexivity].
Qed.

Lemma EncodeRune_ascii c : 0 ≤ c < 0x80 → EncodeRune c = [z2b c].
Proof.
  intros H. unfold EncodeRune, rune1Max.
  destruct (Z.leb_spec 0 c), (Z.leb_spec c 0x7F); try lia. reflexivity.
Qed.

Ltac case_cmp :=
  repeat match goal with
  | |- context [Z.ltb ?a ?b] => destruct (Z.ltb_spec a b); try lia
  | |- context [Z.leb ?a ?b] => destruct (Z.leb_spec a b); try lia
  | |- context [Z.eqb ?a ?b] => destruct (Z.eqb_spec a b); try lia
  end.

(** Encoding a rune that decoded without failure gives back the bytes it was
    decoded from. *)
Lemma EncodeRune_view p d :
  decode_view p d → is_error d = false → EncodeRune (fst d) = firstn (snd d) p.
Proof.
  intros [p0 t H0 | p0 t H0 | p0 b1 t H0 H1 | p0 b1 b2 t H0 H2 | p0 b1 b2 b3 t H0 H2 H3] He;
    cbn [fst snd firstn].
  - rewrite EncodeRune_ascii by (pose proof (b2z_range p0); lia). rewrite z2b_b2z.
    reflexivity.
  - discriminate He.
  - destruct (roundtrip2 _ _ H0 H1) as (Hr & E0 & E1). fold (rune2 p0 b1) in *.
    unfold EncodeRune, rune1Max, rune2Max, MaxRune, surrogateMin, surrogateMax.
    case_cmp; cbn [andb orb];
      by rewrite (z2b_mod _ _ E0), (z2b_mod _ _ E1).
  - destruct (roundtrip3 _ _ _ H0 H2) as (Hr & Hs & E0 & E1 & E2). fold (rune3 p0 b1 b2) in *.
    unfold EncodeRune, rune1Max, rune2Max, rune3Max, MaxRune, surrogateMin, surrogateMax.
    case_cmp; cbn [andb orb]; unfold encode3;
      by rewrite (z2b_mod _ _ E0), (z2b_mod _ _ E1), (z2b_mod _ _ E2).
  - destruct (roundtrip4 _ _ _ _ H0 H2 H3) as (Hr & E0 & E1 & E2 & E3).
    fold (rune4 p0 b1 b2 b3) in *.
    unfold EncodeRune, rune1Max, rune2Max, rune3Max, MaxRune, surrogateMin, surrogateMax.
    case_cmp; cbn [andb orb];
      by rewrite (z2b_mod _ _ E0), (z2b_mod _ _ E1), (z2b_mod _ _ E2), (z2b_mod _ _ E3).
Qed.

Lemma EncodeRune_DecodeRune p0 t :
  is_error (DecodeRune (p0 :: t)) = false →
  EncodeRune (fst (DecodeRune (p0 :: t))) = firstn (snd (DecodeRune (p0 :: t))) (p0 :: t).
Proof. apply EncodeRune_view, DecodeRune_view. Qed.


(** ** String literals *)

Lemma string_body_skip l q : string_body (length l) (l ++ q) = string_body 0 q.
Proof. induction l as [|a l IH]; [reflexivity | exact IH]. Qed.

Lemma string_body_plain b q :
  0x20 ≤ b2z b < 0x80 → b2z b ≠ c_quote → b2z b ≠ c_bslash →
  string_body 0 (b :: q) = prepend [b] (string_body 0 q).
Proof.
  intros H1 H2 H3. cbn [string_body]. unfold RuneSelf.
  case_cmp. reflexivity.
Qed.

Lemma htmlSafe_plain c :
  htmlSafe c = true → 0x20 ≤ c < 0x80 ∧ c ≠ c_quote ∧ c ≠ c_bslash.
Proof.
  unfold htmlSafe. case_cmp; cbn; intros; try discriminate; lia.
Qed.

Lemma string_body_escape b q :
  b2z b < 0x80 → htmlSafe (b2z b) = false →
  string_body 0 (escape b ++ q) = prepend [b] (string_body 0 q).
Proof.
  intros H1 H2.
  destruct b; vm_compute in H2; try discriminate H2; try (vm_compute in H1; discriminate H1);
    reflexivity.
Qed.

Lemma string_body_replacement q :
  string_body 0 (bslash :: bytes_of_string "ufffd" ++ q)
  = prepend (EncodeRune RuneError) (string_body 0 q).
Proof. reflexivity. Qed.

Lemma string_body_separator r q :
  r = 0x2028 ∨ r = 0x2029 →
  string_body 0 (bslash :: bytes_of_string "u202" ++ hex (Z.land r 0xF) :: q)
  = prepend (EncodeRune r) (string_body 0 q).
Proof. intros [-> | ->]; reflexivity. Qed.

(** Decoding looks at no byte beyond the rune it returns. *)
Lemma DecodeRune_prefix p d q :
  decode_view p d → DecodeRune p = d → is_error d = false →
  DecodeRune (firstn (snd d) p ++ q) = d.
Proof.
  intros [p0 t H0 | p0 t H0 | p0 b1 t H0 H1 | p0 b1 b2 t H0 H2 | p0 b1 b2 b3 t H0 H2 H3] Hd He;
    cbn [fst snd firstn app]; try discriminate He.
  all: rewrite <- Hd; clear Hd He.
  all: pose proof (b2z_range p0) as R0; decode_cases p0; try reflexivity.
  all: try (exfalso; unfold lead3, lead4 in *; lia).
  all: repeat (case_out; [first [reflexivity | lia] |]); reflexivity.
Qed.

Lemma string_body_rune p0 t q :
  0x80 ≤ b2z p0 →
  let d := DecodeRune (p0 :: t) in
  is_error d = false →
  string_body 0 (firstn (snd d) (p0 :: t) ++ q)
  = prepend (firstn (snd d) (p0 :: t)) (string_body 0 q).
Proof.
  intros H0 d He.
  pose proof (DecodeRune_view p0 t) as V. fold d in V.
  pose proof (decode_view_size _ _ V) as Hsz.
  pose proof (DecodeRune_prefix _ _ q V eq_refl He) as Hp.
  pose proof (EncodeRune_view _ _ V He) as Henc.
  destruct (snd d) as [|n] eqn:En; [lia|].
  cbn [firstn app] in *. cbn [string_body]. unfold RuneSelf.
  case_cmp. rewrite Hp, Henc, En. cbn [pred].
  rewrite <- (string_body_skip (firstn n t) q).
  rewrite length_take_le by (simpl in Hsz; lia). reflexivity.
Qed.

(** Reading back what [appendString] wrote: the text, coerced to UTF-8. *)
Lemma string_body_quote_from p : ∀ skip rest,
  string_body 0 (quote_from skip p ++ quote :: rest) = Some (coerce_from skip p, rest).
Proof.
  induction p as [|b t IH]; intros skip rest.
  - reflexivity.
  - destruct skip as [|k]; [|apply IH].
    cbn [quote_from coerce_from]. unfold RuneSelf.
    pose proof (b2z_range b) as Rb.
    destruct (Z.ltb_spec (b2z b) 0x80) as [Hlt | Hge].
    + assert (Hd : DecodeRune (b :: t) = (b2z b, 1%nat)).
      { unfold DecodeRune, first. case_cmp. reflexivity. }
      rewrite Hd. rewrite (is_error_ascii b Hlt). cbn [snd pred firstn].
      rewrite <- app_assoc.
      destruct (htmlSafe (b2z b)) eqn:Hs.
      * apply htmlSafe_plain in Hs as (? & ? & ?).
        cbn [app]. rewrite string_body_plain by lia. rewrite IH. reflexivity.
      * rewrite (string_body_escape b _ Hlt Hs), IH. reflexivity.
    + destruct (is_error (DecodeRune (b :: t))) eqn:He.
      * cbn [app]. rewrite <- app_assoc, string_body_replacement, IH. reflexivity.
      * destruct ((fst (DecodeRune (b :: t)) =? 0x2028) || (fst (DecodeRune (b :: t)) =? 0x2029)) eqn:Esep.
        -- cbn [app]. rewrite <- app_assoc. cbn [app].
           rewrite string_body_separator by (apply orb_true_iff in Esep; lia).
           rewrite IH, EncodeRune_DecodeRune by exact He. reflexivity.
        -- rewrite <- app_assoc, string_body_rune, IH by (lia || exact He). reflexivity.
Qed.


(** ** Arrays, objects and structs *)

Lemma value_quote f d q :
  value (S f) d (quote :: q)
  = option_map (λ r, (String (string_of_bytes (fst r)), snd r)) (string_body 0 q).
Proof. reflexivity. Qed.

Lemma value_string f d s rest :
  value (S f) d (appendString s ++ rest) = Some (String (coerce s), rest).
Proof.
  unfold appendString. cbn [app]. rewrite value_quote, <- app_assoc. cbn [app].
  rewrite string_body_quote_from. reflexivity.
Qed.

Lemma string_body_plain_text bs rest :
  Forall plain bs → string_body 0 (bs ++ quote :: rest) = Some (bs, rest).
Proof.
  induction 1 as [|b bs (H1 & H2 & H3) _ IH]; [reflexivity|].
  cbn [app]. rewrite string_body_plain by lia. rewrite IH. reflexivity.
Qed.

Lemma value_plain f d bs rest :
  Forall plain bs →
  value (S f) d (quote :: bs ++ [quote] ++ rest) = Some (String (string_of_bytes bs), rest).
Proof.
  intros H. rewrite value_quote. cbn [app]. rewrite string_body_plain_text by done. reflexivity.
Qed.

Lemma elements_eq f d s :
  elements (S f) d s =
  match value f d s with
  | None => None
  | Some (v, r) =>
    match skip_ws r with
    | e :: r' =>
      if b2z e =? c_comma then
        option_map (λ x, (v :: fst x, snd x)) (elements f d r')
      else if b2z e =? c_rbrack then Some ([v], r')
      else None
    | [] => None
    end
  end.
Proof. reflexivity. Qed.

Lemma members_eq f d s :
  members (S f) d s =
  match skip_ws s with
  | q :: r0 =>
    if b2z q =? c_quote then
      match string_body 0 r0 with
      | None => None
      | Some (k, r1) =>
        match skip_ws r1 with
        | c :: r2 =>
          if b2z c =? c_colon then
            match value f d r2 with
            | None => None
            | Some (v, r3) =>
              match skip_ws r3 with
              | e :: r4 =>
                if b2z e =? c_comma then
                  option_map (λ x, ((string_of_bytes k, v) :: fst x, snd x))
                             (members f d r4)
                else if b2z e =? c_rbrace then Some ([(string_of_bytes k, v)], r4)
                else None
              | [] => None
              end
            end
          else None
        | [] => None
        end
      end
    else None
  | [] => None
  end.
Proof. reflexivity. Qed.

Lemma elements_join n d (items : list (list byte * t)) : ∀ f rest,
  items ≠ [] →
  Forall (λ it, reads n d (fst it) (snd it)) items →
  (n + length items ≤ f)%nat →
  elements f d (join [","%byte] (map fst items) ++ "]"%byte :: rest)
  = Some (map snd items, rest).
Proof.
  induction items as [|[bs v] items IH]; intros f rest Hne Hall Hf; [done|].
  apply Forall_cons in Hall as [Hv Hall]. cbn [fst snd] in Hv.
  destruct f as [|f]; [simpl in Hf; lia|]. rewrite elements_eq.
  destruct items as [|it items].
  - cbn [map join fst snd]. rewrite Hv by (simpl in Hf; lia). reflexivity.
  - change (join [","%byte] (map fst ((bs, v) :: it :: items)))
      with (bs ++ [","%byte] ++ join [","%byte] (map fst (it :: items))).
    rewrite <- !app_assoc. rewrite Hv by (simpl in Hf; lia). cbn [app skip_ws].
    change (isSpace (b2z ","%byte)) with false. cbv iota.
    change (b2z ","%byte =? c_comma) with true. cbv iota.
    rewrite IH by (try done; simpl in *; lia). reflexivity.
Qed.

Lemma skip_ws_quote q : skip_ws (quote :: q) = quote :: q.
Proof. reflexivity. Qed.

Lemma members_join n d (fields : list (string * list byte * t)) : ∀ f rest,
  fields ≠ [] →
  Forall (λ fld, reads n d (snd (fst fld)) (snd fld)) fields →
  (n + length fields ≤ f)%nat →
  members f d
    (join [","%byte] (map (λ fld, appendString (fst (fst fld)) ++ ":"%byte :: snd (fst fld)) fields)
       ++ "}"%byte :: rest)
  = Some (map (λ fld, (coerce (fst (fst fld)), snd fld)) fields, rest).
Proof.
  induction fields as [|[[k bs] v] fields IH]; intros f rest Hne Hall Hf; [done|].
  apply Forall_cons in Hall as [Hv Hall]. cbn [fst snd] in Hv.
  destruct f as [|f]; [simpl in Hf; lia|]. rewrite members_eq.
  destruct fields as [|fld fields].
  - cbn [map join fst snd]. unfold appendString at 1. rewrite <- !app_assoc. cbn [app].
    rewrite skip_ws_quote. change (b2z quote =? c_quote) with true. cbv iota.
    rewrite <- !app_assoc. cbn [app].
    rewrite string_body_quote_from. cbn [skip_ws].
    change (isSpace (b2z ":"%byte)) with false. cbv iota.
    change (b2z ":"%byte =? c_colon) with true. cbv iota.
    rewrite Hv by (simpl in Hf; lia). reflexivity.
  - change (join [","%byte] (map (λ fld, appendString (fst (fst fld)) ++ ":"%byte :: snd (fst fld))
                                ((k, bs, v) :: fld :: fields)))
      with ((appendString k ++ ":"%byte :: bs) ++ [","%byte] ++
            join [","%byte] (map (λ fld, appendString (fst (fst fld)) ++ ":"%byte :: snd (fst fld))
                                 (fld :: fields))).
    unfold appendString at 1. rewrite <- !app_assoc. cbn [app].
    rewrite skip_ws_quote. change (b2z quote =? c_quote) with true. cbv iota.
    rewrite <- !app_assoc. cbn [app].
    rewrite string_body_quote_from. cbn [skip_ws].
    change (isSpace (b2z ":"%byte)) with false. cbv iota.
    change (b2z ":"%byte =? c_colon) with true. cbv iota.
    rewrite Hv by (simpl in Hf; lia). cbn [skip_ws].
    change (isSpace (b2z ","%byte)) with false. cbv iota.
    change (b2z ","%byte =? c_comma) with true. cbv iota.
    rewrite IH by (try done; simpl in *; lia). reflexivity.
Qed.

Lemma value_lbrack f d q :
  (d < maxNestingDepth)%N →
  value (S f) d ("["%byte :: quote :: q)
  = option_map (λ r, (Array (fst r), snd r)) (elements f (d + 1)%N (quote :: q)).
Proof.
  intros Hd. cbn [value skip_ws].
  change (isSpace (b2z "["%byte)) with false. cbv iota.
  change (b2z "["%byte =? c_lbrace) with false. cbv iota.
  change (b2z "["%byte =? c_lbrack) with true. cbv iota.
  destruct (N.ltb_spec maxNestingDepth (d + 1)) as [H | H]; [lia|].
  reflexivity.
Qed.

Lemma value_lbrace f d q :
  (d < maxNestingDepth)%N →
  value (S f) d ("{"%byte :: quote :: q)
  = option_map (λ r, (Object (fst r), snd r)) (members f (d + 1)%N (quote :: q)).
Proof.
  intros Hd. cbn [value skip_ws].
  change (isSpace (b2z "{"%byte)) with false. cbv iota.
  change (b2z "{"%byte =? c_lbrace) with true. cbv iota.
  destruct (N.ltb_spec maxNestingDepth (d + 1)) as [H | H]; [lia|].
  reflexivity.
Qed.

Lemma value_array_nil f d rest :
  (d < maxNestingDepth)%N →
  value (S f) d ("["%byte :: "]"%byte :: rest) = Some (Array [], rest).
Proof.
  intros Hd. cbn [value skip_ws].
  change (isSpace (b2z "["%byte)) with false. cbv iota.
  change (b2z "["%byte =? c_lbrace) with false. cbv iota.
  change (b2z "["%byte =? c_lbrack) with true. cbv iota.
  destruct (N.ltb_spec maxNestingDepth (d + 1)) as [H | H]; [lia|].
  reflexivity.
Qed.

Lemma value_object_nil f d rest :
  (d < maxNestingDepth)%N →
  value (S f) d ("{"%byte :: "}"%byte :: rest) = Some (Object [], rest).
Proof.
  intros Hd. cbn [value skip_ws].
  change (isSpace (b2z "{"%byte)) with false. cbv iota.
  change (b2z "{"%byte =? c_lbrace) with true. cbv iota.
  destruct (N.ltb_spec maxNestingDepth (d + 1)) as [H | H]; [lia|].
  reflexivity.
Qed.

Lemma reads_string d s : reads 1 d (appendString s) (String (coerce s)).
Proof. intros [|f] rest Hf; [lia|]. apply value_string. Qed.

Lemma join_quote (l : list string) x :
  ∃ q, join [","%byte] (map appendString (x :: l)) = quote :: q.
Proof. destruct l; cbn [map join]; unfold appendString; cbn [app]; eauto. Qed.

Lemma elements_strings d (l : list string) f rest :
  l ≠ [] → (1 + length l ≤ f)%nat →
  elements f d (join [","%byte] (map appendString l) ++ "]"%byte :: rest)
  = Some (map (λ s, String (coerce s)) l, rest).
Proof.
  intros Hne Hf.
  pose proof (elements_join 1 d (map (λ s, (appendString s, String (coerce s))) l) f rest) as E.
  rewrite !map_map, length_map in E. apply E; [by destruct l | | done].
  apply Forall_map, Forall_forall. intros s _. apply reads_string.
Qed.

Lemma reads_strings d xs :
  (d < maxNestingDepth)%N →
  reads (3 + length (default [] xs)) d (marshal_strings xs) (json_of_strings xs).
Proof.
  intros Hd f rest Hf. destruct xs as [l|]; cbn [default] in Hf.
  - destruct f as [|f]; [lia|]. unfold marshal_strings, json_of_strings.
    destruct l as [|x l].
    + apply value_array_nil, Hd.
    + rewrite <- app_comm_cons, <- app_assoc. cbn [app].
      destruct (join_quote l x) as [q Hq].
      pose proof (elements_strings (d + 1) (x :: l) f rest) as E.
      rewrite Hq in *. cbn [app] in *.
      rewrite value_lbrack, E by (try done; simpl in *; lia). reflexivity.
  - destruct f as [|f]; [lia|]. reflexivity.
Qed.

Lemma members_string_map d (l : list (string * string)) f rest :
  l ≠ [] → (1 + length l ≤ f)%nat →
  members f d (join [","%byte] (map member l) ++ "}"%byte :: rest)
  = Some (map (λ kv, (coerce (fst kv), String (coerce (snd kv)))) l, rest).
Proof.
  intros Hne Hf.
  pose proof (members_join 1 d
    (map (λ kv, (fst kv, appendString (snd kv), String (coerce (snd kv)))) l) f rest) as E.
  rewrite !map_map, length_map in E. apply E; [by destruct l | | done].
  apply Forall_map, Forall_forall. intros s _. apply reads_string.
Qed.

Lemma join_member_quote (l : list (string * string)) x :
  ∃ q, join [","%byte] (map member (x :: l)) = quote :: q.
Proof. destruct l; cbn [map join]; unfold member, appendString; cbn [app]; eauto. Qed.

Lemma reads_string_map d m :
  (d < maxNestingDepth)%N →
  reads (3 + map_size m) d (marshal_string_map m) (json_of_string_map m).
Proof.
  intros Hd f rest Hf. destruct m as [m|]; cbn [map_size] in Hf.
  - destruct f as [|f]; [lia|]. unfold marshal_string_map, json_of_string_map.
    assert (Hlen : length (merge_sort key_le (map_to_list m)) = length (map_to_list m)).
    { apply Permutation_length, merge_sort_Permutation. }
    destruct (merge_sort key_le (map_to_list m)) as [|x l].
    + apply value_object_nil, Hd.
    + rewrite <- app_comm_cons, <- app_assoc. cbn [app].
      destruct (join_member_quote l x) as [q Hq].
      pose proof (members_string_map (d + 1) (x :: l) f rest) as E.
      rewrite Hq in *. cbn [app] in *.
      rewrite value_lbrace, E by (try done; simpl in *; lia). reflexivity.
  - destruct f as [|f]; [lia|]. reflexivity.
Qed.

Lemma reads_more n n' d bs v : (n ≤ n')%nat → reads n d bs v → reads n' d bs v.
Proof. intros Hn H f rest Hf. apply H. lia. Qed.

Lemma reads_struct n d (fields : list (string * list byte * t)) :
  (d < maxNestingDepth)%N → fields ≠ [] →
  Forall (λ fld, reads n (d + 1) (snd (fst fld)) (snd fld)) fields →
  reads (1 + n + length fields) d (marshal_struct (map fst fields))
        (Object (map (λ fld, (coerce (fst (fst fld)), snd fld)) fields)).
Proof.
  intros Hd Hne Hall f rest Hf. destruct f as [|f]; [lia|].
  unfold marshal_struct. rewrite <- app_comm_cons, <- app_assoc. cbn [app].
  pose proof (members_join n (d + 1) fields f rest Hne Hall) as E.
  rewrite map_map.
  destruct fields as [|[[k bs] v] fields]; [done|].
  assert (∃ q, join [","%byte]
             (map (λ fld, appendString (fst (fst fld)) ++ ":"%byte :: snd (fst fld))
                  ((k, bs, v) :: fields)) = quote :: q) as [q Hq].
  { destruct fields; cbn [map join fst snd]; unfold appendString; cbn [app]; eauto. }
  cbn [fst snd] in *. rewrite Hq in *. cbn [app] in *.
  rewrite value_lbrace, E by (try done; simpl in *; lia). reflexivity.
Qed.

(** ** time *)

Lemma b2z_z2b z : 0 ≤ z < 256 → b2z (z2b z) = z.
Proof.
  intros H. unfold z2b. rewrite Z.mod_small by lia.
  destruct (Byte.of_N (Z.to_N z)) as [b|] eqn:E.
  - apply Byte.to_of_N in E. unfold b2z. rewrite E. lia.
  - apply Byte.of_N_None_iff in E. lia.
Qed.

Lemma plain_digit d : plain (time.digit (d mod 10)).
Proof.
  unfold plain, time.digit. pose proof (Z.mod_pos_bound d 10).
  rewrite b2z_z2b by lia. lia.
Qed.

Lemma Forall_one {A} (P : A → Prop) x : P x → Forall P [x].
Proof. intros H. apply Forall_cons; split; [exact H | apply Forall_nil; exact I]. Qed.

Lemma plain_decimal f u : Forall plain (time.decimal f u).
Proof.
  revert u. induction f as [|f IH]; intros u; cbn [time.decimal].
  - apply Forall_one, plain_digit.
  - destruct (u <? 10).
    + apply Forall_one, plain_digit.
    + apply Forall_app. split; [apply IH|]. apply Forall_one, plain_digit.
Qed.

Lemma plain_char (b : byte) :
  (0x20 <=? b2z b) && (b2z b <? 0x80) && negb (b2z b =? c_quote) && negb (b2z b =? c_bslash) = true →
  plain b.
Proof.
  unfold plain. intros H. repeat (apply andb_prop in H as [H ?]).
  apply negb_true_iff in H0, H1. lia.
Qed.

Lemma plain_appendInt x w : Forall plain (time.appendInt x w).
Proof.
  unfold time.appendInt. repeat (apply Forall_app; split).
  - destruct (x <? 0); [apply Forall_one; by apply plain_char | apply Forall_nil; exact I].
  - apply Forall_forall. intros b Hb%list_elem_of_In%repeat_spec. subst. by apply plain_char.
  - apply plain_decimal.
Qed.

Lemma plain_drop_zeros l : Forall plain l → Forall plain (time.drop_zeros l).
Proof.
  induction 1 as [|b l Hb Hl IH]; cbn [time.drop_zeros]; [apply Forall_nil; exact I|].
  destruct (b2z b =? 48); [exact IH | apply Forall_cons; by split].
Qed.

Lemma plain_format t : Forall plain (time.format_RFC3339Nano t).
Proof.
  unfold time.format_RFC3339Nano, time.appendNano, time.appendZone.
  repeat first
    [ apply plain_appendInt
    | apply Forall_cons; split; [by apply plain_char|]
    | apply Forall_app; split ].
  - destruct (time.nanosecond t =? 0); [apply Forall_nil; exact I|].
    apply Forall_cons; split; [by apply plain_char|].
    apply Forall_rev, plain_drop_zeros, Forall_rev, plain_appendInt.
  - destruct (time.offset t =? 0).
    + apply Forall_one. by apply plain_char.
    + repeat first
        [ apply plain_appendInt
        | apply Forall_cons; split; [by apply plain_char|]
        | apply Forall_app; split ].
      destruct (_ <? 0); apply Forall_one; by apply plain_char.
Qed.

Lemma reads_time d t bs :
  time.MarshalJSON t = Some bs →
  reads 1 d bs (String (string_of_bytes (time.format_RFC3339Nano t))).
Proof.
  unfold time.MarshalJSON. destruct (time.writable t); [|done]. intros [= <-].
  intros [|f] rest Hf; [lia|]. cbn [app]. rewrite <- app_assoc.
  apply value_plain, plain_format.
Qed.

(** ** The whole text *)

Lemma parse_reads n bs v :
  reads n 0 bs v → (n ≤ S (length bs))%nat → parse bs = Some v.
Proof.
  intros H Hn. unfold parse. specialize (H (S (length bs)) [] Hn).
  rewrite app_nil_r in H. rewrite H. reflexivity.
Qed.

Lemma length_appendString s : (2 ≤ length (appendString s))%nat.
Proof. unfold appendString. cbn [length]. rewrite length_app. simpl. lia. Qed.

Lemma length_join (sep : list byte) (parts : list (list byte)) :
  Forall (λ x, (1 ≤ length x)%nat) parts → (length parts ≤ length (join sep parts))%nat.
Proof.
  induction 1 as [|x l Hx Hl IH]; [simpl; lia|].
  destruct l as [|y l]; [simpl in *; lia|].
  change (join sep (x :: y :: l)) with (x ++ sep ++ join sep (y :: l)).
  rewrite !length_app. simpl in *. lia.
Qed.

Lemma length_marshal_strings xs :
  (length (default [] xs) ≤ length (marshal_strings xs))%nat.
Proof.
  destruct xs as [l|]; [|simpl; lia]. unfold marshal_strings. cbn [default length].
  rewrite length_app.
  pose proof (length_join [","%byte] (map appendString l)) as H.
  rewrite length_map in H. simpl.
  enough (length l ≤ length (join [","%byte] (map appendString l)))%nat by lia.
  apply H, Forall_map, Forall_forall. intros s _. simpl.
  pose proof (length_appendString s). lia.
Qed.

Lemma length_marshal_string_map m :
  (map_size m ≤ length (marshal_string_map m))%nat.
Proof.
  destruct m as [m|]; [|simpl; lia]. unfold marshal_string_map, map_size. cbn [length].
  rewrite length_app.
  pose proof (length_join [","%byte] (map member (merge_sort key_le (map_to_list m)))) as H.
  rewrite length_map in H.
  rewrite (Permutation_length (merge_sort_Permutation key_le (map_to_list m))) in H.
  enough (length (map_to_list m) ≤ length (join [","%byte] (map member (merge_sort key_le (map_to_list m)))))%nat by lia.
  apply H, Forall_map, Forall_forall. intros s _. unfold member.
  rewrite length_app. pose proof (length_appendString (fst s)). lia.
Qed.

Lemma parse_Marshal m bs :
  Marshal m = Some bs → parse bs = Some (envelope_tree m).
Proof.
  unfold Marshal. destruct (time.MarshalJSON (Timestamp m)) as [ts|] eqn:Ets; [|done].
  intros [= <-].
  set (n := (3 + map_size (Labels m) + length (default [] (Tags m)))%nat).
  set (fields :=
    [ ("ecs.version"%string, appendString (ECSVersion m), String (coerce (ECSVersion m)));
      ("@timestamp"%string, ts, String (string_of_bytes (time.format_RFC3339Nano (Timestamp m))));
      ("labels"%string, marshal_string_map (Labels m), json_of_string_map (Labels m));
      ("tags"%string, marshal_strings (Tags m), json_of_strings (Tags m));
      ("message"%string, appendString (Message_ m), String (coerce (Message_ m))) ]).
  assert (Hd : (0 + 1 < maxNestingDepth)%N) by done.
  assert (Hall : Forall (λ fld, reads n (0 + 1) (snd (fst fld)) (snd fld)) fields).
  { subst fields. repeat (apply Forall_cons; split); [..|apply Forall_nil; exact I]; cbn [fst snd].
    - eapply reads_more, reads_string. subst n. lia.
    - eapply reads_more, reads_time, Ets. subst n. lia.
    - eapply reads_more, reads_string_map, Hd. subst n. lia.
    - eapply reads_more, reads_strings, Hd. subst n. lia.
    - eapply reads_more, reads_string. subst n. lia. }
  pose proof (reads_struct n 0 fields eq_refl ltac:(done) Hall) as R.
  apply (parse_reads _ _ _ R).
  pose proof (length_marshal_strings (Tags m)).
  pose proof (length_marshal_string_map (Labels m)).
  subst fields n. cbn [map fst snd marshal_struct join length].
  repeat first [ rewrite length_app | progress cbn [length] ].
  pose proof (length_appendString (ECSVersion m)).
  pose proof (length_appendString (Message_ m)). lia.
Qed.


(** ** Valid UTF-8 is kept *)

(** Coercing a text that is valid UTF-8 changes nothing. *)
Lemma coerce_from_valid p : ∀ skip,
  valid_from skip p = true → coerce_from skip p = skipn skip p.
Proof.
  induction p as [|b t IH]; intros skip Hv; [by destruct skip|].
  destruct skip as [|k]; cbn [valid_from coerce_from skipn] in *; [|by apply IH].
  apply andb_prop in Hv as [He Hv]. apply negb_true_iff in He. rewrite He.
  rewrite (IH _ Hv).
  pose proof (decode_view_size _ _ (DecodeRune_view b t)) as Hsz.
  destruct (snd (DecodeRune (b :: t))) as [|n]; [lia|].
  cbn [firstn pred app]. f_equal. apply take_drop.
Qed.

Lemma coerce_valid s : ValidString s = true → coerce s = s.
Proof.
  unfold ValidString, Valid, coerce. intros H.
  rewrite (coerce_from_valid _ 0 H). apply string_of_list_byte_of_string.
Qed.

(** ** Decoding the trees of the default tags and labels *)

Lemma string_elems_strings (l : list string) :
  string_elems (map String l) = inr l.
Proof. induction l as [|s l IH]; [done|]. cbn [map string_elems string_elem]. by rewrite IH. Qed.

Lemma decode_json_of_strings xs :
  Forall (λ s, ValidString s = true) (default [] xs) →
  decode_strings (json_of_strings xs) = inr xs.
Proof.
  destruct xs as [l|]; [|done]. cbn [default json_of_strings decode_strings]. intros H.
  replace (map (λ s, String (coerce s)) l) with (map String l).
  - by rewrite string_elems_strings.
  - apply Forall_fmap_ext_1, (Forall_impl _ _ _ H). intros s Hs. by rewrite coerce_valid.
Qed.

Lemma string_members_strings (l : list (string * string)) : ∀ m0,
  string_members (map (λ kv, (fst kv, String (snd kv))) l) m0
  = inr (foldl (λ m kv, <[fst kv := snd kv]> m) m0 l).
Proof.
  induction l as [|[k v] l IH]; intros m0; [done|].
  cbn [map string_members string_elem fst snd foldl]. apply IH.
Qed.

Lemma foldl_insert_list_to_map (l : list (string * string)) :
  foldl (λ m kv, <[fst kv := snd kv]> m) (∅ : gmap string string) l = list_to_map (rev l).
Proof.
  induction l as [|x l IH] using rev_ind; [done|].
  rewrite foldl_app, rev_app_distr. cbn [foldl rev app]. rewrite IH. by destruct x.
Qed.

Lemma decode_json_of_string_map m :
  Forall valid_pair (default [] (map_to_list <$> m)) →
  decode_string_map (json_of_string_map m) = inr m.
Proof.
  destruct m as [m|]; [|done]. cbn [default fmap option_fmap option_map json_of_string_map decode_string_map].
  intros H.
  set (l := merge_sort key_le (map_to_list m)).
  assert (Hp : l ≡ₚ map_to_list m) by apply merge_sort_Permutation.
  replace (map (λ kv, (coerce (fst kv), String (coerce (snd kv)))) l)
    with (map (λ kv : string * string, (fst kv, String (snd kv))) l).
  - rewrite string_members_strings, foldl_insert_list_to_map.
    do 2 f_equal. clearbody l. rewrite <- (list_to_map_to_list m).
    apply list_to_map_proper.
    + rewrite <- Permutation_rev, Hp. apply NoDup_fst_map_to_list.
    + by rewrite <- Permutation_rev.
  - apply Forall_fmap_ext_1. rewrite Hp. apply (Forall_impl _ _ _ H).
    intros [k v] [Hk Hv]. cbn [fst snd] in *. by rewrite !coerce_valid.
Qed.


(** ** The decoder produces valid UTF-8 *)

Ltac pow_consts :=
  change (2 ^ 3) with 8 in *; change (2 ^ 4) with 16 in *; change (2 ^ 5) with 32 in *;
  change (2 ^ 6) with 64 in *; change (2 ^ 12) with 4096 in *;
  change (2 ^ 18) with 262144 in *.

Ltac byte_range :=
  bits_to_arith; pow_consts;
  rewrite ?(lor_add 0xC0 _ 5) by zarith;
  rewrite ?(lor_add 0xE0 _ 4) by zarith;
  rewrite ?(lor_add 0xF0 _ 3) by zarith;
  rewrite ?(lor_add 0x80 _ 6) by zarith;
  rewrite ?b2z_z2b by zarith; zarith.

Lemma out_of_false lo hi b : lo ≤ b2z b ≤ hi → out_of lo hi b = false.
Proof. intros H. unfold out_of. case_cmp; reflexivity. Qed.

Lemma DecodeRune_ascii p0 t : b2z p0 < 0x80 → DecodeRune (p0 :: t) = (b2z p0, 1%nat).
Proof. intros H. unfold DecodeRune, first. case_cmp; reflexivity. Qed.

Lemma DecodeRune_two p0 b1 t :
  0xC2 ≤ b2z p0 < 0xE0 → 0x80 ≤ b2z b1 ≤ 0xBF →
  DecodeRune (p0 :: b1 :: t) = (rune2 p0 b1, 2%nat).
Proof.
  intros H0 H1. decode_cases p0. by rewrite out_of_false by lia.
Qed.

Lemma DecodeRune_three p0 b1 b2 t :
  lead3 (b2z p0) (b2z b1) → 0x80 ≤ b2z b2 ≤ 0xBF →
  DecodeRune (p0 :: b1 :: b2 :: t) = (rune3 p0 b1 b2, 3%nat).
Proof.
  intros H0 H2. unfold lead3 in H0. decode_cases p0;
    rewrite !out_of_false by lia; reflexivity.
Qed.

Lemma DecodeRune_four p0 b1 b2 b3 t :
  lead4 (b2z p0) (b2z b1) → 0x80 ≤ b2z b2 ≤ 0xBF → 0x80 ≤ b2z b3 ≤ 0xBF →
  DecodeRune (p0 :: b1 :: b2 :: b3 :: t) = (rune4 p0 b1 b2 b3, 4%nat).
Proof.
  intros H0 H2 H3. unfold lead4 in H0. decode_cases p0;
    rewrite !out_of_false by lia; reflexivity.
Qed.

Lemma is_error_wide r n : n ≠ 1%nat → is_error (r, n) = false.
Proof.
  intros H. unfold is_error. cbn [snd]. destruct (Nat.eqb_spec n 1); [done|].
  apply andb_false_r.
Qed.

(** What [EncodeRune] writes decodes without failure, as one rune of the same
    width. *)
Lemma DecodeRune_EncodeRune r q :
  is_error (DecodeRune (EncodeRune r ++ q)) = false
  ∧ snd (DecodeRune (EncodeRune r ++ q)) = length (EncodeRune r).
Proof.
  unfold EncodeRune, rune1Max, rune2Max, rune3Max, MaxRune, surrogateMin, surrogateMax.
  destruct (Z.leb_spec 0 r), (Z.leb_spec r 0x7F); cbn [andb orb].
  - cbn [app]. rewrite DecodeRune_ascii by (rewrite b2z_z2b; lia).
    rewrite b2z_z2b by lia. split; [|reflexivity].
    unfold is_error, RuneError. cbn [fst snd]. case_cmp; reflexivity.
  - destruct (Z.leb_spec r 0x7FF); cbn [andb orb].
    + cbn [app]. rewrite DecodeRune_two; [by rewrite is_error_wide | |]; byte_range.
    + destruct (Z.ltb_spec r 0); [lia|]. cbn [orb].
      destruct (Z.ltb_spec 0x10FFFF r); cbn [orb]; [done|].
      destruct (Z.leb_spec 0xD800 r), (Z.leb_spec r 0xDFFF); cbn [andb]; try done.
      all: destruct (Z.leb_spec r 0xFFFF).
      all: try (unfold encode3; cbn [app]; rewrite DecodeRune_three;
                [by rewrite is_error_wide | unfold lead3 | ]; byte_range).
      all: cbn [app]; rewrite DecodeRune_four;
           [by rewrite is_error_wide | unfold lead4 | | ]; byte_range.
  - cbn [orb]. destruct (Z.ltb_spec r 0); [|lia]. done.
  - lia.
Qed.

Lemma valid_from_skip l q : valid_from (length l) (l ++ q) = valid_from 0 q.
Proof. induction l as [|a l IH]; [reflexivity | exact IH]. Qed.

Lemma valid_from_EncodeRune r q :
  valid_from 0 (EncodeRune r ++ q) = valid_from 0 q.
Proof.
  destruct (DecodeRune_EncodeRune r q) as [He Hn].
  destruct (EncodeRune r) as [|b bs] eqn:E.
  - exfalso. revert E. unfold EncodeRune, encode3. repeat case_match; discriminate.
  - cbn [app valid_from] in *. rewrite He, Hn. cbn [negb andb length pred].
    apply valid_from_skip.
Qed.

Lemma valid_from_ascii b q : b2z b < 0x80 → valid_from 0 (b :: q) = valid_from 0 q.
Proof.
  intros H. cbn [valid_from]. rewrite DecodeRune_ascii, is_error_ascii by done. reflexivity.
Qed.

Lemma prepend_Some o r out rest :
  prepend o r = Some (out, rest) → ∃ out', r = Some (out', rest) ∧ out = o ++ out'.
Proof. destruct r as [[s x]|]; [|done]. intros [= <- <-]. eauto. Qed.

Lemma simple_escape_ascii c o : simple_escape c = Some o → b2z o < 0x80.
Proof. unfold simple_escape. repeat case_match; intros [= <-]; done. Qed.

(** The decoder only produces valid UTF-8. *)
Lemma string_body_valid p : ∀ skip out rest,
  string_body skip p = Some (out, rest) → Valid out = true.
Proof.
  unfold Valid. induction p as [|b t IH]; intros skip out rest H; [done|].
  destruct skip as [|k]; cbn [string_body] in H; [|by eapply IH].
  repeat case_match; try discriminate; simplify_eq; try done.
  all: apply prepend_Some in H as (out' & H & ->); apply IH in H.
  all: rewrite ?valid_from_EncodeRune; try done.
  - cbn [app]. rewrite valid_from_ascii; [done|]. by eapply simple_escape_ascii.
  - cbn [app]. rewrite valid_from_ascii; [done|].
    repeat match goal with H : (_ <? _) = true |- _ => apply Z.ltb_lt in H end.
    unfold RuneSelf in *. lia.
Qed.

Lemma ValidString_of_bytes out : Valid out = true → ValidString (string_of_bytes out) = true.
Proof.
  unfold ValidString, bytes_of_string, string_of_bytes.
  by rewrite list_byte_of_string_of_list_byte.
Qed.

Lemma literal_valid name v s r x :
  literal name v s = Some (x, r) → x = v.
Proof. unfold literal. destruct (strip_prefix _ _); [|done]. by intros [= <- _]. Qed.

Lemma parser_valid f :
  (∀ d s v r, value f d s = Some (v, r) → valid_tree v = true)
  ∧ (∀ d s vs r, elements f d s = Some (vs, r) → forallb valid_tree vs = true)
  ∧ (∀ d s kvs r, members f d s = Some (kvs, r) →
       forallb (λ kv, ValidString (fst kv) && valid_tree (snd kv)) kvs = true).
Proof.
  induction f as [|f (IHv & IHe & IHm)]; [done|].
  split; [|split]; intros d s.
  - intros v r H. cbn [value] in H.
    repeat case_match; try discriminate; simplify_eq; try done.
    + destruct (members f _ _) as [[kvs r']|] eqn:E; [|done]. injection H as <- <-.
      cbn [valid_tree fst]. by eapply IHm.
    + destruct (elements f _ _) as [[vs r']|] eqn:E; [|done]. injection H as <- <-.
      cbn [valid_tree fst]. by eapply IHe.
    + destruct (string_body 0 _) as [[out r']|] eqn:E; [|done]. injection H as <- <-.
      cbn [valid_tree fst]. by eapply ValidString_of_bytes, string_body_valid.
    + by apply literal_valid in H as ->.
    + by apply literal_valid in H as ->.
    + by apply literal_valid in H as ->.
    + destruct (number _) as [[n r']|]; [|done]. by injection H as <- <-.
  - intros vs r H. rewrite elements_eq in H.
    repeat case_match; try discriminate; simplify_eq.
    + destruct (elements f _ _) as [[vs' r'']|] eqn:E; [|done]. injection H as <- <-.
      cbn [forallb fst]. apply andb_true_intro; split; [by eapply IHv | by eapply IHe].
    + cbn [forallb]. rewrite andb_true_r. by eapply IHv.
  - intros kvs r H. rewrite members_eq in H.
    repeat case_match; try discriminate; simplify_eq.
    + destruct (members f _ _) as [[kvs' r'']|] eqn:E; [|done]. injection H as <- <-.
      cbn [forallb fst snd]. repeat (apply andb_true_intro; split).
      * by eapply ValidString_of_bytes, string_body_valid.
      * by eapply IHv.
      * by eapply IHm.
    + cbn [forallb fst snd]. rewrite andb_true_r. apply andb_true_intro; split.
      * by eapply ValidString_of_bytes, string_body_valid.
      * by eapply IHv.
Qed.

Lemma parse_valid data v : parse data = Some v → valid_tree v = true.
Proof.
  unfold parse. destruct (value _ _ _) as [[x r]|] eqn:E; [|done].
  destruct (skip_ws r); [|done]. intros [= <-].
  by eapply (proj1 (parser_valid _)).
Qed.


(** ** The fuel of the parser *)

Lemma skip_ws_length s : (length (skip_ws s) ≤ length s)%nat.
Proof.
  induction s as [|b s IH]; [done|]. cbn [skip_ws].
  destruct (isSpace (b2z b)); simpl; lia.
Qed.

Lemma string_body_length p : ∀ k out r,
  string_body k p = Some (out, r) → (length r < length p)%nat.
Proof.
  induction p as [|b t IH]; intros k out r H; [done|].
  destruct k as [|k]; cbn [string_body] in H.
  - repeat case_match; try discriminate; simplify_eq; try (simpl; lia).
    all: apply prepend_Some in H as (out' & H & _); apply IH in H; simpl in *; lia.
  - apply IH in H. simpl. lia.
Qed.

Lemma span_digits_length s ds r :
  span_digits s = (ds, r) → (length r ≤ length s)%nat.
Proof.
  revert ds r. induction s as [|b s IH]; intros ds r H; cbn [span_digits] in H.
  - by injection H as <- <-.
  - destruct (isDigit (b2z b)).
    + destruct (span_digits s) as [ds' r'] eqn:E. injection H as <- <-.
      specialize (IH _ _ eq_refl). simpl. lia.
    + injection H as <- <-. done.
Qed.

Lemma fraction_length s fs r : fraction s = Some (fs, r) → (length r ≤ length s)%nat.
Proof.
  unfold fraction. destruct s as [|b s]; [by intros [= <- <-]|].
  destruct (b2z b =? c_dot); [|by intros [= <- <-]].
  destruct (span_digits s) as [ds r'] eqn:E. apply span_digits_length in E.
  destruct ds; [done|]. intros [= <- <-]. simpl. lia.
Qed.

Lemma exponent_length s sg es r :
  exponent s = Some (sg, es, r) → (length r ≤ length s)%nat.
Proof.
  unfold exponent. destruct s as [|b s]; [by intros [= <- <- <-]|].
  destruct (_ || _); [|by intros [= <- <- <-]].
  destruct s as [|g s'].
  - cbn. done.
  - destruct (b2z g =? c_minus); [|destruct (b2z g =? c_plus)].
    all: destruct (span_digits _) as [ds r'] eqn:E; apply span_digits_length in E;
      destruct ds; [done|]; intros [= <- <- <-]; simpl in *; lia.
Qed.

Lemma number_length s n r : number s = Some (n, r) → (length r < length s)%nat.
Proof.
  unfold number. intros H.
  assert (Hcore : ∀ s1 sg, (length s1 ≤ length s)%nat →
     match s1 with
     | d :: rest =>
       if isDigit (b2z d) then
         let '(ds, r1) := if b2z d =? 0x30 then ([], rest) else span_digits rest in
         match fraction r1 with
         | None => None
         | Some (fs, r2) =>
           match exponent r2 with
           | None => None
           | Some (esg, es, r3) =>
             Some ({| neg := sg; ipart := d :: ds; fpart := fs; eneg := esg; epart := es |}, r3)
           end
         end
       else None
     | [] => None
     end = Some (n, r) → (length r < length s)%nat).
  { intros s1 sg Hs1 H1. destruct s1 as [|dg rest]; [done|].
    destruct (isDigit (b2z dg)); [|done].
    destruct (if b2z dg =? 48 then ([], rest) else span_digits rest) as [ds r1] eqn:E1.
    assert (length r1 ≤ length rest)%nat.
    { destruct (b2z dg =? 48); [by injection E1 as <- <-|]. by eapply span_digits_length. }
    destruct (fraction r1) as [[fs r2]|] eqn:E2; [|done]. apply fraction_length in E2.
    destruct (exponent r2) as [[[esg es] r3]|] eqn:E3; [|done]. apply exponent_length in E3.
    injection H1 as <- <-. simpl in *. lia. }
  destruct s as [|b rest]; [done|].
  destruct (b2z b =? c_minus).
  - eapply (Hcore rest true); [simpl; lia | exact H].
  - eapply (Hcore (b :: rest) false); [done | exact H].
Qed.

Lemma strip_prefix_length n : ∀ s r,
  strip_prefix n s = Some r → length s = (length n + length r)%nat.
Proof.
  induction n as [|a n IH]; intros s r H; cbn [strip_prefix] in H; [by injection H as <-|].
  destruct s as [|b s]; [done|]. destruct (b2z a =? b2z b); [|done].
  apply IH in H. simpl. lia.
Qed.

Lemma literal_length name v s x r :
  name ≠ EmptyString → literal name v s = Some (x, r) → (length r < length s)%nat.
Proof.
  unfold literal. intros Hn H. destruct (strip_prefix _ s) as [r'|] eqn:E; [|done].
  injection H as <- <-. apply strip_prefix_length in E. destruct name; [done|].
  simpl in E. lia.
Qed.

(** Fuel: what parses with some fuel parses with any fuel that is at least
    the number of bytes read. *)
Lemma fuel_enough f :
  (∀ d s v r, value f d s = Some (v, r) →
     (length r < length s)%nat
     ∧ ∀ g, (length s - length r ≤ g)%nat → value g d s = Some (v, r))
  ∧ (∀ d s vs r, elements f d s = Some (vs, r) →
     (length r < length s)%nat
     ∧ ∀ g, (length s - length r ≤ g)%nat → elements g d s = Some (vs, r))
  ∧ (∀ d s kvs r, members f d s = Some (kvs, r) →
     (length r < length s)%nat
     ∧ ∀ g, (length s - length r ≤ g)%nat → members g d s = Some (kvs, r)).
Proof.
  induction f as [|f (IHv & IHe & IHm)]; [done|].
  split; [|split]; intros d s.
  - intros v r H. pose proof (skip_ws_length s) as Hws. cbn [value] in H.
    destruct (skip_ws s) as [|b rest] eqn:Ews; [done|]. cbn [length] in Hws.
    destruct (b2z b =? c_lbrace) eqn:E1.
    { destruct (maxNestingDepth <? d + 1)%N eqn:Ed; [done|].
      pose proof (skip_ws_length rest) as Hr.
      destruct (skip_ws rest) as [|e rest'] eqn:Ewr; [done|]. cbn [length] in Hr.
      destruct (b2z e =? c_rbrace) eqn:E2.
      - injection H as <- <-. split; [lia|]. intros [|g] Hg; [lia|].
        cbn [value]. by rewrite Ews, E1, Ed, Ewr, E2.
      - destruct (members f _ rest) as [[kvs r']|] eqn:Em; [|done]. injection H as <- <-.
        apply IHm in Em as [Em1 Em2]. split; [lia|]. intros [|g] Hg; [lia|].
        cbn [value]. rewrite Ews, E1, Ed, Ewr, E2, Em2; [done|lia]. }
    destruct (b2z b =? c_lbrack) eqn:E2.
    { destruct (maxNestingDepth <? d + 1)%N eqn:Ed; [done|].
      pose proof (skip_ws_length rest) as Hr.
      destruct (skip_ws rest) as [|e rest'] eqn:Ewr; [done|]. cbn [length] in Hr.
      destruct (b2z e =? c_rbrack) eqn:E3.
      - injection H as <- <-. split; [lia|]. intros [|g] Hg; [lia|].
        cbn [value]. by rewrite Ews, E1, E2, Ed, Ewr, E3.
      - destruct (elements f _ rest) as [[vs r']|] eqn:Em; [|done]. injection H as <- <-.
        apply IHe in Em as [Em1 Em2]. split; [lia|]. intros [|g] Hg; [lia|].
        cbn [value]. rewrite Ews, E1, E2, Ed, Ewr, E3, Em2; [done|lia]. }
    assert (Hlen : (length r < length s)%nat).
    { destruct (b2z b =? c_quote).
      { destruct (string_body 0 rest) as [[out r']|] eqn:E; [|done]. injection H as <- <-.
        apply string_body_length in E. lia. }
      destruct (b2z b =? 116); [apply literal_length in H; [simpl in *; lia | done]|].
      destruct (b2z b =? 102); [apply literal_length in H; [simpl in *; lia | done]|].
      destruct (b2z b =? 110); [apply literal_length in H; [simpl in *; lia | done]|].
      destruct (number _) as [[n r']|] eqn:E; [|done]. injection H as <- <-.
      apply number_length in E. simpl in *. lia. }
    split; [exact Hlen|]. intros [|g] Hg; [lia|].
    cbn [value]. rewrite Ews, E1, E2. exact H.
  - intros vs r H. rewrite elements_eq in H.
    destruct (value f d s) as [[v r1]|] eqn:Ev; [|done]. apply IHv in Ev as [Ev1 Ev2].
    pose proof (skip_ws_length r1) as Hws.
    destruct (skip_ws r1) as [|e r'] eqn:Ews; [done|]. cbn [length] in Hws.
    destruct (b2z e =? c_comma) eqn:Ec.
    + destruct (elements f d r') as [[vs' r'']|] eqn:Ee; [|done]. injection H as <- <-.
      apply IHe in Ee as [Ee1 Ee2]. split; [lia|]. intros g Hg. destruct g as [|g]; [lia|].
      rewrite elements_eq, Ev2, Ews, Ec, Ee2 by lia. done.
    + destruct (b2z e =? c_rbrack) eqn:Eb; [|done]. injection H as <- <-.
      split; [lia|]. intros g Hg. destruct g as [|g]; [lia|].
      rewrite elements_eq, Ev2, Ews, Ec, Eb by lia. done.
  - intros kvs r H. rewrite members_eq in H. pose proof (skip_ws_length s) as Hws0.
    destruct (skip_ws s) as [|q r0] eqn:Ews0; [done|]. cbn [length] in Hws0.
    destruct (b2z q =? c_quote) eqn:Eq; [|done].
    destruct (string_body 0 r0) as [[k r1]|] eqn:Ek; [|done].
    pose proof (string_body_length _ _ _ _ Ek) as Hk.
    pose proof (skip_ws_length r1) as Hws1.
    destruct (skip_ws r1) as [|c r2] eqn:Ews1; [done|]. cbn [length] in Hws1.
    destruct (b2z c =? c_colon) eqn:Ecol; [|done].
    destruct (value f d r2) as [[v r3]|] eqn:Ev; [|done]. apply IHv in Ev as [Ev1 Ev2].
    pose proof (skip_ws_length r3) as Hws3.
    destruct (skip_ws r3) as [|e r4] eqn:Ews3; [done|]. cbn [length] in Hws3.
    destruct (b2z e =? c_comma) eqn:Ec.
    + destruct (members f d r4) as [[kvs' r5]|] eqn:Em; [|done]. injection H as <- <-.
      apply IHm in Em as [Em1 Em2]. split; [lia|]. intros g Hg. destruct g as [|g]; [lia|].
      rewrite members_eq, Ews0, Eq, Ek, Ews1, Ecol, Ev2, Ews3, Ec, Em2 by lia. done.
    + destruct (b2z e =? c_rbrace) eqn:Eb; [|done]. injection H as <- <-.
      split; [lia|]. intros g Hg. destruct g as [|g]; [lia|].
      rewrite members_eq, Ews0, Eq, Ek, Ews1, Ecol, Ev2, Ews3, Ec, Eb by lia. done.
Qed.

(** The fuel that [parse] gives is enough: a text that is one JSON value
    under some fuel is parsed. *)
Lemma parse_fuel_adequate f data v r :
  value f 0 data = Some (v, r) → skip_ws r = [] → parse data = Some v.
Proof.
  intros H Hr. apply (proj1 (fuel_enough f)) in H as [_ H].
  unfold parse. rewrite H by lia. by rewrite Hr.
Qed.


(** ** The defaults and the envelope *)

Lemma string_elem_valid v s :
  valid_tree v = true → string_elem v = inr s → ValidString s = true.
Proof. destruct v; cbn; intros Hv [= <-]; done. Qed.

Lemma string_elems_valid xs : ∀ ss,
  forallb valid_tree xs = true → string_elems xs = inr ss →
  Forall (λ s, ValidString s = true) ss.
Proof.
  induction xs as [|v xs IH]; intros ss Hv H; cbn [string_elems forallb] in *.
  - injection H as <-. apply Forall_nil. exact I.
  - apply andb_prop in Hv as [Hv Hvs].
    destruct (string_elem v) as [e|s] eqn:Es; [by destruct (string_elems xs)|].
    destruct (string_elems xs) as [e|ss'] eqn:Ess; [done|]. injection H as <-.
    apply Forall_cons. split; [by eapply string_elem_valid | by apply IH].
Qed.

Lemma string_members_valid kvs : ∀ m0 m,
  forallb (λ kv, ValidString (fst kv) && valid_tree (snd kv)) kvs = true →
  map_Forall (λ k v, valid_pair (k, v)) m0 →
  string_members kvs m0 = inr m →
  map_Forall (λ k v, valid_pair (k, v)) m.
Proof.
  induction kvs as [|[k v] kvs IH]; intros m0 m Hv H0 H; cbn [string_members forallb] in *.
  - by injection H as <-.
  - apply andb_prop in Hv as [Hkv Hvs]. cbn [fst snd] in Hkv.
    apply andb_prop in Hkv as [Hk Hv].
    destruct (string_elem v) as [e|s] eqn:Es; [done|].
    eapply IH; [done | | done].
    apply map_Forall_insert_2; [|done]. split; [done|]. by eapply string_elem_valid.
Qed.

(** The defaults that [init] loads are valid UTF-8. *)
Lemma init_valid environ d :
  init environ = Loaded d →
  Forall (λ s, ValidString s = true) (default [] (defaultTags d))
  ∧ Forall valid_pair (default [] (map_to_list <$> defaultLabels d)).
Proof.
  unfold init, Unmarshal_strings, Unmarshal_string_map.
  set (tagsFromEnv := match environ !! "HABERDASHER_TAGS"%string with Some v => v | None => _ end).
  set (labelsFromEnv := match environ !! "HABERDASHER_LABELS"%string with Some v => v | None => _ end).
  destruct (parse (bytes_of_string tagsFromEnv)) as [vt|] eqn:Et; [|done].
  destruct (decode_strings vt) as [e|tags] eqn:Edt; [done|].
  destruct (parse (bytes_of_string labelsFromEnv)) as [vl|] eqn:El; [|done].
  destruct (decode_string_map vl) as [e|labels] eqn:Edl; [done|].
  intros [= <-]. cbn [defaultTags defaultLabels].
  apply parse_valid in Et, El. split.
  - destruct vt; try done; cbn [decode_strings] in Edt.
    + injection Edt as <-. apply Forall_nil. exact I.
    + destruct (string_elems xs) eqn:E; [done|]. injection Edt as <-.
      cbn [default]. by eapply string_elems_valid.
  - destruct vl; try done; cbn [decode_string_map] in Edl.
    + injection Edl as <-. apply Forall_nil. exact I.
    + destruct (string_members kvs ∅) as [e|m] eqn:E; [done|]. injection Edl as <-.
      cbn [default fmap option_fmap option_map].
      eapply string_members_valid in E; [|done|apply map_Forall_empty].
      apply map_Forall_to_list in E. apply (Forall_impl _ _ _ E). by intros [k v].
Qed.

(** The envelope, read back: five members; the message is the line coerced
    to UTF-8, and the labels and tags decode to the defaults. *)
Theorem wrap_reads_back environ d now line :
  init environ = Loaded d →
  time.writable now = true →
  ∃ labels tags,
    parse (wrap d now line)
    = Some (Object
        [ ("ecs.version"%string, String defaultEcsVersion);
          ("@timestamp"%string, String (string_of_bytes (time.format_RFC3339Nano now)));
          ("labels"%string, labels);
          ("tags"%string, tags);
          ("message"%string, String (coerce line)) ])
    ∧ decode_string_map labels = inr (defaultLabels d)
    ∧ decode_strings tags = inr (defaultTags d).
Proof.
  intros Hinit Hy. apply init_valid in Hinit as [Ht Hl].
  unfold wrap.
  destruct (Marshal (envelope d now line)) as [bs|] eqn:E.
  - apply parse_Marshal in E. rewrite E.
    exists (json_of_string_map (defaultLabels d)), (json_of_strings (defaultTags d)).
    split; [reflexivity|]. split.
    + by apply decode_json_of_string_map.
    + by apply decode_json_of_strings.
  - exfalso. unfold Marshal, time.MarshalJSON in E. cbn [envelope Timestamp] in E.
    rewrite Hy in E. discriminate E.
Qed.


(** ** The supervisor *)

Lemma records_app evs1 evs2 : records (evs1 ++ evs2) = records evs1 ++ records evs2.
Proof. unfold records. apply omap_app. Qed.

Lemma delivered_record {St} evs (w : world St) :
  delivered (record evs w) = delivered w ++ records evs.
Proof.
  unfold delivered, record. cbn [trace]. by rewrite rev_app_distr, rev_involutive, records_app.
Qed.

Lemma run_app {St} (c : config St) d s1 s2 w :
  run c d (s1 ++ s2) w = run c d s2 (run c d s1 w).
Proof. unfold run. apply fold_left_app. Qed.

(** Once the process has ended nothing happens any more. *)
Lemma run_stopped {St} (c : config St) d sched w :
  state w ≠ Running → run c d sched w = w.
Proof.
  intros H. induction sched as [|a sched IH]; [done|].
  cbn [run fold_left]. unfold step at 2. destruct (state w) eqn:E; [done|..]; exact IH.
Qed.

Lemma messageToEmit_valid d now text : spec.valid_record d (messageToEmit d now text).
Proof.
  unfold spec.valid_record, messageToEmit.
  destruct (Unmarshal_object (bytes_of_string text)) eqn:E; [right; eauto | by left].
Qed.

Lemma Emit_records {St} d (e : Emitter St) now text sink :
  records (snd (Emit d e now text sink)) = [messageToEmit d now text].
Proof. unfold Emit. by destruct (HandleLogMessage _ _ _) as [s' [err|]]. Qed.

Lemma signalHandler_records {St} pid (e : option (Emitter St)) sig sink :
  records (snd (fst (signalHandler pid e sig sink))) = [].
Proof.
  unfold signalHandler. destruct e as [e|]; [|done]. by destruct (Cleanup e sink) as [s' [err|]].
Qed.

Lemma read_loop_inv_boot {St} (c : config St) d s0 : spec.read_loop_inv c d (boot c s0).
Proof.
  unfold spec.read_loop_inv, spec.lines_read. cbn. split; [apply Forall_nil; exact I|].
  split; [by destruct (spawn c)|done].
Qed.

(** The statements of [main] hand nothing to the sink. *)
Lemma delivered_main_step {St} (c : config St) (w : world St) :
  delivered (main_step c w) = delivered w.
Proof.
  unfold main_step, begin, setup, start, record_pid, scan, fatal, delivered.
  destruct (pc w); cbn [trace]; try done.
  - cbn [rev]. rewrite !records_app. cbn. by rewrite !app_nil_r.
  - destruct (emitter w); cbn; [|done]. rewrite records_app. cbn. by rewrite app_nil_r.
  - destruct (Args c) as [|? [|? ?]]; [done..|].
    destruct (spawn c); cbn; rewrite records_app; cbn; by rewrite app_nil_r.
  - by destruct (input w).
Qed.

Lemma delivered_task_step {St} d now (w : world St) n e :
  tasks w = S n → emitter w = Some e →
  delivered (task_step d now w) = delivered w ++ [messageToEmit d now (token w)]
  ∧ tasks (task_step d now w) = n
  ∧ pc (task_step d now w) = pc w ∧ input (task_step d now w) = input w
  ∧ state (task_step d now w) = state w.
Proof.
  intros Ht He. unfold task_step. rewrite Ht, He.
  pose proof (Emit_records d e now (token w) (sink w)) as Hr.
  destruct (Emit d e now (token w) (sink w)) as [sink' evs]. cbn [snd] in Hr.
  split; [|done].
  change (delivered (set_tasks n (set_sink sink' (record evs w))))
    with (delivered (record evs w)).
  by rewrite delivered_record, Hr.
Qed.

Lemma delivered_handler_step {St} (c : config St) (w : world St) :
  delivered (handler_step c w) = delivered w
  ∧ tasks (handler_step c w) = tasks w ∧ pc (handler_step c w) = pc w
  ∧ input (handler_step c w) = input w.
Proof.
  unfold handler_step. destruct (signalChan w) as [sig|]; [|done].
  pose proof (signalHandler_records (subcmdPid w) (emitter w) sig (sink w)) as Hr.
  destruct (signalHandler _ _ _ _) as [[sink' evs] st]. cbn [fst snd] in Hr.
  split; [|done]. unfold delivered. cbn [trace].
  by rewrite rev_app_distr, rev_involutive, records_app, Hr, app_nil_r.
Qed.

Lemma signal_step_same {St} sig (w : world St) :
  delivered (signal_step sig w) = delivered w
  ∧ tasks (signal_step sig w) = tasks w ∧ pc (signal_step sig w) = pc w
  ∧ input (signal_step sig w) = input w.
Proof. unfold signal_step. repeat case_match; done. Qed.

Lemma main_step_loop {St} (c : config St) d (w : world St) :
  spec.read_loop_inv c d w →
  (tasks (main_step c w) + spec.lines_read c w)%nat
  = (tasks w + spec.lines_read c (main_step c w))%nat
  ∧ match pc (main_step c w) with
    | AtScan | AtReturn =>
      ∃ child lines, spawn c = Started child lines
                     ∧ (length (input (main_step c w)) ≤ length lines)%nat
    | AtRecordPid _ =>
      ∃ child lines, spawn c = Started child lines ∧ input (main_step c w) = lines
    | _ => True
    end.
Proof.
  intros (_ & _ & Hp). unfold spec.lines_read, main_step.
  destruct (pc w) eqn:Epc.
  - cbn. by destruct (spawn c).
  - unfold setup. destruct (emitter w); cbn; rewrite ?Epc; by destruct (spawn c).
  - unfold start. destruct (Args c) as [|? [|? ?]]; cbn; rewrite ?Epc; try by destruct (spawn c).
    destruct (spawn c) as [err|err|ch lines] eqn:Esp; cbn; rewrite ?Epc; eauto.
  - destruct Hp as (ch & lines & Esp & Hin). rewrite Esp. cbn. rewrite Hin.
    split; [lia|eauto].
  - destruct Hp as (ch & lines & Esp & Hin). rewrite Esp. unfold scan.
    destruct (input w) as [|line rest] eqn:Ein; cbn in *.
    + split; [lia|]. exists ch, lines. split; [done|lia].
    + split; [lia|]. exists ch, lines. split; [done|lia].
  - cbn. rewrite Epc. done.
Qed.

Lemma read_loop_inv_step {St} (c : config St) d a (w : world St) :
  spec.read_loop_inv c d w → spec.read_loop_inv c d (step c d a w).
Proof.
  intros Hinv. pose proof Hinv as (Hv & Hn & Hp).
  unfold step. destruct (state w); try done.
  destruct a as [|now| |sig].
  - destruct (main_step_loop c d w Hinv) as [Hl Hp'].
    unfold spec.read_loop_inv. rewrite delivered_main_step. repeat split; [done|lia|done].
  - unfold spec.read_loop_inv.
    destruct (tasks w) as [|n] eqn:Et; [by unfold task_step; rewrite Et|].
    destruct (emitter w) as [e|] eqn:Ee; [|by unfold task_step; rewrite Et, Ee].
    destruct (delivered_task_step d now w n e Et Ee) as (Hd & Ht' & Hpc & Hin & _).
    unfold spec.lines_read in *. rewrite Hd, Ht', Hpc, Hin. repeat split.
    + apply Forall_app. split; [done|]. apply Forall_cons.
      split; [apply messageToEmit_valid | apply Forall_nil; exact I].
    + rewrite length_app. simpl. lia.
    + done.
  - destruct (delivered_handler_step c w) as (Hd & Ht' & Hpc & Hin).
    unfold spec.read_loop_inv, spec.lines_read in *. by rewrite Hd, Ht', Hpc, Hin.
  - destruct (signal_step_same sig w) as (Hd & Ht' & Hpc & Hin).
    unfold spec.read_loop_inv, spec.lines_read in *. by rewrite Hd, Ht', Hpc, Hin.
Qed.

(** The invariant of the read loop holds after every schedule. *)
Lemma read_loop_inv_run {St} (c : config St) d sched : ∀ w,
  spec.read_loop_inv c d w → spec.read_loop_inv c d (run c d sched w).
Proof.
  induction sched as [|a sched IH]; intros w Hw; [done|].
  cbn [run fold_left]. apply IH, read_loop_inv_step, Hw.
Qed.


(** ** The claims *)

(** *** The registry *)

(** C10: after [Register(name, e)] the registry gives [e] for [name],
    whatever it held before: a second registration under a name replaces the
    first, and the other names are left alone. *)
Theorem Register_last_wins {St} (name : string) (e1 e2 : Emitter St)
        (Emitters : gmap string (Emitter St)) :
  Register name e2 Emitters !! name = Some e2
  ∧ Register name e2 (Register name e1 Emitters) !! name = Some e2
  ∧ ∀ other, other ≠ name → Register name e2 Emitters !! other = Emitters !! other.
Proof.
  unfold Register. split; [apply lookup_insert_eq|].
  split; [apply lookup_insert_eq|].
  intros other Hne. by apply lookup_insert_ne.
Qed.

(** *** Classification of a line *)

(** A line that is a JSON object whose numbers fit a float64 is one the
    decoder accepts. *)
Lemma Unmarshal_object_accepts data kvs :
  parse data = Some (Object kvs) →
  forallb (λ kv, interface_ok (snd kv)) kvs = true →
  Unmarshal_object data = None.
Proof. unfold Unmarshal_object. by intros -> ->. Qed.

(** The largest float64 is accepted, the next decimal of the same length is
    out of range, and so is the object that holds it. *)
Lemma float64_range_examples :
  (number (bytes_of_string "1.7976931348623157e308") ≫= λ n, Some (float64_overflows (fst n)))
  = Some false
  ∧ (number (bytes_of_string "1.7976931348623159e308") ≫= λ n, Some (float64_overflows (fst n)))
    = Some true
  ∧ (number (bytes_of_string "-0.0e999") ≫= λ n, Some (float64_overflows (fst n)))
    = Some false
  ∧ Unmarshal_object (bytes_of_string (String.append "{" (String.append (sample.quoted "a") ":1e999}")))
    = Some (UnmarshalTypeError "number").
Proof. vm_compute. repeat split. Qed.



(** C9: a line that is valid JSON but an array, a string, a number or a
    boolean is wrapped in the envelope; a line that is [null] is not an object
    either, yet it is handed over as it is, the literal line [null] among
    them. *)
Theorem non_object_lines (d : defaults) (now : time.Time) (line : string) (v : json.t) :
  parse (bytes_of_string line) = Some v →
  match v with
  | Array _ | String _ | Number _ | Bool _ => messageToEmit d now line = wrap d now line
  | Null => messageToEmit d now line = bytes_of_string line
  | Object _ => True
  end
  ∧ messageToEmit d now "null" = bytes_of_string "null".
Proof.
  intros H. split; [|reflexivity].
  unfold messageToEmit, Unmarshal_object. rewrite H. by destruct v.
Qed.

Lemma non_object_lines_witness :
  messageToEmit sample.no_defaults sample.noon "[1]"
  = wrap sample.no_defaults sample.noon "[1]".
Proof.
  refine (proj1 (non_object_lines sample.no_defaults sample.noon "[1]"
                   (Array [Number {| neg := false; ipart := ["1"%byte]; fpart := [];
                                     eneg := false; epart := [] |}]) _)).
  vm_compute. reflexivity.
Defined.

(** The line made of the byte [0xFF] is wrapped, and its message reads back
    as U+FFFD, the three bytes [EF BF BD]. *)
Lemma invalid_utf8_line_reads_as_replacement :
  Unmarshal_object [xff] = Some SyntaxError
  ∧ parse (messageToEmit sample.no_defaults sample.noon (string_of_bytes [xff]))
    = Some (Object
        [ ("ecs.version"%string, String "1.5.0");
          ("@timestamp"%string, String "2020-07-04T12:00:00Z");
          ("labels"%string, Object []);
          ("tags"%string, Array []);
          ("message"%string, String (string_of_bytes [xef; xbf; xbd])) ]).
Proof. split; vm_compute; reflexivity. Qed.

(** The claim C2 as it stands fails on a line that is not valid UTF-8: the
    byte [0xFF] comes back as U+FFFD. *)
Lemma invalid_utf8_line_is_rewritten :
  ¬ spec.message_is_the_line sample.no_defaults sample.noon (string_of_bytes [xff]).
Proof.
  intros (version & timestamp & labels & tags & H).
  vm_compute in H. discriminate H.
Qed.

(** C2, amended: for a line that the decoder rejects, under defaults loaded
    by [init] and a clock reading that RFC 3339 can write, the record parses
    as an object of exactly the five members [ecs.version], [@timestamp],
    [labels], [tags] and [message]; the version is ["1.5.0"], the timestamp
    the RFC 3339 text of the clock reading, the labels and tags decode to the
    defaults, and the message is the line coerced to valid UTF-8: the line
    itself when it is valid UTF-8. *)
Theorem envelope_reads_back (environ : gmap string string) (d : defaults)
        (now : time.Time) (line : string) :
  init environ = Loaded d →
  Unmarshal_object (bytes_of_string line) ≠ None →
  time.writable now = true →
  ∃ labels tags,
    parse (messageToEmit d now line)
    = Some (Object
        [ ("ecs.version"%string, String defaultEcsVersion);
          ("@timestamp"%string, String (string_of_bytes (time.format_RFC3339Nano now)));
          ("labels"%string, labels);
          ("tags"%string, tags);
          ("message"%string, String (coerce line)) ])
    ∧ decode_string_map labels = inr (defaultLabels d)
    ∧ decode_strings tags = inr (defaultTags d)
    ∧ (ValidString line = true → coerce line = line).
Proof.
  intros Hinit Herr Hy.
  destruct (wrap_reads_back environ d now line Hinit Hy) as (labels & tags & Hp & Hl & Ht).
  exists labels, tags. unfold messageToEmit.
  destruct (Unmarshal_object (bytes_of_string line)); [|done].
  repeat split; try done. apply coerce_valid.
Qed.

Lemma envelope_reads_back_witness :
  ∃ labels tags,
    parse (messageToEmit sample.no_defaults sample.noon "plain text line")
    = Some (Object
        [ ("ecs.version"%string, String defaultEcsVersion);
          ("@timestamp"%string,
           String (string_of_bytes (time.format_RFC3339Nano sample.noon)));
          ("labels"%string, labels);
          ("tags"%string, tags);
          ("message"%string, String (coerce "plain text line")) ])
    ∧ decode_string_map labels = inr (defaultLabels sample.no_defaults)
    ∧ decode_strings tags = inr (defaultTags sample.no_defaults)
    ∧ (ValidString "plain text line" = true → coerce "plain text line" = "plain text line"%string).
Proof.
  apply (envelope_reads_back ∅).
  - vm_compute. reflexivity.
  - vm_compute. intros H. discriminate H.
  - vm_compute. reflexivity.
Defined.

(** *** Signals *)

Lemma signalToSendChild_same sig :
  spec.termination_signal sig → signalToSendChild sig = sig.
Proof. by intros [-> | [-> | [-> | ->]]]. Qed.

(** What [signalHandler] does for an emitter that is not nil. *)
Lemma signalHandler_effects {St} pid (e : Emitter St) sig sink :
  ∃ sink' evs, signalHandler pid (Some e) sig sink = (sink', evs, Exited 0)
    ∧ spec.effects evs = [EvKill pid (signalToSendChild sig); EvCleanup]
    ∧ sink' = fst (Cleanup e sink)
    ∧ ∀ err, snd (Cleanup e sink) = Some err → last evs = Some (EvLog (LogCleanupError err)).
Proof.
  unfold signalHandler. destruct (Cleanup e sink) as [sink' [err|]]; do 2 eexists;
    (split; [reflexivity|]); repeat split; try done.
  by intros ? [= <-].
Qed.

(** A positive [pid] names one process. *)
Lemma Kill_targets_one self procs pid p :
  0 < pid → p ∈ syscall.Kill_targets self procs pid → p = pid.
Proof.
  intros Hpid. unfold syscall.Kill_targets.
  intros (q & -> & Hq)%list_elem_of_fmap. apply list_elem_of_filter in Hq as [Hq _].
  destruct (Z.ltb_spec 0 pid); [|lia]. by apply Z.eqb_eq in Hq.
Qed.

Lemma Kill_targets_child self procs (ch : syscall.proc) :
  0 < syscall.p_pid ch → ch ∈ procs →
  syscall.p_pid ch ∈ syscall.Kill_targets self procs (syscall.p_pid ch).
Proof.
  intros Hpid Hin. unfold syscall.Kill_targets. apply list_elem_of_fmap.
  exists ch. split; [done|]. apply list_elem_of_filter. split; [|done].
  destruct (Z.ltb_spec 0 (syscall.p_pid ch)); [|lia]. apply Z.eqb_refl.
Qed.

(** A hangup, an interrupt or a termination signal that arrives once
    [signal.Notify] has run, with the channel empty, is put in the channel. *)
Lemma signal_is_queued {St} (c : config St) d (w : world St) sig :
  state w = Running → notified w = true → signalChan w = None →
  sig = syscall.SIGHUP ∨ sig = syscall.SIGINT ∨ sig = syscall.SIGTERM →
  step c d (Signal sig) w = set_signalChan (Some sig) w.
Proof.
  intros Hrun Hn Hch Hsig. unfold step, signal_step. rewrite Hrun, Hn, Hch.
  by destruct Hsig as [-> | [-> | ->]].
Qed.

(** C3: when [signalHandler] receives one of the four signals, the same
    signal goes to the process that [subcmdPid] names, [Cleanup] is called,
    and the process ends with status 0 in that same step: the goroutines of
    the read loop that have not run stay where they are, the main goroutine
    does not move, nothing more is delivered, and nothing happens after. *)
Theorem signal_is_relayed_and_supervisor_exits {St} (c : config St) (d : defaults)
        (w : world St) (e : Emitter St) (sig : Z) :
  state w = Running → signalChan w = Some sig → emitter w = Some e →
  spec.termination_signal sig →
  ∃ evs,
    trace (step c d RunHandler w) = rev evs ++ trace w
    ∧ spec.effects evs = [EvKill (subcmdPid w) sig; EvCleanup]
    ∧ state (step c d RunHandler w) = Exited 0
    ∧ signalled (step c d RunHandler w)
      = rev (map (λ p, (p, sig))
                 (syscall.Kill_targets (self c) (processes w) (subcmdPid w)))
        ++ signalled w
    ∧ (∀ ch, ch ∈ processes w → syscall.p_pid ch = subcmdPid w → 0 < subcmdPid w →
         (subcmdPid w, sig) ∈ signalled (step c d RunHandler w)
         ∧ ∀ p, p ∈ syscall.Kill_targets (self c) (processes w) (subcmdPid w) →
                p = subcmdPid w)
    ∧ tasks (step c d RunHandler w) = tasks w
    ∧ pc (step c d RunHandler w) = pc w
    ∧ delivered (step c d RunHandler w) = delivered w
    ∧ ∀ sched, run c d sched (step c d RunHandler w) = step c d RunHandler w.
Proof.
  intros Hrun Hch Hem Hsig.
  destruct (delivered_handler_step c w) as (Hd & Ht & Hpc & _).
  unfold step. rewrite Hrun. rewrite Hd, Ht, Hpc.
  unfold handler_step. rewrite Hch, Hem.
  destruct (signalHandler_effects (subcmdPid w) e sig (sink w))
    as (sink' & evs & -> & Heff & _ & _).
  rewrite (signalToSendChild_same sig Hsig) in *.
  exists evs. cbn [trace state signalled].
  split; [done|]. split; [done|]. split; [done|]. split; [done|].
  split; [|split; [done|split; [done|split; [done|]]]].
  - intros ch Hin Hpid Hpos. split.
    + apply elem_of_app. left. apply list_elem_of_In. rewrite <- in_rev.
      apply list_elem_of_In, list_elem_of_fmap.
      exists (subcmdPid w). split; [done|]. rewrite <- Hpid.
      apply Kill_targets_child; [lia|done].
    + intros p Hp. by eapply Kill_targets_one.
  - intros sched. by apply run_stopped.
Qed.

Lemma signal_is_relayed_and_supervisor_exits_witness :
  state (step (sample.two_lines ∅ sample.collector) sample.no_defaults RunHandler
              sample.interrupted) = Exited 0
  ∧ signalled (step (sample.two_lines ∅ sample.collector) sample.no_defaults RunHandler
                    sample.interrupted) = [(7, syscall.SIGINT)].
Proof.
  destruct (signal_is_relayed_and_supervisor_exits
              (sample.two_lines ∅ sample.collector) sample.no_defaults
              sample.interrupted sample.collector syscall.SIGINT
              eq_refl eq_refl eq_refl (or_intror (or_introl eq_refl)))
    as (evs & _ & _ & Hst & Hsig & _).
  split; [exact Hst|]. rewrite Hsig. vm_compute. reflexivity.
Defined.

(** Until line 81 has run, [subcmdPid] is [-1]. *)
Lemma sentinel_until_recorded {St} (c : config St) d sched s0 :
  match pc (run c d sched (boot c s0)) with
  | AtSetup | AtSpawn | AtRecordPid _ => subcmdPid (run c d sched (boot c s0)) = -1
  | _ => True
  end.
Proof.
  assert (Hstep : ∀ a (w : world St),
            match pc w with AtSetup | AtSpawn | AtRecordPid _ => subcmdPid w = -1 | _ => True end →
            match pc (step c d a w) with
            | AtSetup | AtSpawn | AtRecordPid _ => subcmdPid (step c d a w) = -1
            | _ => True
            end).
  { intros a w Hw. unfold step. destruct (state w); try done. destruct a as [|now| |sig].
    - unfold main_step, setup, start, scan, fatal.
      destruct (pc w) eqn:E; cbn; rewrite ?E; try done.
      + destruct (emitter w); cbn; by rewrite ?E.
      + destruct (Args c) as [|? [|? ?]]; cbn; rewrite ?E; try done.
        destruct (spawn c); cbn; by rewrite ?E.
      + by destruct (input w).
    - unfold task_step. destruct (tasks w), (emitter w); try done.
      by destruct (Emit _ _ _ _ _).
    - unfold handler_step. destruct (signalChan w); [|done].
      by destruct (signalHandler _ _ _ _) as [[? ?] ?].
    - unfold signal_step. destruct (sig =? syscall.SIGKILL); [exact Hw|].
      destruct (_ || _); [|exact Hw].
      destruct (notified w); [destruct (signalChan w); exact Hw | exact Hw]. }
  unfold run. generalize (boot c s0), (I : match pc (boot c s0) with
     AtSetup | AtSpawn | AtRecordPid _ => subcmdPid (boot c s0) = -1 | _ => True end).
  induction sched as [|a sched IH]; intros w Hw; [done|].
  cbn [fold_left]. by apply IH, Hstep.
Qed.

(** With [-1] for a process identifier, [Kill] signals every process in
    sight but process 1 and the caller. *)
Lemma Kill_targets_broadcast self procs (p : syscall.proc) :
  p ∈ procs → syscall.p_pid p ≠ 1 → syscall.p_pid p ≠ syscall.p_pid self →
  syscall.p_pid p ∈ syscall.Kill_targets self procs (-1).
Proof.
  intros Hin H1 Hs. unfold syscall.Kill_targets. apply list_elem_of_fmap.
  exists p. split; [done|]. apply list_elem_of_filter. split; [|done]. cbn.
  destruct (Z.eqb_spec (syscall.p_pid p) 1), (Z.eqb_spec (syscall.p_pid p) (syscall.p_pid self));
    done.
Qed.

(** While [subcmdPid] is [-1], the handler signals every process in sight
    but process 1 and the supervisor itself. *)
Lemma early_signal_reaches_every_process {St} (c : config St) d (w : world St) sig
      (p : syscall.proc) :
  state w = Running → signalChan w = Some sig → subcmdPid w = -1 →
  p ∈ processes w → syscall.p_pid p ≠ 1 → syscall.p_pid p ≠ syscall.p_pid (self c) →
  (syscall.p_pid p, signalToSendChild sig) ∈ signalled (step c d RunHandler w).
Proof.
  intros Hrun Hch Hpid Hin H1 Hs. unfold step, handler_step. rewrite Hrun, Hch, Hpid.
  destruct (signalHandler _ _ _ _) as [[sink' evs] st]. cbn [signalled].
  apply elem_of_app. left. apply list_elem_of_In. rewrite <- in_rev.
  apply list_elem_of_In, list_elem_of_fmap. exists (syscall.p_pid p).
  split; [done|]. by apply Kill_targets_broadcast.
Qed.

(** C4, on the code: a signal that arrives before the child is started finds
    [-1] in [subcmdPid], and [syscall.Kill(-1, sig)] delivers it to the other
    process in sight; the supervisor then ends without having started its
    child. *)
Theorem early_signal_is_broadcast :
  pc (program (sample.two_lines ∅ sample.collector) []
              [RunMain; Signal syscall.SIGTERM; RunHandler]) = AtSetup
  ∧ subcmdPid (program (sample.two_lines ∅ sample.collector) []
                       [RunMain; Signal syscall.SIGTERM; RunHandler]) = -1
  ∧ spec.effects (rev (trace (program (sample.two_lines ∅ sample.collector) []
                                      [RunMain; Signal syscall.SIGTERM; RunHandler])))
    = [EvReap; EvKill (-1) syscall.SIGTERM; EvCleanup]
  ∧ signalled (program (sample.two_lines ∅ sample.collector) []
                       [RunMain; Signal syscall.SIGTERM; RunHandler])
    = [(syscall.p_pid sample.bystander, syscall.SIGTERM)]
  ∧ state (program (sample.two_lines ∅ sample.collector) []
                   [RunMain; Signal syscall.SIGTERM; RunHandler]) = Exited 0.
Proof. vm_compute. repeat split. Qed.

(** *** Configuration *)

Lemma string_elems_rejects xs :
  forallb spec.is_string_or_null xs = false → ∃ e, string_elems xs = inl e.
Proof.
  induction xs as [|v xs IH]; [done|]. cbn [forallb string_elems].
  intros [Hv | Hxs]%andb_false_iff.
  - destruct v; try done; cbn [string_elem]; destruct (string_elems xs); eauto.
  - destruct (IH Hxs) as [e He]. rewrite He. destruct (string_elem v); eauto.
Qed.

Lemma string_members_rejects kvs : ∀ m,
  forallb (λ kv, spec.is_string_or_null (snd kv)) kvs = false →
  ∃ e, string_members kvs m = inl e.
Proof.
  induction kvs as [|[k v] kvs IH]; intros m; [done|]. cbn [forallb string_members snd].
  intros [Hv | Hxs]%andb_false_iff.
  - destruct v; try done; cbn [string_elem]; eauto.
  - destruct (string_elem v); eauto.
Qed.

Lemma Unmarshal_strings_rejects data :
  spec.lenient_array data = false → ∃ e, Unmarshal_strings data = inl e.
Proof.
  unfold spec.lenient_array, Unmarshal_strings.
  destruct (parse data) as [v|]; [|eauto].
  destruct v; cbn [decode_strings]; try done; eauto.
  intros [e ->]%string_elems_rejects. eauto.
Qed.

Lemma Unmarshal_string_map_rejects data :
  spec.lenient_object data = false → ∃ e, Unmarshal_string_map data = inl e.
Proof.
  unfold spec.lenient_object, Unmarshal_string_map.
  destruct (parse data) as [v|]; [|eauto].
  destruct v; cbn [decode_string_map]; try done; eauto.
  intros [e ->]%(string_members_rejects _ ∅). eauto.
Qed.

Lemma init_rejects environ :
  spec.lenient_array (spec.tags_text environ) = false
  ∨ spec.lenient_object (spec.labels_text environ) = false →
  ∃ msg, init environ = Fatal msg.
Proof.
  unfold init, spec.tags_text, spec.labels_text.
  intros [H | H].
  - apply Unmarshal_strings_rejects in H as [e ->]. eauto.
  - apply Unmarshal_string_map_rejects in H as [e ->].
    destruct (Unmarshal_strings _); eauto.
Qed.

Lemma string_elems_accepts xs :
  forallb spec.is_string_or_null xs = true → ∃ ss, string_elems xs = inr ss.
Proof.
  induction xs as [|v xs IH]; [by eexists|]. cbn [forallb string_elems].
  intros [Hv [ss Hss]%IH]%andb_prop. rewrite Hss. destruct v; try done; by eexists.
Qed.

Lemma string_members_accepts kvs : ∀ m,
  forallb (λ kv, spec.is_string_or_null (snd kv)) kvs = true →
  ∃ m', string_members kvs m = inr m'.
Proof.
  induction kvs as [|[k v] kvs IH]; intros m; [by eexists|]. cbn [forallb string_members snd].
  intros [Hv Hkvs]%andb_prop. destruct v; try done; cbn [string_elem]; by apply IH.
Qed.

(** What the decoder does not reject, [init] loads. *)
Lemma init_accepts environ :
  spec.lenient_array (spec.tags_text environ) = true →
  spec.lenient_object (spec.labels_text environ) = true →
  ∃ d, init environ = Loaded d.
Proof.
  unfold init, spec.tags_text, spec.labels_text, spec.lenient_array, spec.lenient_object,
    Unmarshal_strings, Unmarshal_string_map.
  intros Ht Hl.
  destruct (parse (bytes_of_string _)) as [vt|]; [|done].
  destruct (parse (bytes_of_string _)) as [vl|]; [|done].
  assert (∃ tags, decode_strings vt = inr tags) as [tags ->].
  { destruct vt; try done; cbn [decode_strings]; [by eexists|].
    apply string_elems_accepts in Ht as [ss ->]. by eexists. }
  assert (∃ labels, decode_string_map vl = inr labels) as [labels ->].
  { destruct vl; try done; cbn [decode_string_map]; [by eexists|].
    apply (string_members_accepts _ ∅) in Hl as [m ->]. by eexists. }
  by eexists.
Qed.

(** The claim C5 as it stands fails on [HABERDASHER_TAGS=null]: [null] is no
    array of strings, the decoder takes it, and the child is started. *)
Lemma null_tags_are_accepted :
  ¬ spec.malformed_is_fatal
      (sample.two_lines {[ "HABERDASHER_TAGS"%string := "null"%string ]} sample.collector) [].
Proof.
  intros H.
  destruct (H (or_introl eq_refl) [RunMain; RunMain; RunMain]) as [Hst _].
  vm_compute in Hst. discriminate Hst.
Qed.

(** With [HABERDASHER_TAGS=null] the default tags are the nil slice and the
    supervisor starts its child. *)
Lemma null_tags_start_the_child :
  spec.array_of_strings (bytes_of_string "null") = false
  ∧ init {[ "HABERDASHER_TAGS"%string := "null"%string ]}
    = Loaded {| defaultTags := None; defaultLabels := Some ∅ |}
  ∧ spec.effects
      (rev (trace (program
                     (sample.two_lines {[ "HABERDASHER_TAGS"%string := "null"%string ]}
                                       sample.collector) []
                     [RunMain; RunMain; RunMain])))
    = [EvReap; EvSetup; EvStart "/bin/app" []].
Proof. vm_compute. repeat split. Qed.

(** C5, amended: a value of [HABERDASHER_TAGS] or [HABERDASHER_LABELS] that
    the decoder rejects (a text that is not JSON, or a value other than [null]
    and than an array, for the labels an object, of strings and [null]s) ends
    the process with status 1 in [init], whatever the schedule: the only
    thing it does is to log the message; no child is started and nothing is
    handed to the sink. *)
Theorem rejected_defaults_are_fatal {St} (c : config St) (s0 : St) (sched : list action) :
  spec.lenient_array (spec.tags_text (environ c)) = false
  ∨ spec.lenient_object (spec.labels_text (environ c)) = false →
  state (program c s0 sched) = Exited 1
  ∧ (∃ msg, trace (program c s0 sched) = [EvLog (LogFatal msg)])
  ∧ spec.no_spawn_no_delivery (trace (program c s0 sched)).
Proof.
  intros [msg Hmsg]%init_rejects. unfold program. rewrite Hmsg.
  split; [done|]. split; [by exists msg|]. split; [done|].
  intros bin args Hin. cbn in Hin. apply list_elem_of_singleton in Hin. discriminate Hin.
Qed.

Lemma rejected_defaults_are_fatal_witness :
  state (program (sample.two_lines {[ "HABERDASHER_TAGS"%string := "[1]"%string ]}
                                   sample.collector) []
                 [RunMain; RunMain; RunMain]) = Exited 1.
Proof.
  refine (proj1 (rejected_defaults_are_fatal
                   (sample.two_lines {[ "HABERDASHER_TAGS"%string := "[1]"%string ]}
                                     sample.collector) [] [RunMain; RunMain; RunMain] _)).
  left. vm_compute. reflexivity.
Defined.

(** C6: with the three variables unset, the emitter is looked up under
    ["stderr"], the default tags are the empty slice and the default labels
    the empty map. *)
Theorem unset_configuration {St} (c : config St) (s0 : St) :
  environ c !! "HABERDASHER_EMITTER"%string = None →
  environ c !! "HABERDASHER_TAGS"%string = None →
  environ c !! "HABERDASHER_LABELS"%string = None →
  init (environ c) = Loaded {| defaultTags := Some []; defaultLabels := Some ∅ |}
  ∧ emitter (main_step c (boot c s0)) = Emitters c !! "stderr"%string
  ∧ EvLog (LogConfiguredEmitter "stderr") ∈ trace (main_step c (boot c s0)).
Proof.
  intros He Ht Hl. split; [|split].
  - unfold init. rewrite Ht, Hl. vm_compute. reflexivity.
  - unfold main_step, begin. cbn. by rewrite He.
  - unfold main_step, begin. cbn. rewrite He. apply list_elem_of_further, list_elem_of_here.
Qed.

Lemma unset_configuration_witness :
  init ∅ = Loaded {| defaultTags := Some []; defaultLabels := Some ∅ |}.
Proof.
  exact (proj1 (unset_configuration (sample.two_lines ∅ sample.collector) []
                                    eq_refl eq_refl eq_refl)).
Defined.

(** *** Errors of the sink *)

(** C7: an error of [HandleLogMessage] is logged and changes nothing else:
    the goroutine hands over its one record and ends, the supervisor keeps
    running, the read loop is where it was, and the record is what it would
    have been; an error of [Cleanup] is logged and the supervisor still ends
    with status 0. *)
Theorem sink_errors_are_contained {St} (c : config St) (d : defaults) (w : world St)
        (e : Emitter St) :
  state w = Running → emitter w = Some e →
  (∀ now n, tasks w = S n →
     state (step c d (RunTask now) w) = Running
     ∧ pc (step c d (RunTask now) w) = pc w
     ∧ input (step c d (RunTask now) w) = input w
     ∧ tasks (step c d (RunTask now) w) = n
     ∧ delivered (step c d (RunTask now) w)
       = delivered w ++ [messageToEmit d now (token w)]
     ∧ ∀ err,
         snd (HandleLogMessage e (messageToEmit d now (token w)) (sink w)) = Some err →
         head (trace (step c d (RunTask now) w))
         = Some (EvLog (LogEmitError (messageToEmit d now (token w)) err)))
  ∧ (∀ sig, signalChan w = Some sig →
       state (step c d RunHandler w) = Exited 0
       ∧ ∀ err, snd (Cleanup e (sink w)) = Some err →
                head (trace (step c d RunHandler w)) = Some (EvLog (LogCleanupError err))).
Proof.
  intros Hrun Hem. split.
  - intros now n Ht. unfold step. rewrite Hrun.
    destruct (delivered_task_step d now w n e Ht Hem) as (Hd & Ht' & Hpc & Hin & Hst).
    rewrite Hd, Ht', Hpc, Hin, Hst, Hrun. repeat split; try done.
    intros err Herr. unfold task_step, Emit. rewrite Ht, Hem.
    destruct (HandleLogMessage e _ (sink w)) as [sink' oerr]. cbn [snd] in Herr. by subst oerr.
  - intros sig Hch. unfold step. rewrite Hrun. unfold handler_step, signalHandler.
    rewrite Hch, Hem. destruct (Cleanup e (sink w)) as [sink' [err|]]; cbn.
    + split; [done|]. by intros ? [= <-].
    + split; [done|]. by intros ? [=].
Qed.

Lemma sink_errors_are_contained_witness :
  state (step (sample.two_lines ∅ sample.failing) sample.no_defaults
              (RunTask sample.noon) sample.one_line_read) = Running
  ∧ state (step (sample.two_lines ∅ sample.failing) sample.no_defaults RunHandler
                sample.one_line_read) = Exited 0.
Proof.
  destruct (sink_errors_are_contained (sample.two_lines ∅ sample.failing)
              sample.no_defaults sample.one_line_read sample.failing eq_refl eq_refl)
    as [Htask Hsig].
  split.
  - exact (proj1 (Htask sample.noon 0%nat eq_refl)).
  - exact (proj1 (Hsig syscall.SIGHUP eq_refl)).
Defined.

(** *** The read loop *)

(** The claim C8 as it stands fails by the design of the supervisor: [main]
    returns at the end of the stream without waiting for its goroutines, and
    the two lines of the sample child are then never handed to the sink. *)
Lemma lines_are_lost_at_exit :
  ¬ spec.every_line_delivered_once
      (sample.two_lines ∅ sample.collector) sample.no_defaults [].
Proof.
  intros H.
  destruct (H sample.child [sample.line_a; sample.line_b]
              [RunMain; RunMain; RunMain; RunMain; RunMain; RunMain; RunMain; RunMain]
              eq_refl eq_refl) as (nows & Hlen & Hperm).
  apply Permutation_length in Hperm. rewrite length_zip_with, Hlen in Hperm.
  vm_compute in Hperm. discriminate Hperm.
Qed.

(** Each goroutine reads [scanner.Text()] when it runs: when the loop has
    read both lines before the first goroutine runs, both goroutines hand
    over the second line and the first line is lost. *)
Lemma late_read_repeats_a_line :
  delivered (run (sample.two_lines ∅ sample.collector) sample.no_defaults
                 [RunMain; RunMain; RunMain; RunMain; RunMain; RunMain;
                  RunTask sample.noon; RunTask sample.noon]
                 (boot (sample.two_lines ∅ sample.collector) []))
  = [bytes_of_string sample.line_b; bytes_of_string sample.line_b].
Proof. vm_compute. reflexivity. Qed.

(** C8, amended: whatever the schedule, the records handed to the sink and
    the goroutines still to run add up to the lines read, so that a goroutine
    that has run has handed over one record and no line gives rise to more
    than one goroutine; every record handed over is valid, a text the
    decoder accepts or an envelope; and once the process has ended the
    goroutines left never run. *)
Theorem read_loop_delivers_valid_records {St} (c : config St) (d : defaults) (s0 : St)
        (sched : list action) :
  (length (delivered (run c d sched (boot c s0))) + tasks (run c d sched (boot c s0)))%nat
  = spec.lines_read c (run c d sched (boot c s0))
  ∧ Forall (spec.valid_record d) (delivered (run c d sched (boot c s0)))
  ∧ (state (run c d sched (boot c s0)) ≠ Running →
     ∀ more, run c d more (run c d sched (boot c s0)) = run c d sched (boot c s0)).
Proof.
  destruct (read_loop_inv_run c d sched _ (read_loop_inv_boot c d s0)) as (Hv & Hn & _).
  split; [done|]. split; [done|]. intros Hst more. by apply run_stopped.
Qed.

(** ** Every schedule *)

Lemma run_cons {St} (c : config St) d a sched w :
  run c d (a :: sched) w = run c d sched (step c d a w).
Proof. done. Qed.

Lemma run_invariant {St} (c : config St) d (P : world St → Prop) :
  (∀ a w, P w → P (step c d a w)) → ∀ sched w, P w → P (run c d sched w).
Proof.
  intros Hstep sched. induction sched as [|a sched IH]; intros w Hw; [done|].
  rewrite run_cons. apply IH, Hstep, Hw.
Qed.

Lemma caught_cases sig :
  (sig =? syscall.SIGKILL) = false →
  (sig =? syscall.SIGHUP) || (sig =? syscall.SIGINT) || (sig =? syscall.SIGTERM) = true →
  observe.caught sig.
Proof.
  unfold observe.caught. intros _ H.
  apply orb_true_iff in H as [H|H]; [apply orb_true_iff in H as [H|H]|];
    apply Z.eqb_eq in H; auto.
Qed.

Lemma control_boot {St} (c : config St) s0 : invariant.control c (boot c s0).
Proof. split; [done|]. by cbn. Qed.

Lemma control_step {St} (c : config St) d a (w : world St) :
  invariant.control c w → invariant.control c (step c d a w).
Proof.
  intros Hinv. pose proof Hinv as [Hch Hpc]. unfold step. destruct (state w); try done.
  destruct a as [|now| |sig].
  - (* main *)
    unfold main_step. destruct (pc w) eqn:Epc.
    + split; [exact Hch|]. cbn. destruct Hpc as (_ & _ & ? & ? & _). repeat split; done.
    + unfold setup. destruct (emitter w) as [e|] eqn:Ee.
      * split; [exact Hch|]. cbn. rewrite Ee. destruct Hpc as (<- & ? & ? & ?). eauto.
      * split; [exact Hch|]. cbn. rewrite Epc, Ee. exact Hpc.
    + unfold start. destruct (Args c) as [|? [|? ?]];
        try (split; [exact Hch|]; cbn; rewrite Epc; exact Hpc).
      destruct (spawn c) as [err|err|ch lines] eqn:Esp;
        try (split; [exact Hch|]; cbn; rewrite Epc; exact Hpc).
      split; [exact Hch|]. cbn. destruct Hpc as (? & ? & ? & -> & ?). eauto 10.
    + split; [exact Hch|]. cbn. destruct Hpc as (? & ? & ? & ? & ? & lines & ?).
      eauto 10.
    + unfold scan. destruct (input w); (split; [exact Hch|]); cbn; exact Hpc.
    + split; [exact Hch|]. cbn. rewrite Epc. exact Hpc.
  - (* a goroutine of the read loop *)
    unfold task_step. destruct (tasks w) as [|n] eqn:Et; [done|].
    destruct (emitter w) as [e|] eqn:Ee; [|done].
    destruct (Emit d e now (token w) (sink w)) as [sink' evs].
    split; [exact Hch|]. cbn. rewrite Ee.
    destruct (pc w); try (destruct_and?; discriminate); exact Hpc.
  - (* the signal handler *)
    unfold handler_step. destruct (signalChan w) as [sig|] eqn:Es; [|done].
    destruct (signalHandler _ _ _ _) as [[sink' evs] st].
    split; [done|]. cbn.
    destruct (pc w); try exact Hpc. destruct Hpc as (_ & ? & _); congruence.
  - (* a signal *)
    unfold signal_step.
    destruct (sig =? syscall.SIGKILL) eqn:Ek; [done|].
    destruct (_ || _) eqn:Ec; [|done].
    destruct (notified w) eqn:En; [|done].
    destruct (signalChan w) eqn:Es; [done|].
    split.
    + cbn. intros ? [= <-]. by apply caught_cases.
    + cbn. destruct (pc w); try exact Hpc. destruct Hpc as (? & _); congruence.
Qed.

Lemma control_run {St} (c : config St) d sched s0 :
  invariant.control c (run c d sched (boot c s0)).
Proof. apply run_invariant; [apply control_step | apply control_boot]. Qed.

Lemma history_record {St} evs (w : world St) :
  observe.history (record evs w) = observe.history w ++ evs.
Proof. unfold observe.history, record. cbn [trace]. by rewrite rev_app_distr, rev_involutive. Qed.

Lemma milestones_app evs1 evs2 :
  observe.milestones (evs1 ++ evs2) = observe.milestones evs1 ++ observe.milestones evs2.
Proof. apply filter_app. Qed.

Lemma kills_app evs1 evs2 :
  observe.kills (evs1 ++ evs2) = observe.kills evs1 ++ observe.kills evs2.
Proof. apply omap_app. Qed.

Lemma milestones_Emit {St} d (e : Emitter St) now text sink :
  observe.milestones (snd (Emit d e now text sink))
  = [EvHandleLogMessage (messageToEmit d now text)].
Proof. unfold Emit. by destruct (HandleLogMessage _ _ _) as [s' [err|]]. Qed.

Lemma milestones_signalHandler {St} pid (e : option (Emitter St)) sig sink :
  observe.milestones (snd (fst (signalHandler pid e sig sink))) = [].
Proof.
  unfold signalHandler. destruct e as [e|]; [|done]. by destruct (Cleanup e sink) as [s' [err|]].
Qed.

Lemma order_boot {St} (c : config St) s0 : invariant.order c (boot c s0).
Proof. done. Qed.

Lemma order_step {St} (c : config St) d a (w : world St) :
  invariant.control c w → invariant.order c w → invariant.order c (step c d a w).
Proof.
  intros [_ Hctl] Hord. unfold step. destruct (state w); try done.
  destruct a as [|now| |sig].
  - unfold invariant.order in *. rewrite delivered_main_step.
    unfold main_step. destruct (pc w) eqn:Epc.
    + destruct Hctl as (_ & _ & _ & _ & Ht). unfold observe.history. cbn. by rewrite Ht.
    + unfold setup. destruct (emitter w) as [e|]; [|by cbn; rewrite Epc].
      change (pc (set_pc AtSpawn (set_sink (Setup e (sink w)) (record [EvSetup] w))))
        with AtSpawn.
      change (observe.history (set_pc AtSpawn (set_sink (Setup e (sink w)) (record [EvSetup] w))))
        with (observe.history (record [EvSetup] w)).
      by rewrite history_record, milestones_app, Hord.
    + unfold start. destruct (Args c) as [|name [|bin args]] eqn:Ea;
        try (by cbn; rewrite Epc).
      destruct (spawn c) as [err|err|ch lines].
      * unfold fatal.
        change (pc (set_state (Exited 1) (record [EvLog (LogFatal err)] w))) with (pc w).
        change (observe.history (set_state (Exited 1) (record [EvLog (LogFatal err)] w)))
          with (observe.history (record [EvLog (LogFatal err)] w)).
        rewrite Epc, history_record, milestones_app, Hord. done.
      * unfold fatal.
        change (pc (set_state (Exited 1) (record [EvLog (LogFatal err)] w))) with (pc w).
        change (observe.history (set_state (Exited 1) (record [EvLog (LogFatal err)] w)))
          with (observe.history (record [EvLog (LogFatal err)] w)).
        rewrite Epc, history_record, milestones_app, Hord. done.
      * cbn [pc]. exists name, bin, args. split; [done|].
        unfold observe.history in *. cbn [trace rev]. rewrite milestones_app, Hord.
        assert (delivered w = []) as ->; [|done].
        unfold delivered. cut (records (observe.milestones (rev (trace w))) = []).
        { unfold records, observe.milestones.
          generalize (rev (trace w)). intros l. induction l as [|[] l IH]; cbn; try done. }
        by rewrite Hord.
    + cbn [pc record_pid]. exact Hord.
    + unfold scan. destruct (input w); cbn [pc]; exact Hord.
    + cbn. by rewrite Epc.
  - unfold task_step. destruct (tasks w) as [|n] eqn:Et; [done|].
    destruct (emitter w) as [e|] eqn:Ee; [|done].
    pose proof (milestones_Emit d e now (token w) (sink w)) as Hm.
    pose proof (Emit_records d e now (token w) (sink w)) as Hr.
    destruct (Emit d e now (token w) (sink w)) as [sink' evs]. cbn [snd] in Hm, Hr.
    unfold invariant.order in *.
    change (pc (set_tasks n (set_sink sink' (record evs w)))) with (pc w).
    change (observe.history (set_tasks n (set_sink sink' (record evs w))))
      with (observe.history (record evs w)).
    change (delivered (set_tasks n (set_sink sink' (record evs w))))
      with (delivered (record evs w)).
    rewrite history_record, milestones_app, delivered_record, Hm, Hr.
    destruct (pc w); try (destruct_and?; discriminate).
    + destruct Hord as (name & bin & args & ? & ->). exists name, bin, args.
      split; [done|]. by rewrite map_app.
    + destruct Hord as (name & bin & args & ? & ->). exists name, bin, args.
      split; [done|]. by rewrite map_app.
  - destruct (delivered_handler_step c w) as (Hd & _ & Hp & _).
    unfold invariant.order in *. rewrite Hd, Hp.
    assert (observe.milestones (observe.history (handler_step c w))
            = observe.milestones (observe.history w)) as ->; [|done].
    unfold handler_step. destruct (signalChan w) as [sig|]; [|done].
    pose proof (milestones_signalHandler (subcmdPid w) (emitter w) sig (sink w)) as Hm.
    destruct (signalHandler _ _ _ _) as [[sink' evs] st]. cbn [fst snd] in Hm.
    unfold observe.history. cbn [trace].
    by rewrite rev_app_distr, rev_involutive, milestones_app, Hm, app_nil_r.
  - destruct (signal_step_same sig w) as (Hd & _ & Hp & _).
    unfold invariant.order in *. rewrite Hd, Hp.
    assert (observe.history (signal_step sig w) = observe.history w) as ->; [|done].
    unfold signal_step. repeat case_match; done.
Qed.

Lemma order_run {St} (c : config St) d sched s0 :
  invariant.control c (run c d sched (boot c s0))
  ∧ invariant.order c (run c d sched (boot c s0)).
Proof.
  apply (run_invariant c d (λ w, invariant.control c w ∧ invariant.order c w)).
  - intros a w [H1 H2]. split; [by apply control_step | by apply order_step].
  - split; [apply control_boot | apply order_boot].
Qed.

Ltac not_cleanup :=
  rewrite !elem_of_cons;
  repeat (let H := fresh in intros [?|H]; [discriminate|revert H]); done.

(** The statements of [main] and the goroutines of the read loop send no
    signal and do not call [Cleanup]. *)
Lemma main_step_calm {St} (c : config St) (w : world St) :
  observe.kills (observe.history (main_step c w)) = observe.kills (observe.history w)
  ∧ (EvCleanup ∈ trace (main_step c w) → EvCleanup ∈ trace w)
  ∧ signalled (main_step c w) = signalled w.
Proof.
  unfold main_step, begin, setup, start, record_pid, scan, fatal, observe.history.
  destruct (pc w); cbn [trace signalled]; try done.
  - cbn [rev]. rewrite !kills_app. cbn. rewrite !app_nil_r.
    split; [done|]. split; [|done]. not_cleanup.
  - destruct (emitter w); cbn; [|done]. rewrite kills_app. cbn. rewrite app_nil_r.
    split; [done|]. split; [|done]. not_cleanup.
  - destruct (Args c) as [|? [|? ?]]; [done..|].
    destruct (spawn c); cbn; rewrite kills_app; cbn; rewrite app_nil_r;
      (split; [done|]); (split; [|done]); not_cleanup.
  - by destruct (input w).
Qed.

Lemma task_step_calm {St} d now (w : world St) :
  observe.kills (observe.history (task_step d now w)) = observe.kills (observe.history w)
  ∧ (EvCleanup ∈ trace (task_step d now w) → EvCleanup ∈ trace w)
  ∧ signalled (task_step d now w) = signalled w.
Proof.
  unfold task_step. destruct (tasks w) as [|n]; [done|].
  destruct (emitter w) as [e|]; [|done]. unfold Emit.
  destruct (HandleLogMessage _ _ _) as [s' [err|]]; unfold observe.history; cbn;
    rewrite ?kills_app; cbn; rewrite ?app_nil_r;
    (split; [done|]); (split; [|done]); not_cleanup.
Qed.

Lemma signal_step_calm {St} sig (w : world St) :
  trace (signal_step sig w) = trace w ∧ signalled (signal_step sig w) = signalled w
  ∧ subcmdPid (signal_step sig w) = subcmdPid w
  ∧ processes (signal_step sig w) = processes w.
Proof. unfold signal_step. repeat case_match; done. Qed.

Lemma kills_signalHandler {St} pid (e : option (Emitter St)) sig sink :
  observe.kills (snd (fst (signalHandler pid e sig sink))) = [(pid, signalToSendChild sig)]
  ∧ snd (signalHandler pid e sig sink) ≠ Running.
Proof.
  unfold signalHandler. destruct e as [e|]; [|done]. by destruct (Cleanup e sink) as [s' [err|]].
Qed.

Lemma signalToSendChild_caught sig : observe.caught sig → signalToSendChild sig = sig.
Proof. intros [->|[->| ->]]; reflexivity. Qed.

Lemma relay_boot {St} (c : config St) s0 : invariant.relay c (boot c s0).
Proof. left. cbn. split; [done|]. split; [|done]. apply not_elem_of_nil. Qed.

Lemma relay_step {St} (c : config St) d a (w : world St) :
  invariant.control c w → invariant.relay c w → invariant.relay c (step c d a w).
Proof.
  intros [Hch Hctl] Hrel. unfold step. destruct (state w) eqn:Est; try done.
  destruct Hrel as [(Hk & Hc & Hs)| (sig & _ & _ & Hn & _)]; [|done].
  destruct a as [|now| |sig].
  - destruct (main_step_calm c w) as (Hk' & Hc' & Hs').
    left. rewrite Hk', Hs'. split; [done|]. split; [|done]. intros ?. apply Hc. auto.
  - destruct (task_step_calm d now w) as (Hk' & Hc' & Hs').
    left. rewrite Hk', Hs'. split; [done|]. split; [|done]. intros ?. apply Hc. auto.
  - unfold handler_step. destruct (signalChan w) as [sig|] eqn:Ech; [|left; auto].
    pose proof (kills_signalHandler (subcmdPid w) (emitter w) sig (sink w)) as [Hk' Hn'].
    destruct (signalHandler _ _ _ _) as [[sink' evs] st]. cbn [fst snd] in Hk', Hn'.
    specialize (Hch sig eq_refl). rewrite signalToSendChild_caught in * by done.
    right. exists sig. split; [done|]. unfold observe.history in *. cbn.
    rewrite rev_app_distr, rev_involutive, kills_app, Hk, Hk', Hs, app_nil_r.
    repeat split; try done.
    intros Epc. rewrite Epc in Hctl. destruct Hctl as (_ & ? & _). congruence.
  - destruct (signal_step_calm sig w) as (Ht & Hs' & _).
    left. unfold observe.history. rewrite Ht, Hs'. auto.
Qed.

Lemma relay_run {St} (c : config St) d sched s0 :
  invariant.control c (run c d sched (boot c s0))
  ∧ invariant.relay c (run c d sched (boot c s0)).
Proof.
  apply (run_invariant c d (λ w, invariant.control c w ∧ invariant.relay c w)).
  - intros a w [H1 H2]. split; [by apply control_step | by apply relay_step].
  - split; [apply control_boot | apply relay_boot].
Qed.

Lemma elem_of_rev_iff {A} (x : A) (l : list A) : x ∈ rev l ↔ x ∈ l.
Proof. rewrite !list_elem_of_In. symmetry. apply in_rev. Qed.

Lemma elem_of_kills pid sig evs :
  EvKill pid sig ∈ evs ↔ (pid, sig) ∈ observe.kills evs.
Proof.
  unfold observe.kills. rewrite list_elem_of_omap. split.
  - intros H. by exists (EvKill pid sig).
  - intros (e & He & Heq). destruct e; try discriminate. by injection Heq as -> ->.
Qed.

Lemma elem_of_milestones e evs :
  observe.is_milestone e = true → e ∈ evs → e ∈ observe.milestones evs.
Proof. intros He Hin. unfold observe.milestones. by apply list_elem_of_filter. Qed.

(** X13: the child is started only with a registered emitter, a command to
    run and a successful spawn. *)
Theorem child_is_started_only_when_set_up {St} (c : config St) (d : defaults) (s0 : St)
        (sched : list action) (bin : string) (args : list string) :
  EvStart bin args ∈ trace (run c d sched (boot c s0)) →
  ∃ e name child lines,
    Emitters c !! observe.emitterName c = Some e
    ∧ Args c = name :: bin :: args
    ∧ spawn c = Started child lines.
Proof.
  intros Hin. destruct (order_run c d sched s0) as [[_ Hctl] Hord].
  set (w := run c d sched (boot c s0)) in *.
  assert (EvStart bin args ∈ observe.milestones (observe.history w)) as Hm.
  { apply elem_of_milestones; [done|]. unfold observe.history. by apply elem_of_rev_iff. }
  unfold invariant.order in Hord.
  assert (∀ name bin' args',
    Args c = name :: bin' :: args' →
    observe.milestones (observe.history w)
    = EvSetup :: EvStart bin' args' :: map EvHandleLogMessage (delivered w) →
    Args c = name :: bin :: args) as Hargs.
  { intros name bin' args' Ha Heq. rewrite Heq in Hm.
    apply elem_of_cons in Hm as [Hm|Hm]; [discriminate|].
    apply elem_of_cons in Hm as [Hm|Hm]; [by injection Hm as -> ->|].
    apply list_elem_of_fmap in Hm as (r & Hr & _). discriminate. }
  destruct (pc w) eqn:Epc.
  - rewrite Hord in Hm. by apply elem_of_nil in Hm.
  - rewrite Hord in Hm. by apply elem_of_nil in Hm.
  - rewrite Hord in Hm. apply list_elem_of_singleton in Hm. discriminate.
  - destruct Hord as (name & bin' & args' & Ha & Heq).
    destruct Hctl as (He & [e Hs] & _ & _ & _ & lines & Hsp).
    exists e, name, child, lines. rewrite <- He, Hs. eauto.
  - destruct Hord as (name & bin' & args' & Ha & Heq).
    destruct Hctl as (He & [e Hs] & child & lines & Hsp & _).
    exists e, name, child, lines. rewrite <- He, Hs. eauto.
  - destruct Hord as (name & bin' & args' & Ha & Heq).
    destruct Hctl as (He & [e Hs] & child & lines & Hsp & _).
    exists e, name, child, lines. rewrite <- He, Hs. eauto.
Qed.

Lemma child_is_started_only_when_set_up_witness :
  ∃ e name child lines,
    Emitters (sample.two_lines ∅ sample.collector)
      !! observe.emitterName (sample.two_lines ∅ sample.collector) = Some e
    ∧ Args (sample.two_lines ∅ sample.collector) = name :: "/bin/app"%string :: []
    ∧ spawn (sample.two_lines ∅ sample.collector) = Started child lines.
Proof.
  apply (child_is_started_only_when_set_up _ sample.no_defaults []
           [RunMain; RunMain; RunMain]).
  vm_compute. apply list_elem_of_here.
Defined.

(** X12: in every run the emitter is set up once, then the child is started
    once, and records are handed over only after that. *)
Theorem calls_follow_the_order_of_main {St} (c : config St) (d : defaults) (s0 : St)
        (sched : list action) :
  observe.milestones (observe.history (run c d sched (boot c s0))) = []
  ∨ observe.milestones (observe.history (run c d sched (boot c s0))) = [EvSetup]
  ∨ ∃ name bin args,
      Args c = name :: bin :: args
      ∧ observe.milestones (observe.history (run c d sched (boot c s0)))
        = EvSetup :: EvStart bin args
            :: map EvHandleLogMessage (delivered (run c d sched (boot c s0))).
Proof.
  destruct (order_run c d sched s0) as [_ Hord]. unfold invariant.order in Hord.
  destruct (pc (run c d sched (boot c s0))); auto.
Qed.

(** X21: the signal handler relays one signal at most, the process is over
    once it has, and [Cleanup] is called only after a relay. *)
Theorem one_signal_is_relayed_at_most {St} (c : config St) (d : defaults) (s0 : St)
        (sched : list action) :
  (observe.kills (observe.history (run c d sched (boot c s0))) = []
   ∧ EvCleanup ∉ trace (run c d sched (boot c s0)))
  ∨ ((∃ pid sig, observe.kills (observe.history (run c d sched (boot c s0))) = [(pid, sig)])
     ∧ state (run c d sched (boot c s0)) ≠ Running).
Proof.
  destruct (relay_run c d sched s0) as [_ [(Hk & Hc & _)|(sig & _ & Hk & Hn & _)]].
  - by left.
  - right. eauto.
Qed.

(** X23: the signal relayed is SIGHUP, SIGINT or SIGTERM, never SIGKILL. *)
Theorem SIGKILL_is_never_relayed {St} (c : config St) (d : defaults) (s0 : St)
        (sched : list action) :
  Forall (λ k, observe.caught (snd k) ∧ snd k ≠ syscall.SIGKILL)
         (observe.kills (observe.history (run c d sched (boot c s0)))).
Proof.
  destruct (relay_run c d sched s0) as [_ [(-> & _)|(sig & Hc & -> & _)]].
  - apply Forall_nil. exact I.
  - apply Forall_cons. split; [|apply Forall_nil; exact I]. cbn. split; [done|].
    destruct Hc as [->|[->| ->]]; done.
Qed.

(** X24: a signal is relayed to the sentinel [-1] until [main] has recorded
    the identifier of the child, and to the child afterwards. *)
Theorem relay_is_addressed_to_the_recorded_pid {St} (c : config St) (d : defaults)
        (s0 : St) (sched : list action) :
  Forall (λ k,
            match pc (run c d sched (boot c s0)) with
            | AtScan | AtReturn =>
              ∃ child lines, spawn c = Started child lines ∧ fst k = syscall.p_pid child
            | _ => fst k = -1
            end)
         (observe.kills (observe.history (run c d sched (boot c s0)))).
Proof.
  destruct (relay_run c d sched s0) as [[_ Hctl] [(-> & _)|(sig & Hc & -> & _ & Hb & _)]].
  - apply Forall_nil. exact I.
  - apply Forall_cons. split; [|apply Forall_nil; exact I]. cbn.
    destruct (pc (run c d sched (boot c s0))); try done.
    + by destruct Hctl as (_ & ? & _).
    + by destruct Hctl as (_ & _ & ? & _).
    + by destruct Hctl as (_ & _ & ? & _).
    + destruct Hctl as (_ & _ & child & lines & ? & ? & _). eauto.
    + destruct Hctl as (_ & _ & child & lines & ? & ? & _). eauto.
Qed.

(** X25: once [main] is in its read loop, a signal reaches no process but the
    child. *)
Theorem only_the_child_is_signalled {St} (c : config St) (d : defaults) (s0 : St)
        (sched : list action) (child : syscall.proc) (lines : list string) :
  spawn c = Started child lines →
  0 < syscall.p_pid child →
  pc (run c d sched (boot c s0)) = AtScan ∨ pc (run c d sched (boot c s0)) = AtReturn →
  Forall (λ hit, fst hit = syscall.p_pid child) (signalled (run c d sched (boot c s0))).
Proof.
  intros Hsp Hpos Hpc.
  destruct (relay_run c d sched s0) as [[_ Hctl] [(_ & _ & ->)|(sig & _ & _ & _ & _ & ->)]].
  - apply Forall_nil. exact I.
  - assert (subcmdPid (run c d sched (boot c s0)) = syscall.p_pid child) as ->.
    { destruct Hpc as [Hpc|Hpc]; rewrite Hpc in Hctl;
        destruct Hctl as (_ & _ & ch & ls & Hsp' & -> & _); congruence. }
    apply Forall_forall. intros [p s] Hin.
    apply elem_of_rev_iff, list_elem_of_fmap in Hin as (q & [= -> ->] & Hq).
    cbn. by apply (Kill_targets_one _ _ _ _ Hpos Hq).
Qed.

Lemma only_the_child_is_signalled_witness :
  Forall (λ hit, fst hit = syscall.p_pid sample.child)
         (signalled (run (sample.two_lines ∅ sample.collector) sample.no_defaults
                         [RunMain; RunMain; RunMain; RunMain; Signal syscall.SIGINT;
                          RunHandler]
                         (boot (sample.two_lines ∅ sample.collector) []))).
Proof.
  apply (only_the_child_is_signalled _ _ _ _ sample.child [sample.line_a; sample.line_b]).
  - reflexivity.
  - reflexivity.
  - left. reflexivity.
Defined.

(** ** Schedules without a signal *)

Lemma main_steps_cons a sched :
  observe.main_steps (a :: sched)
  = if observe.is_main a then S (observe.main_steps sched) else observe.main_steps sched.
Proof. unfold observe.main_steps. rewrite filter_cons. by destruct a. Qed.

Lemma main_steps_repeat k : observe.main_steps (repeat RunMain k) = k.
Proof. induction k as [|k IH]; [done|]. cbn [repeat]. by rewrite main_steps_cons, IH. Qed.

Lemma handler_step_idle {St} (c : config St) (w : world St) :
  signalChan w = None → handler_step c w = w.
Proof. intros H. unfold handler_step. by rewrite H. Qed.

Lemma same_place_main {St} (c : config St) (w1 w2 : world St) :
  invariant.same_place w1 w2 → invariant.same_place (main_step c w1) (main_step c w2).
Proof.
  intros (Hs & Hp & Hi & He & Hc). unfold invariant.same_place, main_step.
  rewrite <- Hp. destruct (pc w1) eqn:Epc.
  - cbn. repeat split; congruence.
  - unfold setup. rewrite <- He. destruct (emitter w1) eqn:Ee; cbn; repeat split; congruence.
  - unfold start. destruct (Args c) as [|? [|? ?]]; cbn; try (repeat split; congruence).
    destruct (spawn c); cbn; repeat split; congruence.
  - cbn. repeat split; congruence.
  - unfold scan. rewrite <- Hi. destruct (input w1) eqn:Ei; cbn; repeat split; congruence.
  - cbn. repeat split; congruence.
Qed.

Lemma same_place_task {St} d now (w1 w2 : world St) :
  invariant.same_place w1 w2 → invariant.same_place (task_step d now w1) w2.
Proof.
  intros H. unfold task_step. destruct (tasks w1); [done|]. destruct (emitter w1) eqn:E; [|done].
  destruct (Emit _ _ _ _ _) as [sink' evs]. destruct H as (? & ? & ? & ? & ?).
  unfold invariant.same_place. cbn. repeat split; congruence.
Qed.

(** When no signal arrives, [main] is where it would be had it run alone. *)
Lemma quiet_run_same_place {St} (c : config St) d sched : ∀ w1 w2 : world St,
  observe.quiet sched → invariant.same_place w1 w2 →
  invariant.same_place (run c d sched w1)
                       (run c d (repeat RunMain (observe.main_steps sched)) w2).
Proof.
  induction sched as [|a sched IH]; intros w1 w2 Hq Hw; [done|].
  apply Forall_cons in Hq as [Ha Hq]. rewrite run_cons, main_steps_cons.
  pose proof Hw as (Hs & _ & _ & _ & Hc).
  destruct a as [|now| |sig]; cbn [observe.is_main]; try discriminate.
  - cbn [repeat]. rewrite run_cons. apply IH; [done|]. unfold step. rewrite <- Hs.
    destruct (state w1); try done. by apply same_place_main.
  - apply IH; [done|]. unfold step. destruct (state w1); try done. by apply same_place_task.
  - apply IH; [done|]. unfold step. destruct (state w1); try done.
    by rewrite handler_step_idle.
Qed.

Lemma same_place_boot {St} (c : config St) s0 : invariant.same_place (boot c s0) (boot c s0).
Proof. done. Qed.

Lemma quiet_no_signal_waits {St} (c : config St) d sched s0 :
  observe.quiet sched → signalChan (run c d sched (boot c s0)) = None.
Proof.
  intros Hq.
  by destruct (quiet_run_same_place c d sched _ _ Hq (same_place_boot c s0)) as (_&_&_&_&?).
Qed.

Lemma quiet_run_calm {St} (c : config St) d s0 sched :
  observe.quiet sched →
  (EvCleanup ∉ trace (run c d sched (boot c s0)))
  ∧ observe.kills (observe.history (run c d sched (boot c s0))) = []
  ∧ signalled (run c d sched (boot c s0)) = [].
Proof.
  intros Hq. revert Hq. rewrite <- (rev_involutive sched).
  induction (rev sched) as [|a l IH]; intros Hq.
  { cbn. split; [apply not_elem_of_nil|done]. }
  cbn [rev] in *. apply Forall_app in Hq as [Hq Ha]. apply Forall_cons in Ha as [Ha _].
  specialize (IH Hq) as (Hc & Hk & Hs).
  pose proof (quiet_no_signal_waits c d (rev l) s0 Hq) as Hch.
  rewrite run_app. set (w := run c d (rev l) (boot c s0)) in *.
  cbn [run fold_left]. unfold step. destruct (state w); try done.
  destruct a as [|now| |sig]; try discriminate.
  - destruct (main_step_calm c w) as (Hk' & Hc' & Hs'). rewrite Hk', Hs'. auto.
  - destruct (task_step_calm d now w) as (Hk' & Hc' & Hs'). rewrite Hk', Hs'. auto.
  - by rewrite handler_step_idle.
Qed.

(** X20: without a signal, nothing is relayed and [Cleanup] is never called:
    at the end of the stream [main] returns without it. *)
Theorem Cleanup_is_called_by_the_signal_handler_only {St} (c : config St) (d : defaults)
        (s0 : St) (sched : list action) :
  observe.quiet sched →
  (EvCleanup ∉ trace (run c d sched (boot c s0)))
  ∧ observe.kills (observe.history (run c d sched (boot c s0))) = []
  ∧ signalled (run c d sched (boot c s0)) = [].
Proof. apply quiet_run_calm. Qed.

Lemma Cleanup_is_called_by_the_signal_handler_only_witness :
  (EvCleanup ∉ trace (run (sample.two_lines ∅ sample.collector) sample.no_defaults
                          (observe.prompt [sample.noon; sample.noon])
                          (boot (sample.two_lines ∅ sample.collector) [])))
  ∧ observe.kills
      (observe.history (run (sample.two_lines ∅ sample.collector) sample.no_defaults
                            (observe.prompt [sample.noon; sample.noon])
                            (boot (sample.two_lines ∅ sample.collector) []))) = []
  ∧ signalled (run (sample.two_lines ∅ sample.collector) sample.no_defaults
                   (observe.prompt [sample.noon; sample.noon])
                   (boot (sample.two_lines ∅ sample.collector) [])) = [].
Proof.
  apply Cleanup_is_called_by_the_signal_handler_only.
  unfold observe.quiet, observe.prompt. cbn. repeat (apply Forall_cons; split; [reflexivity|]).
  apply Forall_nil. exact I.
Defined.

(** ** [main] alone *)

Lemma step_main {St} (c : config St) d (w : world St) :
  state w = Running → step c d RunMain w = main_step c w.
Proof. intros H. unfold step. by rewrite H. Qed.

Lemma run_main_stopped {St} (c : config St) d k (w : world St) :
  state w ≠ Running → run c d (repeat RunMain k) w = w.
Proof. apply run_stopped. Qed.

Section Alone.
Context {St : Type} (c : config St) (d : defaults) (s0 : St).

#[local] Abbreviation after := (observe.alone c d s0).

Lemma after_S k : after (S k) = step c d RunMain (after k).
Proof.
  unfold observe.alone. cbn [repeat]. by rewrite repeat_cons, run_app.
Qed.

Lemma after_1 :
  state (after 1) = Running ∧ pc (after 1) = AtSetup
  ∧ emitter (after 1) = Emitters c !! observe.emitterName c.
Proof. done. Qed.

(** An emitter that is not registered: [emitter.Setup()] panics. *)
Lemma after_2_nil k :
  Emitters c !! observe.emitterName c = None →
  state (after (2 + k)) = Panicked ∧ pc (after (2 + k)) = AtSetup.
Proof.
  intros He. destruct after_1 as (Hs & Hp & Hem).
  assert (state (after 2) = Panicked ∧ pc (after 2) = AtSetup) as [H2 H2'].
  { rewrite after_S, step_main by done. unfold main_step. rewrite Hp. unfold setup.
    rewrite Hem, He. done. }
  unfold observe.alone in *. rewrite repeat_app, run_app, run_main_stopped; [done|].
  rewrite H2. done.
Qed.

Lemma after_2 e :
  Emitters c !! observe.emitterName c = Some e →
  state (after 2) = Running ∧ pc (after 2) = AtSpawn.
Proof.
  intros He. destruct after_1 as (Hs & Hp & Hem).
  rewrite after_S, step_main by done. unfold main_step. rewrite Hp. unfold setup.
  rewrite Hem, He. done.
Qed.

(** No command to run: [os.Args[1]] panics. *)
Lemma after_3_no_command e k :
  Emitters c !! observe.emitterName c = Some e →
  (length (Args c) < 2)%nat →
  state (after (3 + k)) = Panicked ∧ pc (after (3 + k)) = AtSpawn.
Proof.
  intros He Ha. destruct (after_2 e He) as (Hs & Hp).
  assert (state (after 3) = Panicked ∧ pc (after 3) = AtSpawn) as [H3 H3'].
  { rewrite after_S, step_main by done. unfold main_step. rewrite Hp. unfold start.
    destruct (Args c) as [|? [|? ?]]; cbn in Ha; [| |lia]; by cbn. }
  unfold observe.alone in *. rewrite repeat_app, run_app, run_main_stopped; [done|].
  rewrite H3. done.
Qed.

(** The child cannot be started: [log.Fatal]. *)
Lemma after_3_failed e name bin args err k :
  Emitters c !! observe.emitterName c = Some e →
  Args c = name :: bin :: args →
  spawn c = PipeFailed err ∨ spawn c = StartFailed err →
  state (after (3 + k)) = Exited 1 ∧ pc (after (3 + k)) = AtSpawn.
Proof.
  intros He Ha Hsp. destruct (after_2 e He) as (Hs & Hp).
  assert (state (after 3) = Exited 1 ∧ pc (after 3) = AtSpawn) as [H3 H3'].
  { rewrite after_S, step_main by done. unfold main_step. rewrite Hp. unfold start.
    rewrite Ha. destruct Hsp as [-> | ->]; by cbn. }
  unfold observe.alone in *. rewrite repeat_app, run_app, run_main_stopped; [done|].
  rewrite H3. done.
Qed.

Lemma delivered_alone k : delivered (after k) = [].
Proof.
  induction k as [|k IH]; [done|]. rewrite after_S. unfold step.
  destruct (state (after k)); try done. by rewrite delivered_main_step.
Qed.

Lemma after_2_eq e :
  Emitters c !! observe.emitterName c = Some e →
  after 2 = set_pc AtSpawn (set_sink (Setup e (sink (after 1))) (record [EvSetup] (after 1))).
Proof.
  intros He. rewrite after_S, step_main by done. unfold main_step.
  change (pc (after 1)) with AtSetup. cbv iota. unfold setup.
  change (emitter (after 1)) with (Emitters c !! observe.emitterName c). by rewrite He.
Qed.

Lemma after_4 e name bin args child lines :
  Emitters c !! observe.emitterName c = Some e →
  Args c = name :: bin :: args →
  spawn c = Started child lines →
  state (after 3) = Running
  ∧ state (after 4) = Running ∧ pc (after 4) = AtScan ∧ input (after 4) = lines
  ∧ tasks (after 4) = 0%nat ∧ emitter (after 4) = Some e
  ∧ token (after 4) = EmptyString.
Proof.
  intros He Ha Hsp. destruct (after_2 e He) as (Hs & Hp).
  assert (state (after 3) = Running ∧ pc (after 3) = AtRecordPid child
          ∧ input (after 3) = lines ∧ tasks (after 3) = 0%nat
          ∧ emitter (after 3) = Some e
          ∧ token (after 3) = EmptyString) as (H3s & H3p & H3i & H3t & H3e & H3k).
  { rewrite after_S, step_main by done. unfold main_step. rewrite Hp. unfold start.
    rewrite Ha, Hsp. cbn [state pc input tasks emitter token].
    rewrite (after_2_eq e He). cbn. unfold observe.emitterName in He. by rewrite He. }
  split; [done|].
  rewrite after_S, step_main by done. unfold main_step. rewrite H3p. by cbn.
Qed.

End Alone.

Lemma List_last_cons {A} (l : list A) : ∀ a d, List.last (a :: l) d = List.last l a.
Proof.
  induction l as [|b l IH]; intros a d; [done|].
  change (List.last (a :: b :: l) d) with (List.last (b :: l) d). by rewrite !IH.
Qed.

(** The read loop alone: [k] lines are read, and one goroutine is started
    for each. *)
Lemma scan_alone {St} (c : config St) d k : ∀ w : world St,
  state w = Running → pc w = AtScan → (k ≤ length (input w))%nat →
  state (run c d (repeat RunMain k) w) = Running
  ∧ pc (run c d (repeat RunMain k) w) = AtScan
  ∧ input (run c d (repeat RunMain k) w) = drop k (input w)
  ∧ tasks (run c d (repeat RunMain k) w) = (tasks w + k)%nat
  ∧ emitter (run c d (repeat RunMain k) w) = emitter w
  ∧ delivered (run c d (repeat RunMain k) w) = delivered w
  ∧ token (run c d (repeat RunMain k) w) = List.last (take k (input w)) (token w).
Proof.
  induction k as [|k IH]; intros w Hs Hp Hk.
  { cbn. rewrite Nat.add_0_r, drop_0. done. }
  cbn [repeat]. rewrite run_cons, step_main by done.
  destruct (input w) as [|line rest] eqn:Ei; [cbn in Hk; lia|]. cbn in Hk.
  assert (main_step c w = scan w) as Hm by (unfold main_step; by rewrite Hp).
  assert (state (scan w) = Running ∧ pc (scan w) = AtScan ∧ input (scan w) = rest
          ∧ tasks (scan w) = S (tasks w) ∧ emitter (scan w) = emitter w
          ∧ token (scan w) = line) as (H1 & H2 & H3 & H4 & H5 & H6).
  { unfold scan. rewrite Ei. by cbn. }
  pose proof (delivered_main_step c w) as Hd. rewrite Hm in *.
  destruct (IH (scan w)) as (I1 & I2 & I3 & I4 & I5 & I6 & I7); [done|done|rewrite H3; lia|].
  rewrite I1, I2, I3, I4, I5, I6, I7, H3, H4, H5, H6, Hd.
  repeat split; try done; [lia|].
  cbn [take]. by rewrite List_last_cons.
Qed.

Section Loop.
Context {St : Type} (c : config St) (d : defaults) (s0 : St).
Context (e : Emitter St) (name bin : string) (args : list string).
Context (child : syscall.proc) (lines : list string).
Hypothesis He : Emitters c !! observe.emitterName c = Some e.
Hypothesis Ha : Args c = name :: bin :: args.
Hypothesis Hsp : spawn c = Started child lines.

#[local] Abbreviation after := (observe.alone c d s0).

Lemma after_scan k :
  (k ≤ length lines)%nat →
  state (after (4 + k)) = Running ∧ pc (after (4 + k)) = AtScan
  ∧ input (after (4 + k)) = drop k lines ∧ tasks (after (4 + k)) = k
  ∧ emitter (after (4 + k)) = Some e ∧ delivered (after (4 + k)) = []
  ∧ token (after (4 + k)) = List.last (take k lines) EmptyString.
Proof.
  intros Hk. destruct (after_4 c d s0 e name bin args child lines He Ha Hsp)
    as (_ & H1 & H2 & H3 & H4 & H5 & H6).
  unfold observe.alone in *. rewrite repeat_app, run_app.
  destruct (scan_alone c d k (run c d (repeat RunMain 4) (boot c s0)))
    as (I1 & I2 & I3 & I4 & I5 & I6 & I7); [done|done|rewrite H3; lia|].
  rewrite I1, I2, I3, I4, I5, I6, I7, H3, H4, H5, H6.
  repeat split; try done. apply (delivered_alone c d s0 4).
Qed.

Lemma after_end_of_stream :
  state (after (length lines + 5)) = Running ∧ pc (after (length lines + 5)) = AtReturn.
Proof.
  destruct (after_scan (length lines)) as (H1 & H2 & H3 & _); [done|].
  replace (length lines + 5)%nat with (S (4 + length lines)) by lia.
  rewrite after_S, step_main by done. unfold main_step. rewrite H2. unfold scan.
  rewrite H3, drop_all. by cbn.
Qed.

Lemma after_return k : state (after (length lines + 6 + k)) = Exited 0.
Proof.
  destruct after_end_of_stream as (H1 & H2).
  assert (state (after (length lines + 6)) = Exited 0) as H6.
  { replace (length lines + 6)%nat with (S (length lines + 5)) by lia.
    rewrite after_S, step_main by done. unfold main_step. by rewrite H2. }
  unfold observe.alone in *. rewrite repeat_app, run_app, run_main_stopped; [done|].
  by rewrite H6.
Qed.

Lemma state_alone m :
  state (after m)
  = if (length lines + 6 <=? m)%nat then Exited 0 else Running.
Proof.
  destruct (Nat.leb_spec (length lines + 6) m) as [H|H].
  - replace m with (length lines + 6 + (m - (length lines + 6)))%nat by lia.
    apply after_return.
  - destruct (Nat.le_gt_cases 4 m) as [H4|H4].
    + destruct (Nat.eq_dec m (length lines + 5)%nat) as [->|Hne];
        [apply after_end_of_stream|].
      replace m with (4 + (m - 4))%nat by lia. apply after_scan. lia.
    + destruct m as [|[|[|[|m]]]]; [done|done| | |lia].
      * apply (after_2 c d s0 e He).
      * apply (after_4 c d s0 e name bin args child lines He Ha Hsp).
Qed.

End Loop.

(** X17: when no signal arrives, [main] returns, and the process ends with
    status 0, after it has read the lines of the child and met the end of
    the stream, whether or not its goroutines have run. *)
Theorem main_returns_at_the_end_of_the_stream {St} (c : config St) (d : defaults) (s0 : St)
        (sched : list action) (e : Emitter St) (name bin : string) (args : list string)
        (child : syscall.proc) (lines : list string) :
  Emitters c !! observe.emitterName c = Some e →
  Args c = name :: bin :: args →
  spawn c = Started child lines →
  observe.quiet sched →
  state (run c d sched (boot c s0))
  = if (length lines + 6 <=? observe.main_steps sched)%nat then Exited 0 else Running.
Proof.
  intros He Ha Hsp Hq.
  destruct (quiet_run_same_place c d sched _ _ Hq (same_place_boot c s0)) as (-> & _).
  apply (state_alone c d s0 e name bin args child lines He Ha Hsp).
Qed.

Lemma main_returns_at_the_end_of_the_stream_witness :
  state (run (sample.two_lines ∅ sample.collector) sample.no_defaults
             [RunMain; RunMain; RunMain; RunMain; RunMain; RunMain; RunMain; RunMain]
             (boot (sample.two_lines ∅ sample.collector) []))
  = Exited 0.
Proof.
  apply (main_returns_at_the_end_of_the_stream
           (sample.two_lines ∅ sample.collector) sample.no_defaults []
           [RunMain; RunMain; RunMain; RunMain; RunMain; RunMain; RunMain; RunMain]
           sample.collector "haberdasher" "/bin/app" [] sample.child
           [sample.line_a; sample.line_b]).
  - reflexivity.
  - reflexivity.
  - reflexivity.
  - unfold observe.quiet. repeat (apply Forall_cons; split; [reflexivity|]).
    apply Forall_nil. exact I.
Defined.

(** X14: an emitter name that is not registered makes [emitter.Setup()]
    panic: nothing is set up, started or delivered. *)
Theorem unregistered_emitter_panics {St} (c : config St) (d : defaults) (s0 : St)
        (sched : list action) :
  Emitters c !! observe.emitterName c = None →
  observe.quiet sched →
  (2 ≤ observe.main_steps sched)%nat →
  state (run c d sched (boot c s0)) = Panicked
  ∧ observe.milestones (observe.history (run c d sched (boot c s0))) = [].
Proof.
  intros He Hq Hk.
  destruct (quiet_run_same_place c d sched _ _ Hq (same_place_boot c s0)) as (Hs & Hp & _).
  destruct (order_run c d sched s0) as [_ Hord]. unfold invariant.order in Hord.
  replace (observe.main_steps sched) with (2 + (observe.main_steps sched - 2))%nat in * by lia.
  destruct (after_2_nil c d s0 (observe.main_steps sched - 2) He) as [H1 H2].
  unfold observe.alone in *. rewrite Hs, H1. split; [done|].
  rewrite Hp, H2 in Hord. done.
Qed.

Lemma unregistered_emitter_panics_witness :
  state (run (sample.two_lines {[ "HABERDASHER_EMITTER"%string := "kafka"%string ]}
                               sample.collector) sample.no_defaults
             [RunMain; RunMain]
             (boot (sample.two_lines {[ "HABERDASHER_EMITTER"%string := "kafka"%string ]}
                                     sample.collector) [])) = Panicked
  ∧ observe.milestones
      (observe.history
         (run (sample.two_lines {[ "HABERDASHER_EMITTER"%string := "kafka"%string ]}
                                sample.collector) sample.no_defaults
              [RunMain; RunMain]
              (boot (sample.two_lines {[ "HABERDASHER_EMITTER"%string := "kafka"%string ]}
                                      sample.collector) []))) = [].
Proof.
  apply unregistered_emitter_panics.
  - reflexivity.
  - unfold observe.quiet. repeat (apply Forall_cons; split; [reflexivity|]).
    apply Forall_nil. exact I.
  - vm_compute. lia.
Defined.

Lemma fatal_last_step {St} (c : config St) d a (w : world St) :
  invariant.fatal_last c w → invariant.fatal_last c (step c d a w).
Proof.
  intros Hw. unfold step. destruct (state w) eqn:Es; try done.
  unfold invariant.fatal_last. destruct a as [|now| |sig].
  - unfold main_step. destruct (pc w).
    + cbn. by rewrite Es.
    + unfold setup. destruct (emitter w); cbn; [by rewrite Es|done].
    + unfold start. destruct (Args c) as [|? [|? ?]]; [done..|].
      destruct (spawn c) as [err|err|ch lines]; cbn; [eauto..|by rewrite Es].
    + cbn. by rewrite Es.
    + unfold scan. destruct (input w); cbn; by rewrite Es.
    + done.
  - unfold task_step. destruct (tasks w); [by rewrite Es|].
    destruct (emitter w); [|by rewrite Es]. destruct (Emit _ _ _ _ _). cbn. by rewrite Es.
  - unfold handler_step. destruct (signalChan w); [|by rewrite Es].
    unfold signalHandler. destruct (emitter w) as [e|]; [|done].
    by destruct (Cleanup e (sink w)) as [s' [err|]].
  - unfold signal_step. repeat case_match; cbn; by rewrite ?Es.
Qed.

Lemma fatal_last_run {St} (c : config St) d sched s0 :
  invariant.fatal_last c (run c d sched (boot c s0)).
Proof. apply run_invariant; [apply fatal_last_step | done]. Qed.

(** X15: without a command to run, [os.Args[1]] panics after the emitter has
    been set up; the child is not started. *)
Theorem missing_command_panics {St} (c : config St) (d : defaults) (s0 : St)
        (sched : list action) (e : Emitter St) :
  Emitters c !! observe.emitterName c = Some e →
  (length (Args c) < 2)%nat →
  observe.quiet sched →
  (3 ≤ observe.main_steps sched)%nat →
  state (run c d sched (boot c s0)) = Panicked
  ∧ observe.milestones (observe.history (run c d sched (boot c s0))) = [EvSetup].
Proof.
  intros He Ha Hq Hk.
  destruct (quiet_run_same_place c d sched _ _ Hq (same_place_boot c s0)) as (Hs & Hp & _).
  destruct (order_run c d sched s0) as [_ Hord]. unfold invariant.order in Hord.
  replace (observe.main_steps sched) with (3 + (observe.main_steps sched - 3))%nat in * by lia.
  destruct (after_3_no_command c d s0 e (observe.main_steps sched - 3) He Ha) as [H1 H2].
  unfold observe.alone in *. rewrite Hs, H1. split; [done|].
  rewrite Hp, H2 in Hord. done.
Qed.

Lemma missing_command_panics_witness :
  state (run sample.no_command sample.no_defaults [RunMain; RunMain; RunMain]
             (boot sample.no_command [])) = Panicked
  ∧ observe.milestones
      (observe.history (run sample.no_command sample.no_defaults [RunMain; RunMain; RunMain]
                            (boot sample.no_command []))) = [EvSetup].
Proof.
  apply (missing_command_panics _ _ _ _ sample.collector).
  - reflexivity.
  - vm_compute. lia.
  - unfold observe.quiet. repeat (apply Forall_cons; split; [reflexivity|]).
    apply Forall_nil. exact I.
  - vm_compute. lia.
Defined.

(** X16: when the pipe or the child cannot be started, [log.Fatal] writes the
    error and the process ends with status 1: the emitter has been set up,
    and nothing else. *)
Theorem failed_start_is_fatal {St} (c : config St) (d : defaults) (s0 : St)
        (sched : list action) (e : Emitter St) (name bin : string) (args : list string)
        (err : string) :
  Emitters c !! observe.emitterName c = Some e →
  Args c = name :: bin :: args →
  spawn c = PipeFailed err ∨ spawn c = StartFailed err →
  observe.quiet sched →
  (3 ≤ observe.main_steps sched)%nat →
  state (run c d sched (boot c s0)) = Exited 1
  ∧ head (trace (run c d sched (boot c s0))) = Some (EvLog (LogFatal err))
  ∧ observe.milestones (observe.history (run c d sched (boot c s0))) = [EvSetup].
Proof.
  intros He Ha Hsp Hq Hk.
  destruct (quiet_run_same_place c d sched _ _ Hq (same_place_boot c s0)) as (Hs & Hp & _).
  destruct (order_run c d sched s0) as [_ Hord]. unfold invariant.order in Hord.
  pose proof (fatal_last_run c d sched s0) as Hf.
  replace (observe.main_steps sched) with (3 + (observe.main_steps sched - 3))%nat in * by lia.
  destruct (after_3_failed c d s0 e name bin args err (observe.main_steps sched - 3) He Ha Hsp)
    as [H1 H2].
  unfold observe.alone in *. rewrite Hs, H1 in *. split; [done|].
  rewrite Hp, H2 in Hord. split; [|done].
  destruct (Hf Hs) as (err' & Hsp' & ->).
  destruct Hsp as [Hsp|Hsp], Hsp' as [Hsp'|Hsp']; congruence.
Qed.

Lemma failed_start_is_fatal_witness :
  state (run sample.no_such_file sample.no_defaults [RunMain; RunMain; RunMain]
             (boot sample.no_such_file [])) = Exited 1
  ∧ head (trace (run sample.no_such_file sample.no_defaults [RunMain; RunMain; RunMain]
                     (boot sample.no_such_file [])))
    = Some (EvLog (LogFatal "exec: no such file"))
  ∧ observe.milestones
      (observe.history
         (run sample.no_such_file sample.no_defaults [RunMain; RunMain; RunMain]
              (boot sample.no_such_file []))) = [EvSetup].
Proof.
  apply (failed_start_is_fatal _ _ _ _ sample.collector "haberdasher" "/bin/app" []).
  - reflexivity.
  - reflexivity.
  - right. reflexivity.
  - unfold observe.quiet. repeat (apply Forall_cons; split; [reflexivity|]).
    apply Forall_nil. exact I.
  - vm_compute. lia.
Defined.

(** ** The goroutines of the read loop *)

Lemma step_task {St} (c : config St) d now (w : world St) n e :
  state w = Running → tasks w = S n → emitter w = Some e →
  state (step c d (RunTask now) w) = Running
  ∧ pc (step c d (RunTask now) w) = pc w
  ∧ input (step c d (RunTask now) w) = input w
  ∧ tasks (step c d (RunTask now) w) = n
  ∧ emitter (step c d (RunTask now) w) = Some e
  ∧ token (step c d (RunTask now) w) = token w
  ∧ delivered (step c d (RunTask now) w) = delivered w ++ [messageToEmit d now (token w)].
Proof.
  intros Hs Ht He. unfold step. rewrite Hs.
  destruct (delivered_task_step d now w n e Ht He) as (Hd & Ht' & Hp & Hi & Hs').
  rewrite Hd, Ht', Hp, Hi, Hs', Hs. repeat split; try done.
  - unfold task_step. rewrite Ht, He. by destruct (Emit _ _ _ _ _).
  - unfold task_step. rewrite Ht, He. by destruct (Emit _ _ _ _ _).
Qed.

(** Every goroutine runs before the next line is read. *)
Lemma prompt_loop {St} (c : config St) d (e : Emitter St) lines : ∀ nows (w : world St),
  length nows = length lines →
  state w = Running → pc w = AtScan → input w = lines → tasks w = 0%nat →
  emitter w = Some e →
  state (run c d (flat_map (λ now, [RunMain; RunTask now]) nows) w) = Running
  ∧ pc (run c d (flat_map (λ now, [RunMain; RunTask now]) nows) w) = AtScan
  ∧ input (run c d (flat_map (λ now, [RunMain; RunTask now]) nows) w) = []
  ∧ tasks (run c d (flat_map (λ now, [RunMain; RunTask now]) nows) w) = 0%nat
  ∧ delivered (run c d (flat_map (λ now, [RunMain; RunTask now]) nows) w)
    = delivered w ++ zip_with (messageToEmit d) nows lines.
Proof.
  induction lines as [|line rest IH]; intros nows w Hl Hs Hp Hi Ht He.
  { destruct nows; [|done]. cbn. by rewrite app_nil_r. }
  destruct nows as [|now nows]; [done|]. injection Hl as Hl.
  cbn [flat_map app]. rewrite !run_cons.
  destruct (scan_alone c d 1 w) as (S1 & S2 & S3 & S4 & S5 & S6 & S7);
    [done|done|rewrite Hi; cbn; lia|].
  cbn [repeat] in *. rewrite run_cons in *. cbn [run fold_left] in S1, S2, S3, S4, S5, S6, S7.
  rewrite Hi in S3, S7. cbn in S3, S7. rewrite drop_0 in S3. rewrite take_0 in S7.
  rewrite Ht in S4. rewrite He in S5.
  destruct (step_task c d now (step c d RunMain w) 0 e) as (T1 & T2 & T3 & T4 & T5 & T6 & T7);
    [done..|].
  destruct (IH nows (step c d (RunTask now) (step c d RunMain w)))
    as (I1 & I2 & I3 & I4 & I5); try congruence.
  rewrite I1, I2, I3, I4, I5, T7, S6, S7. repeat split; try done.
  by rewrite <- app_assoc.
Qed.

(** The schedule [observe.prompt] from the start of the supervisor to its end. *)
Lemma prompt_run {St} (c : config St) (d : defaults) (s0 : St)
        (e : Emitter St) (name bin : string) (args : list string)
        (child : syscall.proc) (lines : list string) (nows : list time.Time) :
  Emitters c !! observe.emitterName c = Some e →
  Args c = name :: bin :: args →
  spawn c = Started child lines →
  length nows = length lines →
  state (run c d (observe.prompt nows) (boot c s0)) = Exited 0
  ∧ tasks (run c d (observe.prompt nows) (boot c s0)) = 0%nat
  ∧ delivered (run c d (observe.prompt nows) (boot c s0))
    = zip_with (messageToEmit d) nows lines.
Proof.
  intros He Ha Hsp Hl.
  destruct (after_4 c d s0 e name bin args child lines He Ha Hsp)
    as (_ & H1 & H2 & H3 & H4 & H5 & _).
  pose proof (delivered_alone c d s0 4) as H6.
  unfold observe.prompt. change [RunMain; RunMain; RunMain; RunMain] with (repeat RunMain 4).
  rewrite !run_app. fold (observe.alone c d s0 4).
  destruct (prompt_loop c d e lines nows (observe.alone c d s0 4))
    as (I1 & I2 & I3 & I4 & I5); try done.
  set (w := run c d (flat_map _ nows) (observe.alone c d s0 4)) in *.
  rewrite H6 in I5. cbn [app] in I5.
  rewrite !run_cons. cbn [run fold_left].
  assert (step c d RunMain w = scan w) as ->.
  { rewrite step_main by done. unfold main_step. by rewrite I2. }
  assert (state (scan w) = Running ∧ pc (scan w) = AtReturn ∧ tasks (scan w) = 0%nat
          ∧ delivered (scan w) = delivered w) as (J1 & J2 & J3 & J4).
  { unfold scan. rewrite I3. cbn. done. }
  rewrite step_main by done. unfold main_step. rewrite J2.
  cbn [state tasks set_state]. split; [done|]. split; [done|].
  change (delivered (set_state (Exited 0) (scan w))) with (delivered (scan w)).
  by rewrite J4.
Qed.

(** X18: when every goroutine of the read loop runs before the next line is
    read, each line is delivered once, in the order of the lines, and the
    process ends with status 0. *)
Theorem prompt_goroutines_deliver_every_line {St} (c : config St) (d : defaults) (s0 : St)
        (e : Emitter St) (name bin : string) (args : list string)
        (child : syscall.proc) (lines : list string) (nows : list time.Time) :
  Emitters c !! observe.emitterName c = Some e →
  Args c = name :: bin :: args →
  spawn c = Started child lines →
  length nows = length lines →
  state (run c d (observe.prompt nows) (boot c s0)) = Exited 0
  ∧ tasks (run c d (observe.prompt nows) (boot c s0)) = 0%nat
  ∧ delivered (run c d (observe.prompt nows) (boot c s0))
    = zip_with (messageToEmit d) nows lines.
Proof. apply prompt_run. Qed.

Lemma prompt_goroutines_deliver_every_line_witness :
  state (run (sample.two_lines ∅ sample.collector) sample.no_defaults
             (observe.prompt [sample.noon; sample.noon])
             (boot (sample.two_lines ∅ sample.collector) [])) = Exited 0
  ∧ tasks (run (sample.two_lines ∅ sample.collector) sample.no_defaults
               (observe.prompt [sample.noon; sample.noon])
               (boot (sample.two_lines ∅ sample.collector) [])) = 0%nat
  ∧ delivered (run (sample.two_lines ∅ sample.collector) sample.no_defaults
                   (observe.prompt [sample.noon; sample.noon])
                   (boot (sample.two_lines ∅ sample.collector) []))
    = zip_with (messageToEmit sample.no_defaults) [sample.noon; sample.noon]
               [sample.line_a; sample.line_b].
Proof.
  apply (prompt_goroutines_deliver_every_line
           (sample.two_lines ∅ sample.collector) sample.no_defaults []
           sample.collector "haberdasher" "/bin/app" [] sample.child
           [sample.line_a; sample.line_b] [sample.noon; sample.noon]);
    reflexivity.
Defined.

(** The goroutines run while [main] waits. *)
Lemma tasks_alone {St} (c : config St) d (e : Emitter St) nows : ∀ w : world St,
  (length nows ≤ tasks w)%nat → state w = Running → emitter w = Some e →
  delivered (run c d (map RunTask nows) w)
  = delivered w ++ map (λ now, messageToEmit d now (token w)) nows.
Proof.
  induction nows as [|now nows IH]; intros w Hl Hs He.
  { cbn. by rewrite app_nil_r. }
  cbn [map]. rewrite run_cons. cbn in Hl.
  destruct (tasks w) as [|n] eqn:Et; [lia|].
  destruct (step_task c d now w n e Hs Et He) as (T1 & T2 & T3 & T4 & T5 & T6 & T7).
  rewrite IH; [|lia|done|done]. rewrite T6, T7. by rewrite <- app_assoc.
Qed.

(** X19: a goroutine of the read loop reads [scanner.Text()] when it runs:
    the goroutines that run after the last line has been read all deliver
    the last line. *)
Theorem late_goroutines_deliver_the_last_line {St} (c : config St) (d : defaults) (s0 : St)
        (e : Emitter St) (name bin : string) (args : list string)
        (child : syscall.proc) (lines : list string) (nows : list time.Time) :
  Emitters c !! observe.emitterName c = Some e →
  Args c = name :: bin :: args →
  spawn c = Started child lines →
  (length nows ≤ length lines)%nat →
  delivered (run c d (observe.late (length lines) nows) (boot c s0))
  = map (λ now, messageToEmit d now (List.last lines EmptyString)) nows.
Proof.
  intros He Ha Hsp Hl.
  destruct (after_scan c d s0 e name bin args child lines He Ha Hsp (length lines))
    as (H1 & H2 & H3 & H4 & H5 & H6 & H7); [done|].
  unfold observe.late. rewrite run_app. fold (observe.alone c d s0 (4 + length lines)).
  rewrite (tasks_alone c d e); [|lia|done|done].
  by rewrite H6, H7, firstn_all.
Qed.

Lemma late_goroutines_deliver_the_last_line_witness :
  delivered (run (sample.two_lines ∅ sample.collector) sample.no_defaults
                 (observe.late 2 [sample.noon; sample.noon])
                 (boot (sample.two_lines ∅ sample.collector) []))
  = map (λ now, messageToEmit sample.no_defaults now sample.line_b)
        [sample.noon; sample.noon].
Proof.
  apply (late_goroutines_deliver_the_last_line
           (sample.two_lines ∅ sample.collector) sample.no_defaults []
           sample.collector "haberdasher" "/bin/app" [] sample.child
           [sample.line_a; sample.line_b] [sample.noon; sample.noon]).
  - reflexivity.
  - reflexivity.
  - reflexivity.
  - cbn. lia.
Defined.

(** ** The registry and [main] *)

Lemma delivered_task_step_pc {St} d now (w : world St) : pc (task_step d now w) = pc w.
Proof.
  unfold task_step. destruct (tasks w); [done|]. destruct (emitter w); [|done].
  by destruct (Emit _ _ _ _ _).
Qed.

Lemma set_up_step {St} (c : config St) d a (w : world St) :
  pc w ≠ AtBegin ∧ pc w ≠ AtSetup →
  pc (step c d a w) ≠ AtBegin ∧ pc (step c d a w) ≠ AtSetup.
Proof.
  intros H. unfold step. destruct (state w); try done. destruct a as [|now| |sig].
  - unfold main_step. destruct (pc w) eqn:E; try (by destruct H).
    + unfold start. destruct (Args c) as [|? [|? ?]]; cbn; rewrite ?E; try done.
      destruct (spawn c); cbn; rewrite ?E; split; congruence.
    + unfold scan. destruct (input w); cbn; split; congruence.
    + cbn. by rewrite E.
  - by rewrite delivered_task_step_pc.
  - by destruct (delivered_handler_step c w) as (_ & _ & -> & _).
  - by destruct (signal_step_same sig w) as (_ & _ & -> & _).
Qed.

(** X11: the emitter that was registered last under the configured name is
    the one [main] sets up, before anything else is done with it. *)
Theorem registered_emitter_is_set_up {St} (c : config St) (d : defaults) (s0 : St)
        (sched : list action) (e : Emitter St) (registry : gmap string (Emitter St)) :
  Emitters c = Register (observe.emitterName c) e registry →
  observe.quiet sched →
  (2 ≤ observe.main_steps sched)%nat →
  emitter (run c d sched (boot c s0)) = Some e
  ∧ head (observe.milestones (observe.history (run c d sched (boot c s0)))) = Some EvSetup.
Proof.
  intros Hr Hq Hk.
  assert (Emitters c !! observe.emitterName c = Some e) as He.
  { rewrite Hr. apply lookup_insert_eq. }
  destruct (quiet_run_same_place c d sched _ _ Hq (same_place_boot c s0)) as (_ & Hp & _).
  destruct (order_run c d sched s0) as [[_ Hctl] Hord]. unfold invariant.order in Hord.
  assert (pc (run c d sched (boot c s0)) ≠ AtBegin
          ∧ pc (run c d sched (boot c s0)) ≠ AtSetup) as [Hb Hs].
  { rewrite Hp.
    replace (observe.main_steps sched) with (2 + (observe.main_steps sched - 2))%nat by lia.
    rewrite repeat_app, run_app. apply run_invariant; [apply set_up_step|].
    fold (observe.alone c d s0 2). destruct (after_2 c d s0 e He) as [_ ->]. done. }
  destruct (pc (run c d sched (boot c s0))); try done.
  - destruct Hctl as (-> & _). by rewrite Hord.
  - destruct Hctl as (-> & _). destruct Hord as (? & ? & ? & _ & ->). done.
  - destruct Hctl as (-> & _). destruct Hord as (? & ? & ? & _ & ->). done.
  - destruct Hctl as (-> & _). destruct Hord as (? & ? & ? & _ & ->). done.
Qed.

Lemma registered_emitter_is_set_up_witness :
  emitter (run sample.replaced sample.no_defaults [RunMain; RunMain]
               (boot sample.replaced [])) = Some sample.collector
  ∧ head (observe.milestones
            (observe.history (run sample.replaced sample.no_defaults [RunMain; RunMain]
                                  (boot sample.replaced [])))) = Some EvSetup.
Proof.
  apply (registered_emitter_is_set_up sample.replaced sample.no_defaults []
           [RunMain; RunMain] sample.collector {[ "stderr"%string := sample.failing ]}).
  - reflexivity.
  - unfold observe.quiet. repeat (apply Forall_cons; split; [reflexivity|]).
    apply Forall_nil. exact I.
  - vm_compute. lia.
Defined.

(** ** The channel of signals *)

Lemma signalChan_main_step {St} (c : config St) (w : world St) :
  signalChan (main_step c w) = signalChan w.
Proof.
  unfold main_step, setup, start, scan. destruct (pc w); try done.
  - by destruct (emitter w).
  - destruct (Args c) as [|? [|? ?]]; try done. by destruct (spawn c).
  - by destruct (input w).
Qed.

Lemma signalChan_task_step {St} d now (w : world St) :
  signalChan (task_step d now w) = signalChan w.
Proof.
  unfold task_step. destruct (tasks w); [done|]. destruct (emitter w); [|done].
  by destruct (Emit _ _ _ _ _).
Qed.

Lemma pending_step {St} (c : config St) d a sig (w : world St) :
  observe.caught sig → invariant.pending sig w → invariant.pending sig (step c d a w).
Proof.
  intros Hc [(Hs & Hch & Hk)|(Hs & Hk)]; unfold step.
  2: { destruct (state w) eqn:E; [done|..]; right; rewrite E; done. }
  rewrite Hs. destruct a as [|now| |sig'].
  - destruct (main_step_calm c w) as (Hk' & _).
    destruct (state (main_step c w)) eqn:Hr.
    + left. by rewrite signalChan_main_step, Hk'.
    + right. rewrite Hk', Hk, Hr. split; [done|]. apply Forall_nil. exact I.
    + right. rewrite Hk', Hk, Hr. split; [done|]. apply Forall_nil. exact I.
    + right. rewrite Hk', Hk, Hr. split; [done|]. apply Forall_nil. exact I.
  - destruct (task_step_calm d now w) as (Hk' & _). left.
    rewrite signalChan_task_step, Hk'. repeat split; try done.
    unfold task_step. destruct (tasks w); [done|]. destruct (emitter w); [|done].
    by destruct (Emit _ _ _ _ _).
  - right. unfold handler_step. rewrite Hch.
    pose proof (kills_signalHandler (subcmdPid w) (emitter w) sig (sink w)) as [Hk' Hn'].
    destruct (signalHandler _ _ _ _) as [[sink' evs] st]. cbn [fst snd] in Hk', Hn'.
    split; [done|]. unfold observe.history in *. cbn [trace].
    rewrite rev_app_distr, rev_involutive, kills_app, Hk, Hk'.
    rewrite (signalToSendChild_caught sig Hc). by apply Forall_one.
  - assert (observe.history (signal_step sig' w) = observe.history w) as Hh.
    { destruct (signal_step_calm sig' w) as (Ht & _). unfold observe.history. by rewrite Ht. }
    unfold invariant.pending. rewrite Hh, Hk. unfold signal_step.
    destruct (sig' =? syscall.SIGKILL).
    { right. split; [done|]. apply Forall_nil. exact I. }
    destruct (_ || _); [|by left]. destruct (notified w).
    + rewrite Hch. by left.
    + right. split; [done|]. apply Forall_nil. exact I.
Qed.

(** X22: the channel holds one signal: of the signals that arrive, the first
    is the one that is relayed, and the later ones are dropped. *)
Theorem first_signal_is_the_one_relayed {St} (c : config St) (d : defaults) (s0 : St)
        (before after : list action) (sig : Z) :
  state (run c d before (boot c s0)) = Running →
  notified (run c d before (boot c s0)) = true →
  signalChan (run c d before (boot c s0)) = None →
  observe.caught sig →
  Forall (λ k, snd k = sig)
         (observe.kills
            (observe.history (run c d (before ++ Signal sig :: after) (boot c s0)))).
Proof.
  intros Hs Hn Hch Hc. rewrite run_app, run_cons.
  cut (invariant.pending sig (run c d after (step c d (Signal sig) (run c d before (boot c s0))))).
  { intros [(_ & _ & ->)|(_ & H)]; [apply Forall_nil; exact I|done]. }
  apply run_invariant; [intros a w; by apply pending_step|].
  destruct (relay_run c d before s0) as [_ [(Hk & _)|(? & _ & _ & ? & _)]]; [|done].
  set (w := run c d before (boot c s0)) in *. left.
  assert (step c d (Signal sig) w = set_signalChan (Some sig) w) as ->; [|done].
  unfold step, signal_step. rewrite Hs, Hn, Hch.
  by destruct Hc as [->|[->| ->]].
Qed.

Lemma first_signal_is_the_one_relayed_witness :
  Forall (λ k, snd k = syscall.SIGTERM)
         (observe.kills
            (observe.history
               (run (sample.two_lines ∅ sample.collector) sample.no_defaults
                    ([RunMain; RunMain; RunMain; RunMain]
                       ++ Signal syscall.SIGTERM :: [Signal syscall.SIGINT; RunHandler])
                    (boot (sample.two_lines ∅ sample.collector) [])))).
Proof.
  apply first_signal_is_the_one_relayed.
  - reflexivity.
  - reflexivity.
  - reflexivity.
  - right. right. reflexivity.
Defined.

(** ** The exit status *)

Lemma exit_cause_step {St} (c : config St) d a (w : world St) :
  invariant.exit_cause w → invariant.exit_cause (step c d a w).
Proof.
  intros Hw. unfold step. destruct (state w) eqn:Es; try done.
  unfold invariant.exit_cause. intros code. destruct a as [|now| |sig].
  - unfold main_step. destruct (pc w) eqn:Ep.
    + cbn. by rewrite Es.
    + unfold setup. destruct (emitter w); cbn; [by rewrite Es|done].
    + unfold start. destruct (Args c) as [|? [|? ?]]; [done..|].
      destruct (spawn c) as [err|err|ch lines]; cbn; [| |by rewrite Es];
        intros [= <-]; right; eauto.
    + cbn. by rewrite Es.
    + unfold scan. destruct (input w); cbn; by rewrite Es.
    + cbn. intros [= <-]. left. rewrite Ep. auto.
  - unfold task_step. destruct (tasks w); [by rewrite Es|].
    destruct (emitter w); [|by rewrite Es]. destruct (Emit _ _ _ _ _). cbn. by rewrite Es.
  - unfold handler_step. destruct (signalChan w); [|by rewrite Es].
    unfold signalHandler. destruct (emitter w) as [e|]; [|done].
    destruct (Cleanup e (sink w)) as [s' [err|]]; cbn; intros [= <-]; left;
      (split; [done|]); right; rewrite !elem_of_cons; auto.
  - unfold signal_step. repeat case_match; cbn; by rewrite ?Es.
Qed.

(** X26: when the process ends through [os.Exit] or the return of [main],
    its status is 0 or 1: 0 when [main] has returned at the end of the
    stream or when the signal handler has called [Cleanup], 1 where
    [log.Fatal] wrote its message last. *)
Theorem exit_status_tells_the_cause {St} (c : config St) (s0 : St) (sched : list action)
        (code : Z) :
  state (program c s0 sched) = Exited code →
  (code = 0
   ∧ (pc (program c s0 sched) = AtReturn ∨ EvCleanup ∈ trace (program c s0 sched)))
  ∨ (code = 1
     ∧ ∃ msg, head (trace (program c s0 sched)) = Some (EvLog (LogFatal msg))).
Proof.
  unfold program. destruct (init (environ c)) as [d|msg].
  - apply (run_invariant c d invariant.exit_cause); [apply exit_cause_step|done].
  - cbn. intros [= <-]. right. eauto.
Qed.

Lemma exit_status_tells_the_cause_witness :
  (0 = 0
   ∧ (pc (program (sample.two_lines ∅ sample.collector) []
                  (observe.prompt [sample.noon; sample.noon])) = AtReturn
      ∨ EvCleanup ∈ trace (program (sample.two_lines ∅ sample.collector) []
                                   (observe.prompt [sample.noon; sample.noon]))))
  ∨ (0 = 1
     ∧ ∃ msg, head (trace (program (sample.two_lines ∅ sample.collector) []
                                   (observe.prompt [sample.noon; sample.noon])))
              = Some (EvLog (LogFatal msg))).
Proof.
  apply (exit_status_tells_the_cause (sample.two_lines ∅ sample.collector) []
           (observe.prompt [sample.noon; sample.noon]) 0).
  reflexivity.
Defined.

(** ** The bytes of an envelope *)

Ltac printable_byte :=
  vm_compute; repeat split; let E := fresh in intros E; discriminate E.

Lemma hex_printable n : 0 ≤ n < 16 → observe.printable (hex n).
Proof.
  intros H. unfold hex.
  assert (Z.to_nat n < 16)%nat as Hn by lia.
  destruct (Z.to_nat n) as [|[|[|[|[|[|[|[|[|[|[|[|[|[|[|[|k]]]]]]]]]]]]]]]];
    try printable_byte.
  lia.
Qed.

Lemma decode_view_wide p d :
  decode_view p d → is_error d = false →
  (∀ p0 t, p = p0 :: t → 0x80 ≤ b2z p0) →
  Forall (λ b, 0x80 ≤ b2z b) (firstn (snd d) p).
Proof.
  intros Hv He Hp.
  destruct Hv as [p0 t H0|p0 t H0|p0 b1 t H0 H1|p0 b1 b2 t H0 H1|p0 b1 b2 b3 t H0 H1 H2];
    cbn [snd firstn].
  - specialize (Hp _ _ eq_refl). lia.
  - done.
  - repeat (apply Forall_cons; split; [lia|]). apply Forall_nil. exact I.
  - repeat (apply Forall_cons; split; [unfold lead3 in *; lia|]). apply Forall_nil. exact I.
  - repeat (apply Forall_cons; split; [unfold lead4 in *; lia|]). apply Forall_nil. exact I.
Qed.

Lemma printable_digit d : observe.printable (time.digit (d mod 10)).
Proof.
  unfold observe.printable, time.digit. pose proof (Z.mod_pos_bound d 10).
  rewrite b2z_z2b by lia. lia.
Qed.

Lemma printable_decimal f u : Forall observe.printable (time.decimal f u).
Proof.
  revert u. induction f as [|f IH]; intros u; cbn [time.decimal].
  - apply Forall_one, printable_digit.
  - destruct (u <? 10).
    + apply Forall_one, printable_digit.
    + apply Forall_app. split; [apply IH|]. apply Forall_one, printable_digit.
Qed.

Lemma printable_appendInt x w : Forall observe.printable (time.appendInt x w).
Proof.
  unfold time.appendInt. repeat (apply Forall_app; split).
  - destruct (x <? 0); [apply Forall_one; printable_byte | apply Forall_nil; exact I].
  - apply Forall_forall. intros b Hb%list_elem_of_In%repeat_spec. subst. printable_byte.
  - apply printable_decimal.
Qed.

Lemma printable_drop_zeros l :
  Forall observe.printable l → Forall observe.printable (time.drop_zeros l).
Proof.
  induction 1 as [|b l Hb Hl IH]; cbn [time.drop_zeros]; [apply Forall_nil; exact I|].
  destruct (b2z b =? 48); [exact IH | apply Forall_cons; by split].
Qed.

Lemma printable_format t : Forall observe.printable (time.format_RFC3339Nano t).
Proof.
  unfold time.format_RFC3339Nano, time.appendNano, time.appendZone.
  repeat first
    [ apply printable_appendInt
    | apply Forall_cons; split; [printable_byte|]
    | apply Forall_app; split ].
  - destruct (time.nanosecond t =? 0); [apply Forall_nil; exact I|].
    apply Forall_cons; split; [printable_byte|].
    apply Forall_rev, printable_drop_zeros, Forall_rev, printable_appendInt.
  - destruct (time.offset t =? 0).
    + apply Forall_one. printable_byte.
    + repeat first
        [ apply printable_appendInt
        | apply Forall_cons; split; [printable_byte|]
        | apply Forall_app; split ].
      destruct (_ <? 0); apply Forall_one; printable_byte.
Qed.

Lemma htmlSafe_printable b : htmlSafe (b2z b) = true → observe.printable b.
Proof.
  unfold htmlSafe, observe.printable. intros H.
  apply andb_prop in H as [H1 H2]. apply andb_prop in H1 as [H0 H1].
  apply negb_true_iff in H2. repeat (apply orb_false_elim in H2 as [H2 ?]). lia.
Qed.

(** A property of texts that holds of the pieces [Marshal] writes an
    envelope with holds of the envelope. *)
Section Pieces.
Variable Q : list byte → Prop.
Hypothesis Q_nil : Q [].
Hypothesis Q_app : ∀ a b, Q a → Q b → Q (a ++ b).
Hypothesis Q_ascii : ∀ b, observe.printable b → Q [b].
Hypothesis Q_rune : ∀ p0 t,
  0x80 ≤ b2z p0 → is_error (DecodeRune (p0 :: t)) = false →
  Q (firstn (snd (DecodeRune (p0 :: t))) (p0 :: t)).

Lemma pieces_cons b l : observe.printable b → Q l → Q (b :: l).
Proof. intros Hb Hl. apply (Q_app [b] l); auto. Qed.

Lemma pieces_printable l : Forall observe.printable l → Q l.
Proof. induction 1 as [|b l Hb Hl IH]; [done|]. by apply pieces_cons. Qed.

Lemma pieces_escape b : Q (escape b).
Proof.
  unfold escape.
  assert (0 ≤ Z.shiftr (b2z b) 4 < 16 ∧ 0 ≤ Z.land (b2z b) 0xF < 16) as [H1 H2].
  { pose proof (b2z_range b). change 0xF with (Z.ones 4).
    rewrite Z.land_ones, Z.shiftr_div_pow2 by lia. change (2 ^ 4) with 16. split; zarith. }
  destruct (_ || _) eqn:E.
  - apply pieces_cons; [printable_byte|]. apply Q_ascii.
    apply orb_true_iff in E as [E|E]; apply Z.eqb_eq in E; unfold observe.printable; lia.
  - repeat case_match;
      repeat (apply pieces_cons;
              [first [apply hex_printable; assumption | printable_byte]|]);
      apply Q_nil.
Qed.

Lemma pieces_quote_from p : ∀ skip, Q (quote_from skip p).
Proof.
  induction p as [|b rest IH]; intros skip; cbn [quote_from]; [done|].
  destruct skip as [|k]; [|apply IH].
  destruct (b2z b <? RuneSelf) eqn:Eb.
  - apply Q_app; [|apply IH]. destruct (htmlSafe (b2z b)) eqn:Es.
    + by apply Q_ascii, htmlSafe_printable.
    + apply pieces_escape.
  - apply Z.ltb_ge in Eb. unfold RuneSelf in Eb.
    destruct (is_error (DecodeRune (b :: rest))) eqn:Ee.
    + apply pieces_cons; [printable_byte|]. apply Q_app; [|apply IH].
      repeat (apply pieces_cons; [printable_byte|]). apply Q_nil.
    + destruct (_ || _).
      * repeat (apply pieces_cons; [printable_byte|]).
        apply pieces_cons; [|apply IH]. apply hex_printable.
        change 0xF with (Z.ones 4). rewrite Z.land_ones by lia. apply Z.mod_pos_bound. lia.
      * apply Q_app; [|apply IH]. by apply Q_rune.
Qed.

Lemma pieces_appendString s : Q (appendString s).
Proof.
  unfold appendString. apply pieces_cons; [printable_byte|].
  apply Q_app; [apply pieces_quote_from|]. apply Q_ascii. printable_byte.
Qed.

Lemma pieces_join (parts : list (list byte)) :
  Forall Q parts → Q (join [","%byte] parts).
Proof.
  induction 1 as [|x l Hx Hl IH]; [done|]. cbn [join]. destruct l as [|y l]; [done|].
  apply Q_app; [done|]. apply Q_app; [|done]. apply Q_ascii. printable_byte.
Qed.

Lemma pieces_marshal_strings xs : Q (marshal_strings xs).
Proof.
  destruct xs as [l|]; cbn [marshal_strings].
  - apply pieces_cons; [printable_byte|]. apply Q_app; [|apply Q_ascii; printable_byte].
    apply pieces_join, Forall_forall. intros x (s & -> & _)%list_elem_of_fmap.
    apply pieces_appendString.
  - repeat (apply pieces_cons; [printable_byte|]). apply Q_nil.
Qed.

Lemma pieces_marshal_string_map m : Q (marshal_string_map m).
Proof.
  destruct m as [m|]; cbn [marshal_string_map].
  - apply pieces_cons; [printable_byte|]. apply Q_app; [|apply Q_ascii; printable_byte].
    apply pieces_join, Forall_forall. intros x (kv & -> & _)%list_elem_of_fmap.
    unfold member. apply Q_app; [apply pieces_appendString|].
    apply pieces_cons; [printable_byte|apply pieces_appendString].
  - repeat (apply pieces_cons; [printable_byte|]). apply Q_nil.
Qed.

Lemma pieces_marshal_struct (fields : list (string * list byte)) :
  Forall (λ f, Q (snd f)) fields → Q (marshal_struct fields).
Proof.
  intros H. unfold marshal_struct. apply pieces_cons; [printable_byte|].
  apply Q_app; [|apply Q_ascii; printable_byte].
  apply pieces_join, Forall_forall. intros x (f & -> & Hf)%list_elem_of_fmap.
  apply Q_app; [apply pieces_appendString|]. apply pieces_cons; [printable_byte|].
  by apply (proj1 (Forall_forall _ _) H).
Qed.

Lemma pieces_wrap d now line : Q (wrap d now line).
Proof.
  unfold wrap, Marshal, time.MarshalJSON. cbn [Timestamp envelope].
  destruct (time.writable now); [|done].
  apply pieces_marshal_struct.
  repeat (apply Forall_cons; split; cbn [snd]);
    [apply pieces_appendString | | apply pieces_marshal_string_map
     | apply pieces_marshal_strings | apply pieces_appendString | apply Forall_nil; exact I].
  apply pieces_cons; [printable_byte|].
  apply Q_app; [apply pieces_printable, printable_format|].
  apply Q_ascii. printable_byte.
Qed.

End Pieces.

(** X2: the envelope is one line of text that is safe in HTML: it holds no
    control character and none of the characters [<], [>] and [&], whatever
    the line and the defaults hold. *)
Theorem envelope_is_one_line (d : defaults) (now : time.Time) (line : string) :
  Forall (λ b, 0x20 ≤ b2z b ∧ b2z b ≠ 0x26 ∧ b2z b ≠ 0x3C ∧ b2z b ≠ 0x3E)
         (wrap d now line).
Proof.
  apply (pieces_wrap
           (Forall (λ b, 0x20 ≤ b2z b ∧ b2z b ≠ 0x26 ∧ b2z b ≠ 0x3C ∧ b2z b ≠ 0x3E))).
  - apply Forall_nil. exact I.
  - intros a b Ha Hb. apply Forall_app. by split.
  - intros b Hb. apply Forall_one. unfold observe.printable in Hb. lia.
  - intros p0 t H0 He.
    apply (Forall_impl (λ b, 0x80 ≤ b2z b)); [|intros b Hb; lia].
    apply decode_view_wide; [apply DecodeRune_view|done|].
    intros ? ? [= <- <-]. done.
Qed.

(** X3: the envelope is valid UTF-8, whatever bytes the line holds. *)
Theorem envelope_is_valid_UTF8 (d : defaults) (now : time.Time) (line : string) :
  Valid (wrap d now line) = true.
Proof.
  assert (∀ q, valid_from 0 (wrap d now line ++ q) = valid_from 0 q) as H.
  { apply (pieces_wrap (λ a, ∀ q, valid_from 0 (a ++ q) = valid_from 0 q)).
    - done.
    - intros a b Ha Hb q. by rewrite <- app_assoc, Ha, Hb.
    - intros b Hb q. apply valid_from_ascii. unfold observe.printable in Hb. lia.
    - intros p0 t H0 He q. rewrite <- EncodeRune_DecodeRune by done.
      apply valid_from_EncodeRune. }
  unfold Valid. rewrite <- (app_nil_r (wrap d now line)), H. done.
Qed.

(** ** What [Emit] hands over *)

Lemma bytes_of_string_of_bytes b : bytes_of_string (string_of_bytes b) = b.
Proof. apply list_byte_of_string_of_list_byte. Qed.

Lemma string_of_bytes_of_string s : string_of_bytes (bytes_of_string s) = s.
Proof. apply string_of_list_byte_of_string. Qed.

Lemma string_elem_interface v s : string_elem v = inr s → interface_ok v = true.
Proof. by destruct v. Qed.

Lemma string_elems_interface xs : ∀ ss,
  string_elems xs = inr ss → forallb interface_ok xs = true.
Proof.
  induction xs as [|v xs IH]; intros ss H; [done|]. cbn [string_elems] in H.
  destruct (string_elem v) as [e|s] eqn:Ev; [done|].
  destruct (string_elems xs) as [e|ss'] eqn:Es; [done|].
  cbn [forallb]. by rewrite (string_elem_interface v s Ev), (IH ss').
Qed.

Lemma string_members_interface kvs : ∀ m0 m,
  string_members kvs m0 = inr m → forallb (λ kv, interface_ok (snd kv)) kvs = true.
Proof.
  induction kvs as [|[k v] kvs IH]; intros m0 m H; [done|]. cbn [string_members] in H.
  destruct (string_elem v) as [e|s] eqn:Ev; [done|].
  cbn [forallb snd]. by rewrite (string_elem_interface v s Ev), (IH _ _ H).
Qed.

Lemma decode_strings_interface v xs : decode_strings v = inr xs → interface_ok v = true.
Proof.
  destruct v as [| | | |l|]; try done. cbn. intros H.
  destruct (string_elems l) eqn:E; [done|]. by apply (string_elems_interface l l0).
Qed.

Lemma decode_string_map_interface v m : decode_string_map v = inr m → interface_ok v = true.
Proof.
  destruct v as [| | | | |kvs]; try done. cbn. intros H.
  destruct (string_members kvs ∅) eqn:E; [done|]. by apply (string_members_interface kvs ∅ g).
Qed.

(** X1: what [Emit] hands over for a line is a text that [Emit] passes
    through unchanged. *)
Theorem what_is_handed_over_passes_through (environ : gmap string string) (d : defaults)
        (now now' : time.Time) (line : string) :
  init environ = Loaded d →
  time.writable now = true →
  Unmarshal_object (messageToEmit d now line) = None
  ∧ messageToEmit d now' (string_of_bytes (messageToEmit d now line))
    = messageToEmit d now line.
Proof.
  intros Hi Hw.
  assert (Unmarshal_object (messageToEmit d now line) = None) as H.
  { unfold messageToEmit. destruct (Unmarshal_object (bytes_of_string line)) eqn:E; [|done].
    destruct (wrap_reads_back environ d now line Hi Hw) as (labels & tags & Hp & Hl & Ht).
    apply (Unmarshal_object_accepts _ _ Hp). cbn [forallb snd interface_ok].
    by rewrite (decode_string_map_interface _ _ Hl), (decode_strings_interface _ _ Ht). }
  split; [done|].
  unfold messageToEmit at 1. by rewrite bytes_of_string_of_bytes, H.
Qed.

Lemma what_is_handed_over_passes_through_witness :
  Unmarshal_object (messageToEmit sample.no_defaults sample.noon "plain text line") = None
  ∧ messageToEmit sample.no_defaults sample.noon
      (string_of_bytes (messageToEmit sample.no_defaults sample.noon "plain text line"))
    = messageToEmit sample.no_defaults sample.noon "plain text line".
Proof.
  apply (what_is_handed_over_passes_through ∅); reflexivity.
Defined.

Lemma skip_ws_blank s : Forall (λ b, isSpace (b2z b) = true) s → skip_ws s = [].
Proof. induction 1 as [|b s Hb Hs IH]; [done|]. cbn [skip_ws]. by rewrite Hb. Qed.

Lemma parse_blank s : Forall (λ b, isSpace (b2z b) = true) s → parse s = None.
Proof. intros H. unfold parse. cbn [value]. by rewrite (skip_ws_blank s H). Qed.

(** X5: an empty line, and a line of white space, is not dropped: it is
    wrapped in an envelope like any other text. *)
Theorem blank_line_is_wrapped {St} (d : defaults) (e : Emitter St) (now : time.Time)
        (line : string) (sink : St) :
  Forall (λ b, isSpace (b2z b) = true) (bytes_of_string line) →
  messageToEmit d now line = wrap d now line
  ∧ records (snd (Emit d e now line sink)) = [wrap d now line].
Proof.
  intros H. assert (messageToEmit d now line = wrap d now line) as Hm.
  { unfold messageToEmit, Unmarshal_object. by rewrite (parse_blank _ H). }
  by rewrite Emit_records, Hm.
Qed.

Lemma blank_line_is_wrapped_witness :
  messageToEmit sample.no_defaults sample.noon "" = wrap sample.no_defaults sample.noon ""
  ∧ records (snd (Emit sample.no_defaults sample.collector sample.noon "" []))
    = [wrap sample.no_defaults sample.noon ""].
Proof.
  apply blank_line_is_wrapped. apply Forall_nil. exact I.
Defined.

(** X6: the error of [json.Marshal] is dropped: at a time that RFC 3339
    cannot write, the emitter is still called once, with an empty record. *)
Theorem unwritable_time_leaves_an_empty_record {St} (d : defaults) (e : Emitter St)
        (now : time.Time) (line : string) (sink : St) :
  time.writable now = false →
  Unmarshal_object (bytes_of_string line) ≠ None →
  records (snd (Emit d e now line sink)) = [[]].
Proof.
  intros Hw Hu. rewrite Emit_records. unfold messageToEmit.
  destruct (Unmarshal_object (bytes_of_string line)); [|done].
  unfold wrap, Marshal, time.MarshalJSON. cbn [Timestamp envelope]. by rewrite Hw.
Qed.

Lemma unwritable_time_leaves_an_empty_record_witness :
  records (snd (Emit sample.no_defaults sample.collector sample.year_10000 "text" []))
  = [[]].
Proof.
  apply unwritable_time_leaves_an_empty_record.
  - reflexivity.
  - vm_compute. intros H. discriminate H.
Defined.

(** X4: the envelope tells the line: two envelopes that are the same text
    are around the same line, once its invalid bytes are replaced, and
    carry the same time. *)
Theorem envelope_tells_the_line (environ : gmap string string) (d : defaults)
        (now1 now2 : time.Time) (line1 line2 : string) :
  init environ = Loaded d →
  time.writable now1 = true →
  time.writable now2 = true →
  wrap d now1 line1 = wrap d now2 line2 →
  coerce line1 = coerce line2
  ∧ time.format_RFC3339Nano now1 = time.format_RFC3339Nano now2
  ∧ (ValidString line1 = true → ValidString line2 = true → line1 = line2).
Proof.
  intros Hi H1 H2 Heq.
  destruct (wrap_reads_back environ d now1 line1 Hi H1) as (l1 & t1 & P1 & _).
  destruct (wrap_reads_back environ d now2 line2 Hi H2) as (l2 & t2 & P2 & _).
  rewrite Heq, P2 in P1. injection P1 as Ht _ _ Hl.
  split; [done|]. split.
  - by rewrite <- (bytes_of_string_of_bytes (time.format_RFC3339Nano now1)),
      <- (bytes_of_string_of_bytes (time.format_RFC3339Nano now2)), Ht.
  - intros V1 V2. by rewrite <- (coerce_valid line1 V1), <- (coerce_valid line2 V2).
Qed.

Lemma envelope_tells_the_line_witness :
  coerce "text" = coerce "text"
  ∧ time.format_RFC3339Nano sample.noon = time.format_RFC3339Nano sample.noon
  ∧ (ValidString "text" = true → ValidString "text" = true → "text"%string = "text"%string).
Proof.
  apply (envelope_tells_the_line ∅ sample.no_defaults); reflexivity.
Defined.

(** ** The defaults that [init] loads *)

Lemma parse_of_reads n bs v : reads n 0 bs v → parse bs = Some v.
Proof.
  intros H. specialize (H n [] (le_n n)). rewrite app_nil_r in H.
  by apply (parse_fuel_adequate n bs v []).
Qed.

Lemma Unmarshal_strings_Marshal tags :
  Forall (λ s, ValidString s = true) tags →
  Unmarshal_strings (marshal_strings (Some tags)) = inr (Some tags).
Proof.
  intros Hv. unfold Unmarshal_strings.
  rewrite (parse_of_reads _ _ _ (reads_strings 0 (Some tags) eq_refl)).
  by apply decode_json_of_strings.
Qed.

Lemma Unmarshal_string_map_Marshal labels :
  Forall valid_pair (map_to_list labels) →
  Unmarshal_string_map (marshal_string_map (Some labels)) = inr (Some labels).
Proof.
  intros Hv. unfold Unmarshal_string_map.
  rewrite (parse_of_reads _ _ _ (reads_string_map 0 (Some labels) eq_refl)).
  by apply decode_json_of_string_map.
Qed.

(** X7: [init] loads the tags and the labels that [json.Marshal] writes as
    they were, when they are valid UTF-8. *)
Theorem init_loads_what_Marshal_writes (environ : gmap string string)
        (tags : list string) (labels : gmap string string) :
  Forall (λ s, ValidString s = true) tags →
  Forall valid_pair (map_to_list labels) →
  environ !! "HABERDASHER_TAGS"%string
  = Some (string_of_bytes (marshal_strings (Some tags))) →
  environ !! "HABERDASHER_LABELS"%string
  = Some (string_of_bytes (marshal_string_map (Some labels))) →
  init environ = Loaded {| defaultTags := Some tags; defaultLabels := Some labels |}.
Proof.
  intros Ht Hl Et El. unfold init. rewrite Et, El, !bytes_of_string_of_bytes.
  by rewrite (Unmarshal_strings_Marshal tags Ht), (Unmarshal_string_map_Marshal labels Hl).
Qed.

Lemma init_loads_what_Marshal_writes_witness :
  init sample.tagged
  = Loaded {| defaultTags := Some ["web"; "blue"]%string;
              defaultLabels := Some {[ "app"%string := "shop"%string ]} |}.
Proof.
  apply init_loads_what_Marshal_writes.
  - repeat (apply Forall_cons; split; [reflexivity|]). apply Forall_nil. exact I.
  - vm_compute. apply Forall_cons; split; [by split|]. apply Forall_nil. exact I.
  - reflexivity.
  - reflexivity.
Defined.

(** X9: [init] decodes the tags before the labels: when both are rejected,
    the fatal message names the tags. *)
Theorem init_reports_the_tags_first (environ : gmap string string) :
  spec.lenient_array (spec.tags_text environ) = false
  ∨ spec.lenient_object (spec.labels_text environ) = false →
  init environ
  = Fatal (if spec.lenient_array (spec.tags_text environ)
           then "HABERDASHER_LABELS must be a JSON object of strings"
           else "HABERDASHER_TAGS must be a JSON array of strings").
Proof.
  intros H. unfold init. fold (spec.tags_text environ). fold (spec.labels_text environ).
  destruct (spec.lenient_array (spec.tags_text environ)) eqn:Et.
  - destruct H as [H|H]; [done|].
    destruct (Unmarshal_string_map_rejects _ H) as [e ->].
    unfold spec.lenient_array in Et. unfold Unmarshal_strings.
    destruct (parse (spec.tags_text environ)) as [[| | | |xs|]|]; try done.
    cbn [decode_strings]. by destruct (string_elems_accepts xs Et) as [ss ->].
  - by destruct (Unmarshal_strings_rejects _ Et) as [e ->].
Qed.

Lemma init_reports_the_tags_first_witness :
  init sample.swapped
  = Fatal (if spec.lenient_array (spec.tags_text sample.swapped)
           then "HABERDASHER_LABELS must be a JSON object of strings"
           else "HABERDASHER_TAGS must be a JSON array of strings").
Proof.
  apply (init_reports_the_tags_first sample.swapped). left. reflexivity.
Defined.

Lemma string_elems_text xs :
  forallb spec.is_string_or_null xs = true → string_elems xs = inr (map observe.text_of xs).
Proof.
  induction xs as [|v xs IH]; [done|]. cbn [forallb]. intros [Hv Hxs]%andb_prop.
  cbn [string_elems map]. rewrite (IH Hxs). by destruct v.
Qed.

Lemma string_members_text kvs : ∀ m0,
  forallb (λ kv, spec.is_string_or_null (snd kv)) kvs = true →
  string_members kvs m0
  = inr (foldl (λ m kv, <[fst kv := observe.text_of (snd kv)]> m) m0 kvs).
Proof.
  induction kvs as [|[k v] kvs IH]; intros m0; [done|]. cbn [forallb snd].
  intros [Hv Hkvs]%andb_prop. cbn [string_members foldl fst snd].
  destruct v; try done; cbn [string_elem observe.text_of]; by rewrite IH.
Qed.

Lemma foldl_insert_other (l : list (string * json.t)) : ∀ (m : gmap string string) k,
  Forall (λ kv, fst kv ≠ k) l →
  foldl (λ m kv, <[fst kv := observe.text_of (snd kv)]> m) m l !! k = m !! k.
Proof.
  induction l as [|[k' v'] l IH]; intros m k Hl; [done|].
  apply Forall_cons in Hl as [Hk Hl]. cbn [foldl fst snd] in *.
  rewrite (IH _ _ Hl). by apply lookup_insert_ne.
Qed.

(** X8: a [null] among the tags or the values of the labels is loaded as
    the empty string; the tags keep their order, and under a key the labels
    hold the value of the last member that is written with it. *)
Theorem init_loads_null_as_the_empty_string (environ : gmap string string)
        (xs : list json.t) (kvs : list (string * json.t)) :
  parse (spec.tags_text environ) = Some (Array xs) →
  forallb spec.is_string_or_null xs = true →
  parse (spec.labels_text environ) = Some (Object kvs) →
  forallb (λ kv, spec.is_string_or_null (snd kv)) kvs = true →
  ∃ labels,
    init environ
    = Loaded {| defaultTags := Some (map observe.text_of xs); defaultLabels := Some labels |}
    ∧ (∀ k, k ∉ map fst kvs → labels !! k = None)
    ∧ ∀ earlier k v later,
        kvs = earlier ++ (k, v) :: later →
        Forall (λ kv, fst kv ≠ k) later →
        labels !! k = Some (observe.text_of v).
Proof.
  intros Pt Ht Pl Hl.
  exists (foldl (λ m kv, <[fst kv := observe.text_of (snd kv)]> m) ∅ kvs).
  split; [|split].
  - unfold init. fold (spec.tags_text environ). fold (spec.labels_text environ).
    unfold Unmarshal_strings, Unmarshal_string_map. rewrite Pt, Pl.
    cbn [decode_strings decode_string_map].
    by rewrite (string_elems_text xs Ht), (string_members_text kvs ∅ Hl).
  - intros k Hk. rewrite foldl_insert_other; [done|].
    apply Forall_forall. intros kv Hkv Heq. apply Hk. rewrite <- Heq.
    apply list_elem_of_fmap. eauto.
  - intros earlier k v later -> Hlater. rewrite foldl_app. cbn [foldl fst snd].
    rewrite (foldl_insert_other later _ k Hlater). apply lookup_insert_eq.
Qed.

Lemma init_loads_null_as_the_empty_string_witness :
  ∃ labels,
    init sample.with_nulls
    = Loaded {| defaultTags := Some (map observe.text_of [String "web"; Null]);
                defaultLabels := Some labels |}
    ∧ (∀ k, k ∉ map fst [("app"%string, String "shop"); ("app"%string, Null)] →
            labels !! k = None)
    ∧ ∀ earlier k v later,
        [("app"%string, String "shop"); ("app"%string, Null)] = earlier ++ (k, v) :: later →
        Forall (λ kv, fst kv ≠ k) later →
        labels !! k = Some (observe.text_of v).
Proof.
  apply (init_loads_null_as_the_empty_string sample.with_nulls); reflexivity.
Defined.

(** X10: a variable that is set to an empty or a blank value is not taken
    for one that is unset: the start is fatal. *)
Theorem blank_default_is_fatal (environ : gmap string string) (v : string) :
  environ !! "HABERDASHER_TAGS"%string = Some v
  ∨ environ !! "HABERDASHER_LABELS"%string = Some v →
  Forall (λ b, isSpace (b2z b) = true) (bytes_of_string v) →
  ∃ msg, init environ = Fatal msg.
Proof.
  intros [E|E] Hv; unfold init; rewrite E.
  - unfold Unmarshal_strings at 1. rewrite (parse_blank _ Hv). eauto.
  - destruct (Unmarshal_strings _); [eauto|].
    unfold Unmarshal_string_map. rewrite (parse_blank _ Hv). eauto.
Qed.

Lemma blank_default_is_fatal_witness :
  ∃ msg, init {[ "HABERDASHER_LABELS"%string := ""%string ]} = Fatal msg.
Proof.
  apply (blank_default_is_fatal {[ "HABERDASHER_LABELS"%string := ""%string ]} "").
  - right. reflexivity.
  - apply Forall_nil. exact I.
Defined.

(** ** The lines of the child *)

Lemma MaxScanTokenSize_pos : (0 < bufio.MaxScanTokenSize)%nat.
Proof. unfold bufio.MaxScanTokenSize. lia. Qed.

Lemma IndexByte_none l c :
  Forall (λ b, b2z b ≠ c) l → bufio.IndexByte l c = None.
Proof.
  induction 1 as [|b l Hb Hl IH]; [done|]. cbn [bufio.IndexByte].
  destruct (Z.eqb_spec (b2z b) c); [done|]. by rewrite IH.
Qed.

Lemma IndexByte_found l b rest c :
  Forall (λ b, b2z b ≠ c) l → b2z b = c →
  bufio.IndexByte (l ++ b :: rest) c = Some (length l).
Proof.
  intros Hl Hb. induction Hl as [|a l Ha Hl IH]; cbn [bufio.IndexByte app length].
  - by rewrite Hb, Z.eqb_refl.
  - destruct (Z.eqb_spec (b2z a) c); [done|]. by rewrite IH.
Qed.

(** The index that [IndexByte] gives is that of the first [c]. *)
Lemma IndexByte_first l c i :
  bufio.IndexByte l c = Some i →
  (i < length l)%nat ∧ Forall (λ b, b2z b ≠ c) (take i l).
Proof.
  revert i. induction l as [|b l IH]; intros i; [done|]. cbn [bufio.IndexByte].
  destruct (Z.eqb_spec (b2z b) c) as [E|E].
  - intros [= <-]. cbn. split; [lia|]. apply Forall_nil. exact I.
  - destruct (bufio.IndexByte l c) as [j|]; [|done]. intros [= <-].
    destruct (IH j eq_refl) as [Hj Hf]. cbn. split; [lia|]. by apply Forall_cons.
Qed.

Lemma dropCR_prefix data : ∃ k, bufio.dropCR data = take k data.
Proof.
  unfold bufio.dropCR. destruct (last data) as [b|].
  - destruct (b2z b =? 13); [eauto|]. exists (length data). by rewrite firstn_all.
  - exists (length data). by rewrite firstn_all.
Qed.

Section Scanner.
Variable maxTokenSize : nat.

Lemma Scan_nil : (0 < maxTokenSize)%nat → bufio.Scan maxTokenSize [] = None.
Proof.
  intros H. unfold bufio.Scan. cbn [length]. apply Nat.ltb_lt in H.
  by rewrite H, take_nil.
Qed.

(** A line and its line feed: the token is the line, without a carriage
    return at its end. *)
Lemma Scan_line l rest :
  Forall (λ b, b2z b ≠ 0x0A) l → (length l < maxTokenSize)%nat →
  bufio.Scan maxTokenSize (l ++ bufio.newline :: rest) = Some (bufio.dropCR l, rest).
Proof.
  intros Hl Hlen. unfold bufio.Scan, bufio.ScanLines.
  assert (take maxTokenSize (l ++ bufio.newline :: rest)
          = l ++ bufio.newline :: take (maxTokenSize - S (length l)) rest) as ->.
  { rewrite take_app_ge by lia.
    replace (maxTokenSize - length l)%nat with (S (maxTokenSize - S (length l))) by lia.
    done. }
  rewrite (IndexByte_found l bufio.newline _ 0x0A Hl eq_refl).
  rewrite !length_app. cbn [length].
  assert (∀ n, (length l + S n =? 0)%nat = false) as ->
    by (intros; apply Nat.eqb_neq; lia).
  rewrite andb_false_r, take_app_length.
  replace (length l + 1)%nat with (length (l ++ [bufio.newline]))
    by (rewrite length_app; done).
  by rewrite (cons_middle bufio.newline l rest), app_assoc, drop_app_length.
Qed.

(** What is left at the end of the input, without a line feed: the last
    token. *)
Lemma Scan_final l :
  l ≠ [] → Forall (λ b, b2z b ≠ 0x0A) l → (length l < maxTokenSize)%nat →
  bufio.Scan maxTokenSize l = Some (bufio.dropCR l, []).
Proof.
  intros Hne Hl Hlen. unfold bufio.Scan, bufio.ScanLines.
  rewrite take_ge by lia. apply Nat.ltb_lt in Hlen as Hlt. rewrite Hlt.
  replace (length l =? 0)%nat with false
    by (symmetry; apply Nat.eqb_neq; destruct l; [done|cbn; lia]).
  cbn [andb]. rewrite (IndexByte_none l _ Hl). by rewrite drop_all.
Qed.

(** A line that does not fit the buffer: [ErrTooLong]. *)
Lemma Scan_too_long l rest :
  Forall (λ b, b2z b ≠ 0x0A) l → (maxTokenSize ≤ length l)%nat →
  bufio.Scan maxTokenSize (l ++ rest) = None.
Proof.
  intros Hl Hlen. unfold bufio.Scan, bufio.ScanLines.
  rewrite take_app_le by lia.
  replace (length (l ++ rest) <? maxTokenSize)%nat with false
    by (symmetry; apply Nat.ltb_ge; rewrite length_app; lia).
  cbn [andb]. rewrite IndexByte_none; [done|]. by apply Forall_take.
Qed.

Lemma tokens_written ls : ∀ fuel tail,
  Forall (λ l, Forall (λ b, b2z b ≠ 0x0A) l ∧ (length l < maxTokenSize)%nat) ls →
  (length ls ≤ fuel)%nat →
  bufio.tokens maxTokenSize fuel (bufio.written ls ++ tail)
  = map (λ l, string_of_bytes (bufio.dropCR l)) ls
      ++ bufio.tokens maxTokenSize (fuel - length ls) tail.
Proof.
  induction ls as [|l ls IH]; intros fuel tail Hls Hf.
  { cbn. by rewrite Nat.sub_0_r. }
  apply Forall_cons in Hls as [[Hl Hlen] Hls]. cbn [length] in Hf.
  destruct fuel as [|fuel]; [lia|]. cbn [bufio.written flat_map bufio.tokens].
  rewrite <- !app_assoc. cbn [app].
  rewrite (Scan_line l _ Hl Hlen). cbn [map app length]. f_equal.
  fold (bufio.written ls). by rewrite (IH fuel tail Hls) by lia.
Qed.

End Scanner.

Lemma length_written ls : (length ls ≤ length (bufio.written ls))%nat.
Proof.
  induction ls as [|l ls IH]; [done|]. cbn [bufio.written flat_map length].
  rewrite !length_app. cbn [length]. unfold bufio.written in IH. lia.
Qed.

Lemma tokens_nil m fuel : (0 < m)%nat → bufio.tokens m fuel [] = [].
Proof. intros Hm. destruct fuel; [done|]. cbn [bufio.tokens]. by rewrite (Scan_nil m Hm). Qed.

(** The lines of a text that is written line by line. *)
Lemma lines_written (ls : list (list byte)) (final : list byte) :
  Forall (λ l, Forall (λ b, b2z b ≠ 0x0A) l ∧ (length l < bufio.MaxScanTokenSize)%nat)
         (ls ++ [final]) →
  bufio.lines (bufio.written ls ++ final)
  = map (λ l, string_of_bytes (bufio.dropCR l)) ls
      ++ match final with
         | [] => []
         | _ :: _ => [string_of_bytes (bufio.dropCR final)]
         end.
Proof.
  intros H. apply Forall_app in H as [Hls Hfinal].
  apply Forall_cons in Hfinal as [[Hf Hlen] _].
  unfold bufio.lines. rewrite (tokens_written _ ls _ final Hls).
  2: { rewrite length_app. pose proof (length_written ls). lia. }
  f_equal. destruct final as [|b final].
  { apply tokens_nil, MaxScanTokenSize_pos. }
  rewrite length_app.
  replace (length (bufio.written ls) + length (b :: final) - length ls)%nat
    with (S (length (bufio.written ls) + length final - length ls))
    by (pose proof (length_written ls); cbn [length]; lia).
  cbn [bufio.tokens]. rewrite (Scan_final _ (b :: final)); [|done..].
  by rewrite (tokens_nil _ _ MaxScanTokenSize_pos).
Qed.

(** X27: the read loop takes from the standard error of the child the lines
    as they were written, each up to its line feed and without a carriage
    return before it, and what is left at the end without a line feed as
    a last line, as long as each fits the buffer of the scanner. *)
Theorem written_lines_are_read_back (ls : list (list byte)) (final : list byte) :
  Forall (λ l, Forall (λ b, b2z b ≠ 0x0A) l ∧ (length l < bufio.MaxScanTokenSize)%nat)
         (ls ++ [final]) →
  bufio.lines (bufio.written ls ++ final)
  = map (λ l, string_of_bytes (bufio.dropCR l)) ls
      ++ match final with
         | [] => []
         | _ :: _ => [string_of_bytes (bufio.dropCR final)]
         end.
Proof. apply lines_written. Qed.

Lemma written_lines_are_read_back_witness :
  bufio.lines (bufio.written [[x6f; x6e; x65]; [x74; x77; x6f; x0d]; []] ++ [x6c])
  = map (λ l, string_of_bytes (bufio.dropCR l)) [[x6f; x6e; x65]; [x74; x77; x6f; x0d]; []]
      ++ [string_of_bytes (bufio.dropCR [x6c])].
Proof.
  apply (written_lines_are_read_back [[x6f; x6e; x65]; [x74; x77; x6f; x0d]; []] [x6c]).
  cbn [app].
  repeat (apply Forall_cons; split;
          [split;
           [repeat (apply Forall_cons; split; [vm_compute; intros E; discriminate E|]);
            apply Forall_nil; exact I
           | unfold bufio.MaxScanTokenSize; cbn [length]; lia]|]).
  apply Forall_nil. exact I.
Defined.

(** X28: a line that does not fit the buffer of the scanner ends the read
    loop: the lines before it are read, and neither it nor anything after
    it is. *)
Theorem too_long_line_ends_the_read_loop (ls : list (list byte)) (long rest : list byte) :
  Forall (λ l, Forall (λ b, b2z b ≠ 0x0A) l ∧ (length l < bufio.MaxScanTokenSize)%nat) ls →
  Forall (λ b, b2z b ≠ 0x0A) long →
  (bufio.MaxScanTokenSize ≤ length long)%nat →
  bufio.lines (bufio.written ls ++ long ++ rest)
  = map (λ l, string_of_bytes (bufio.dropCR l)) ls.
Proof.
  intros Hls Hlong Hlen. unfold bufio.lines. rewrite (tokens_written _ ls _ _ Hls).
  2: { rewrite length_app. pose proof (length_written ls). lia. }
  rewrite <- (app_nil_r (map _ ls)) at 2. f_equal.
  destruct (_ - _)%nat; [done|]. cbn [bufio.tokens].
  by rewrite (Scan_too_long _ long rest Hlong Hlen).
Qed.

Lemma too_long_line_ends_the_read_loop_witness :
  bufio.lines (bufio.written [[x6f; x6e; x65]]
                 ++ repeat x61 bufio.MaxScanTokenSize ++ [x0a; x74; x77; x6f; x0a])
  = map (λ l, string_of_bytes (bufio.dropCR l)) [[x6f; x6e; x65]].
Proof.
  apply (too_long_line_ends_the_read_loop [[x6f; x6e; x65]]).
  - apply Forall_cons. split; [|apply Forall_nil; exact I]. split.
    + repeat (apply Forall_cons; split; [vm_compute; intros E; discriminate E|]).
      apply Forall_nil. exact I.
    + unfold bufio.MaxScanTokenSize. cbn [length]. lia.
  - apply Forall_forall. intros b Hb%list_elem_of_In%repeat_spec. subst.
    vm_compute. intros E. discriminate E.
  - by rewrite repeat_length.
Defined.

Lemma Scan_fits m rest token rest' :
  bufio.Scan m rest = Some (token, rest') →
  (length token < m)%nat ∧ Forall (λ b, b2z b ≠ 0x0A) token
  ∧ (length rest' < length rest)%nat.
Proof.
  unfold bufio.Scan, bufio.ScanLines.
  destruct (dropCR_prefix (take m rest)) as [k Hk].
  destruct (Nat.ltb_spec (length rest) m) as [Hlt|Hge]; cbn [andb].
  - rewrite take_ge in * by lia.
    destruct (Nat.eqb_spec (length rest) 0) as [E0|E0]; [done|].
    destruct (bufio.IndexByte rest 10) as [i|] eqn:Ei.
    + destruct (IndexByte_first _ _ _ Ei) as [Hi Hf].
      destruct (dropCR_prefix (take i rest)) as [j Hj]. intros [= <- <-].
      rewrite Hj, !length_take, length_drop. repeat split; [lia| |lia].
      by apply Forall_take.
    + intros [= <- <-]. rewrite Hk, length_take, drop_all. cbn [length].
      repeat split; [lia| |lia]. apply Forall_take.
      clear -Ei. induction rest as [|b rest IH]; [apply Forall_nil; exact I|].
      cbn [bufio.IndexByte] in Ei. destruct (Z.eqb_spec (b2z b) 10); [done|].
      apply Forall_cons. split; [done|]. apply IH.
      by destruct (bufio.IndexByte rest 10).
  - destruct (bufio.IndexByte (take m rest) 10) as [i|] eqn:Ei; [|done].
    destruct (IndexByte_first _ _ _ Ei) as [Hi Hf]. rewrite length_take in Hi.
    destruct (dropCR_prefix (take i (take m rest))) as [j Hj]. intros [= <- <-].
    rewrite Hj, !length_take, length_drop. repeat split; [lia| |lia].
    by apply Forall_take.
Qed.

(** X29: a line that the read loop takes holds no line feed and is shorter
    than the buffer of the scanner, whatever the child writes. *)
Theorem lines_fit_the_buffer (stream : list byte) :
  Forall (λ s, (length (bytes_of_string s) < bufio.MaxScanTokenSize)%nat
               ∧ Forall (λ b, b2z b ≠ 0x0A) (bytes_of_string s))
         (bufio.lines stream).
Proof.
  unfold bufio.lines. generalize (length stream) as fuel. intros fuel. revert stream.
  induction fuel as [|fuel IH]; intros stream; cbn [bufio.tokens];
    [apply Forall_nil; exact I|].
  destruct (bufio.Scan _ stream) as [[token rest']|] eqn:E; [|apply Forall_nil; exact I].
  destruct (Scan_fits _ _ _ _ E) as (H1 & H2 & _).
  apply Forall_cons. split; [|apply IH].
  unfold bytes_of_string, string_of_bytes. by rewrite list_byte_of_string_of_list_byte.
Qed.

(** The fuel of [bufio.lines] is enough: with more, the tokens are the
    same. *)
Lemma tokens_fuel m : ∀ fuel rest,
  (length rest ≤ fuel)%nat → bufio.tokens m fuel rest = bufio.tokens m (length rest) rest.
Proof.
  induction fuel as [fuel IH] using lt_wf_ind. intros rest Hf.
  destruct fuel as [|fuel].
  { by replace (length rest) with 0%nat by lia. }
  cbn [bufio.tokens]. destruct (bufio.Scan m rest) as [[token rest']|] eqn:E.
  - destruct (Scan_fits _ _ _ _ E) as (_ & _ & Hlt).
    destruct (length rest) as [|k] eqn:Ek; [lia|]. cbn [bufio.tokens]. rewrite E. f_equal.
    rewrite (IH fuel) by lia. symmetry. apply IH; lia.
  - destruct (length rest) as [|k]; [done|]. cbn [bufio.tokens]. by rewrite E.
Qed.

(** X30: the standard error of the child is forwarded line by line: when
    the child writes lines that fit the buffer and every goroutine runs
    before the next line is read, the records handed over are those of the
    lines, one for each and in their order, and the process ends with
    status 0. *)
Theorem standard_error_is_forwarded_line_by_line {St} (c : config St) (d : defaults)
        (s0 : St) (e : Emitter St) (name bin : string) (args : list string)
        (child : syscall.proc) (ls : list (list byte)) (nows : list time.Time) :
  Emitters c !! observe.emitterName c = Some e →
  Args c = name :: bin :: args →
  Forall (λ l, Forall (λ b, b2z b ≠ 0x0A) l ∧ (length l < bufio.MaxScanTokenSize)%nat) ls →
  spawn c = Started child (bufio.lines (bufio.written ls)) →
  length nows = length ls →
  state (run c d (observe.prompt nows) (boot c s0)) = Exited 0
  ∧ delivered (run c d (observe.prompt nows) (boot c s0))
    = zip_with (λ now l, messageToEmit d now (string_of_bytes (bufio.dropCR l))) nows ls.
Proof.
  intros He Ha Hls Hsp Hl.
  assert (bufio.lines (bufio.written ls) = map (λ l, string_of_bytes (bufio.dropCR l)) ls)
    as Hlines.
  { rewrite <- (app_nil_r (bufio.written ls)).
    rewrite (lines_written ls []); [by rewrite app_nil_r|].
    apply Forall_app. split; [done|]. apply Forall_cons. split; [|apply Forall_nil; exact I].
    split; [apply Forall_nil; exact I|apply MaxScanTokenSize_pos]. }
  rewrite Hlines in Hsp.
  destruct (prompt_run c d s0 e name bin args child _ nows He Ha Hsp) as (H1 & _ & H3).
  { by rewrite length_map. }
  split; [done|]. rewrite H3. clear. revert nows.
  induction ls as [|l ls IH]; intros [|now nows]; cbn; try done. by rewrite IH.
Qed.

Lemma standard_error_is_forwarded_line_by_line_witness :
  state (run sample.two_texts sample.no_defaults (observe.prompt [sample.noon; sample.noon])
             (boot sample.two_texts [])) = Exited 0
  ∧ delivered (run sample.two_texts sample.no_defaults
                   (observe.prompt [sample.noon; sample.noon])
                   (boot sample.two_texts []))
    = zip_with (λ now l, messageToEmit sample.no_defaults now
                           (string_of_bytes (bufio.dropCR l)))
               [sample.noon; sample.noon] [[x6f; x6e; x65]; [x74; x77; x6f; x0d]].
Proof.
  apply (standard_error_is_forwarded_line_by_line sample.two_texts sample.no_defaults []
           sample.collector "haberdasher" "/bin/app" [] sample.child
           [[x6f; x6e; x65]; [x74; x77; x6f; x0d]] [sample.noon; sample.noon]).
  - reflexivity.
  - reflexivity.
  - repeat (apply Forall_cons; split;
            [split;
             [repeat (apply Forall_cons; split; [vm_compute; intros E; discriminate E|]);
              apply Forall_nil; exact I
             | unfold bufio.MaxScanTokenSize; cbn [length]; lia]|]).
    apply Forall_nil. exact I.
  - reflexivity.
  - reflexivity.
Defined.
